(** * Subtitle generator: timing normaliser, translation reassembler,
      transcription filter and job orchestrator

    A shallow embedding of the Python backend
    (services/subtitle_service.py, services/transcription_service.py,
    services/translation_service.py, main.py) and the properties of it that
    the specification states.

    Conventions of the embedding.
    - A Python [float] is an exact rational ([Q]); rounding, infinities and
      NaN are outside the model.  Equalities between computed times are
      stated with [==] where arithmetic is involved.
    - A Python [str] is a [string]; its characters are the code points
      0..255, and [isspace], [isalnum] and [lower] follow Python on that
      range.
    - Python objects that are mutated through shared references
      ([TranscriptionSegment] instances and the lists holding them) live in
      an explicit store; a reference is an index into it. *)

From Stdlib Require Import Ascii String QArith Qround Lqa.
From stdpp Require Import gmap strings list pretty.

Local Open Scope string_scope.
Local Open Scope list_scope.

(** ** Python built-ins on numbers *)

Definition Qltb (x y : Q) : bool :=
  match (x ?= y)%Q with Lt => true | _ => false end.

Definition Qleb (x y : Q) : bool :=
  match (x ?= y)%Q with Gt => false | _ => true end.

(** [max(a, b)]: the first argument unless the second is strictly larger. *)
Definition py_max (a b : Q) : Q := if Qltb a b then b else a.

(** [min(a, b)]: the first argument unless the second is strictly smaller. *)
Definition py_min (a b : Q) : Q := if Qltb b a then b else a.

(** [int(x)] on a float: truncation towards zero. *)
Definition py_int (x : Q) : Z := Z.quot (Qnum x) (Z.pos (Qden x)).

Definition len {A} (l : list A) : Z := Z.of_nat (length l).

(** [l[a:b]] for non-negative [a] and [b]. *)
Definition py_slice {A} (l : list A) (a b : Z) : list A :=
  take (Z.to_nat b - Z.to_nat a) (drop (Z.to_nat a) l).

(** ** Python built-ins on strings *)

Definition code (c : ascii) : N := N_of_ascii c.

(** [str.isspace] on one character. *)
Definition isspace (c : ascii) : bool :=
  let n := code c in
  ((9 <=? n) && (n <=? 13) || (28 <=? n) && (n <=? 32)
   || (n =? 133) || (n =? 160))%N.

(** [str.isalnum] on one character: letters, decimal digits, and the
    characters with a numeric value. *)
Definition isalnum_char (c : ascii) : bool :=
  let n := code c in
  ((48 <=? n) && (n <=? 57) || (65 <=? n) && (n <=? 90)
   || (97 <=? n) && (n <=? 122)
   || (n =? 170) || (n =? 178) || (n =? 179) || (n =? 181)
   || (n =? 185) || (n =? 186) || (188 <=? n) && (n <=? 190)
   || (192 <=? n) && (n <=? 214) || (216 <=? n) && (n <=? 246)
   || (248 <=? n) && (n <=? 255))%N.

Definition lower_char (c : ascii) : ascii :=
  let n := code c in
  if ((65 <=? n) && (n <=? 90) || (192 <=? n) && (n <=? 214)
      || (216 <=? n) && (n <=? 222))%N
  then ascii_of_N (n + 32) else c.

Fixpoint chars (s : string) : list ascii :=
  match s with
  | EmptyString => []
  | String c s' => c :: chars s'
  end.

Fixpoint of_chars (l : list ascii) : string :=
  match l with
  | [] => EmptyString
  | c :: l' => String c (of_chars l')
  end.

Definition str_len (s : string) : Z := len (chars s).

Definition lower (s : string) : string := of_chars (map lower_char (chars s)).

(** [s.isalnum()]: non-empty and every character alphanumeric. *)
Definition isalnum (s : string) : bool :=
  match chars s with
  | [] => false
  | l => forallb isalnum_char l
  end.

Fixpoint lstrip_chars (l : list ascii) : list ascii :=
  match l with
  | c :: l' => if isspace c then lstrip_chars l' else l
  | [] => []
  end.

(** [s.strip()] *)
Definition strip (s : string) : string :=
  of_chars (rev (lstrip_chars (rev (lstrip_chars (chars s))))).

(** [s.split()]: the maximal runs of non-space characters.  [cur] holds the
    word being read, reversed. *)
Fixpoint split_ws (cur : list ascii) (l : list ascii) : list string :=
  match l with
  | [] => match cur with [] => [] | _ => [of_chars (rev cur)] end
  | c :: l' =>
      if isspace c
      then match cur with
           | [] => split_ws [] l'
           | _ => of_chars (rev cur) :: split_ws [] l'
           end
      else split_ws (c :: cur) l'
  end.

Definition split (s : string) : list string := split_ws [] (chars s).

(** [sep.join(l)] *)
Definition join (sep : string) (l : list string) : string :=
  String.concat sep l.

(** ** models/requests.py *)

Record TranscriptionSegment := mkSegment {
  start : Q;
  end_ : Q;
  text : string;
  confidence : option Q
}.

Definition with_start (s : TranscriptionSegment) (v : Q) :=
  mkSegment v (end_ s) (text s) (confidence s).

Definition with_end (s : TranscriptionSegment) (v : Q) :=
  mkSegment (start s) v (text s) (confidence s).

(** ** The object store

    [objs] holds the [TranscriptionSegment] instances, [lsts] the Python
    list objects (each a list of references to segments).  A computation
    that dereferences a reference the store does not hold, or divides by
    zero, has no result ([None]). *)

Abbreviation loc := nat (only parsing).

Record heap := mkHeap {
  objs : list TranscriptionSegment;
  lsts : list (list loc)
}.

Definition M (A : Type) : Type := heap → option (A * heap).

Definition ret {A} (a : A) : M A := λ h, Some (a, h).

Definition bind {A B} (m : M A) (f : A → M B) : M B :=
  λ h, match m h with
       | Some (a, h') => f a h'
       | None => None
       end.

Definition raise {A} : M A := λ _, None.

Notation "'let*' x ':=' m 'in' k" := (bind m (λ x, k))
  (at level 10, x name, m at level 100, k at level 200).
Notation "m '>>' k" := (bind m (λ _, k))
  (at level 100, k at level 200, right associativity).

(** [TranscriptionSegment(...)]: a new object. *)
Definition new_segment (s : TranscriptionSegment) : M loc :=
  λ h, Some (length (objs h), mkHeap (objs h ++ [s]) (lsts h)).

Definition get_segment (a : loc) : M TranscriptionSegment :=
  λ h, match objs h !! a with
       | Some s => Some (s, h)
       | None => None
       end.

(** [segment.start = v] *)
Definition set_start (a : loc) (v : Q) : M unit :=
  λ h, match objs h !! a with
       | Some s => Some (tt, mkHeap (<[a := with_start s v]> (objs h)) (lsts h))
       | None => None
       end.

(** [segment.end = v] *)
Definition set_end (a : loc) (v : Q) : M unit :=
  λ h, match objs h !! a with
       | Some s => Some (tt, mkHeap (<[a := with_end s v]> (objs h)) (lsts h))
       | None => None
       end.

(** A list display ([[]], [[segment]]): a new list object. *)
Definition new_list (l : list loc) : M loc :=
  λ h, Some (length (lsts h), mkHeap (objs h) (lsts h ++ [l])).

Definition get_list (r : loc) : M (list loc) :=
  λ h, match lsts h !! r with
       | Some l => Some (l, h)
       | None => None
       end.

Definition set_list (r : loc) (l : list loc) : M unit :=
  λ h, match lsts h !! r with
       | Some _ => Some (tt, mkHeap (objs h) (<[r := l]> (lsts h)))
       | None => None
       end.

(** [r.append(a)] and [r.extend(r2)] change the list object in place. *)
Definition list_append (r : loc) (a : loc) : M unit :=
  let* l := get_list r in set_list r (l ++ [a]).

Definition list_extend (r r2 : loc) : M unit :=
  let* l2 := get_list r2 in let* l := get_list r in set_list r (l ++ l2).

(** Reading the segments a list of references points to. *)
Definition deref (h : heap) (l : list loc) : option (list TranscriptionSegment) :=
  mapM (λ a, objs h !! a) l.

(** ** services/subtitle_service.py *)

(** The body of the [for i in range(num_parts)] loop of
    [_split_long_segment]; [idxs] are the remaining values of [i].  The parts
    are appended to the list object [segments]. *)
Fixpoint split_loop (segments : loc) (words : list string) (duration : Q)
    (num_parts words_per_part : Z) (conf : option Q)
    (current_start : Q) (idxs : list nat) : M unit :=
  match idxs with
  | [] => ret tt
  | i :: idxs' =>
      let start_idx := (Z.of_nat i * words_per_part)%Z in
      let end_idx := if (Z.of_nat i <? num_parts - 1)%Z
                     then ((Z.of_nat i + 1) * words_per_part)%Z
                     else len words in
      if (len words <=? start_idx)%Z then ret tt
      else
        let part_text := join " " (py_slice words start_idx end_idx) in
        let part_duration := (duration / inject_Z num_parts)%Q in
        let part_end := (current_start + part_duration)%Q in
        let* a := new_segment (mkSegment current_start part_end part_text conf) in
        list_append segments a >>
        split_loop segments words duration num_parts words_per_part conf
          part_end idxs'
  end.

Definition _split_long_segment (segment : loc) (max_duration : Q) : M loc :=
  let* segments := new_list [] in
  let* seg := get_segment segment in
  let words := split (text seg) in
  if (len words <=? 1)%Z then new_list [segment]
  else
    let duration := (end_ seg - start seg)%Q in
    let num_parts := (py_int (duration / max_duration) + 1)%Z in
    if (num_parts =? 0)%Z then raise
    else
      let words_per_part := (len words / num_parts)%Z in
      split_loop segments words duration num_parts words_per_part
        (confidence seg) (start seg) (seq 0 (Z.to_nat num_parts)) >>
      ret segments.

(** [segments.sort(key=lambda x: x.start)]: a stable sort, here by
    insertion; [k] gives each reference its key.  An element is inserted
    before the first one whose key is not smaller, so equal keys keep
    their order. *)
Fixpoint insert_by (k : loc → Q) (a : loc) (l : list loc) : list loc :=
  match l with
  | [] => [a]
  | b :: l' => if Qltb (k b) (k a) then b :: insert_by k a l' else a :: l
  end.

Definition sort_by (k : loc → Q) (l : list loc) : list loc :=
  foldr (insert_by k) [] l.

Definition key_start (h : heap) (a : loc) : Q :=
  match objs h !! a with
  | Some s => start s
  | None => 0%Q
  end.

Definition sort_by_start (r : loc) : M unit :=
  let* l := get_list r in
  λ h, match deref h l with
       | Some _ => set_list r (sort_by (key_start h) l) h
       | None => None
       end.

(** The body of the loop of [_remove_overlaps]; [segment.end <=
    segment.start] reads the object again, after the assignment to
    [segment.start]. *)
Definition overlaps_body (cleaned_segments : loc) (segment : loc) : M unit :=
  let* cleaned := get_list cleaned_segments in
  match last cleaned with
  | None => list_append cleaned_segments segment
  | Some last_segment =>
      let* seg := get_segment segment in
      let* lastseg := get_segment last_segment in
      (if Qltb (start seg) (end_ lastseg)
       then
         set_start segment (end_ lastseg + (1 # 10))%Q >>
         let* seg' := get_segment segment in
         if Qleb (end_ seg') (start seg')
         then set_end segment (start seg' + 1)%Q
         else ret tt
       else ret tt) >>
      list_append cleaned_segments segment
  end.

Fixpoint overlaps_loop (cleaned_segments : loc) (l : list loc) : M unit :=
  match l with
  | [] => ret tt
  | segment :: l' =>
      overlaps_body cleaned_segments segment >>
      overlaps_loop cleaned_segments l'
  end.

Definition _remove_overlaps (segments : loc) : M loc :=
  let* l := get_list segments in
  match l with
  | [] => ret segments
  | _ =>
      sort_by_start segments >>
      let* sorted := get_list segments in
      let* cleaned_segments := new_list [] in
      overlaps_loop cleaned_segments sorted >>
      ret cleaned_segments
  end.

(** The body of the loop of [_optimize_segments_for_subtitles]. *)
Definition optimize_body (optimized_segments : loc) (segment : loc) : M unit :=
  let* seg := get_segment segment in
  if bool_decide (strip (text seg) = "") then ret tt
  else
    let duration := (end_ seg - start seg)%Q in
    let min_duration := py_max 1 (inject_Z (str_len (text seg)) * (5 # 100))%Q in
    (if Qltb duration min_duration
     then set_end segment (start seg + min_duration)%Q
     else ret tt) >>
    let max_duration := 7%Q in
    if Qltb max_duration duration
    then
      let* split_segments := _split_long_segment segment max_duration in
      list_extend optimized_segments split_segments
    else list_append optimized_segments segment.

Fixpoint optimize_loop (optimized_segments : loc) (l : list loc) : M unit :=
  match l with
  | [] => ret tt
  | segment :: l' =>
      optimize_body optimized_segments segment >>
      optimize_loop optimized_segments l'
  end.

(** The loop reads the caller's list object, which nothing in the loop can
    write: the references are read once, before the loop. *)
Definition _optimize_segments_for_subtitles (segments : loc) : M loc :=
  let* optimized_segments := new_list [] in
  let* l := get_list segments in
  optimize_loop optimized_segments l >>
  _remove_overlaps optimized_segments.

(** ** Reasoning about the store *)

Lemma Qltb_lt x y : Qltb x y = true ↔ (x < y)%Q.
Proof.
  unfold Qltb. rewrite Qlt_alt. destruct (x ?= y)%Q; split; congruence.
Qed.

Lemma Qltb_ge x y : Qltb x y = false ↔ (y <= x)%Q.
Proof.
  unfold Qltb. rewrite Qle_alt, <- (Qcompare_antisym x y).
  destruct (x ?= y)%Q; simpl; split; congruence.
Qed.

Lemma Qleb_le x y : Qleb x y = true ↔ (x <= y)%Q.
Proof.
  unfold Qleb. rewrite Qle_alt. destruct (x ?= y)%Q; split; congruence.
Qed.

Lemma Qleb_gt x y : Qleb x y = false ↔ (y < x)%Q.
Proof.
  unfold Qleb. rewrite Qlt_alt, <- (Qcompare_antisym x y).
  destruct (x ?= y)%Q; simpl; split; congruence.
Qed.

Lemma py_max_ge_l a b : (a <= py_max a b)%Q.
Proof.
  unfold py_max. destruct (Qltb a b) eqn:E; [|lra].
  apply Qltb_lt in E. lra.
Qed.

Lemma bind_Some {A B} (m : M A) (f : A → M B) h a h1 :
  m h = Some (a, h1) → bind m f h = f a h1.
Proof. unfold bind. by intros ->. Qed.

Lemma get_segment_Some a s h :
  objs h !! a = Some s → get_segment a h = Some (s, h).
Proof. unfold get_segment. by intros ->. Qed.

Lemma get_list_Some r l h :
  lsts h !! r = Some l → get_list r h = Some (l, h).
Proof. unfold get_list. by intros ->. Qed.

Lemma set_list_Some r l l0 h :
  lsts h !! r = Some l0 →
  set_list r l h = Some (tt, mkHeap (objs h) (<[r := l]> (lsts h))).
Proof. unfold set_list. by intros ->. Qed.

Lemma list_append_Some r a l h :
  lsts h !! r = Some l →
  list_append r a h = Some (tt, mkHeap (objs h) (<[r := l ++ [a]]> (lsts h))).
Proof.
  intros H. unfold list_append.
  rewrite (bind_Some _ _ _ _ _ (get_list_Some _ _ _ H)).
  by apply set_list_Some with l.
Qed.

Lemma set_end_Some a s v h :
  objs h !! a = Some s →
  set_end a v h = Some (tt, mkHeap (<[a := with_end s v]> (objs h)) (lsts h)).
Proof. unfold set_end. by intros ->. Qed.

Lemma set_start_Some a s v h :
  objs h !! a = Some s →
  set_start a v h = Some (tt, mkHeap (<[a := with_start s v]> (objs h)) (lsts h)).
Proof. unfold set_start. by intros ->. Qed.

(** *** [_split_long_segment] *)

(** The parts the loop of [_split_long_segment] creates, as values. *)
Fixpoint split_parts (words : list string) (duration : Q)
    (num_parts words_per_part : Z) (conf : option Q)
    (current_start : Q) (idxs : list nat) : list TranscriptionSegment :=
  match idxs with
  | [] => []
  | i :: idxs' =>
      let start_idx := (Z.of_nat i * words_per_part)%Z in
      let end_idx := if (Z.of_nat i <? num_parts - 1)%Z
                     then ((Z.of_nat i + 1) * words_per_part)%Z
                     else len words in
      if (len words <=? start_idx)%Z then []
      else
        let part_end := (current_start + duration / inject_Z num_parts)%Q in
        mkSegment current_start part_end
          (join " " (py_slice words start_idx end_idx)) conf
        :: split_parts words duration num_parts words_per_part conf
             part_end idxs'
  end.

Lemma split_loop_spec r words d N wpp conf idxs : ∀ cs cur h,
  lsts h !! r = Some cur →
  let parts := split_parts words d N wpp conf cs idxs in
  split_loop r words d N wpp conf cs idxs h
  = Some (tt, mkHeap (objs h ++ parts)
                (<[r := cur ++ seq (length (objs h)) (length parts)]> (lsts h))).
Proof.
  induction idxs as [|i idxs IH]; intros cs cur h Hr; simpl.
  - unfold ret. destruct h as [o l]; simpl in *.
    rewrite !app_nil_r. by rewrite list_insert_id.
  - destruct (len words <=? Z.of_nat i * wpp)%Z.
    + unfold ret. destruct h as [o l]; simpl in *.
      rewrite !app_nil_r. by rewrite list_insert_id.
    + unfold bind at 1. unfold new_segment.
      erewrite bind_Some; last by apply list_append_Some.
      simpl. erewrite IH; last first.
      { simpl. apply list_lookup_insert_eq. by eapply lookup_lt_Some. }
      simpl. rewrite list_insert_insert_eq, length_app, <- !app_assoc. simpl.
      by rewrite Nat.add_1_r.
Qed.

Lemma py_int_floor (x : Q) : (0 <= x)%Q → py_int x = Qfloor x.
Proof.
  destruct x as [n d]. unfold Qle, py_int, Qfloor. simpl. intros H.
  apply Z.quot_div_nonneg; lia.
Qed.

Definition split_end_idx (words : list string) (N wpp : Z) (i : nat) : Z :=
  if (Z.of_nat i <? N - 1)%Z then ((Z.of_nat i + 1) * wpp)%Z else len words.

(** The word groups of the parts. *)
Definition word_group (words : list string) (N wpp : Z) (i : nat) : list string :=
  py_slice words (Z.of_nat i * wpp) (split_end_idx words N wpp i).

Definition total_duration (parts : list TranscriptionSegment) : Q :=
  foldr Qplus 0%Q ((λ p, end_ p - start p)%Q <$> parts).

Section split_parts_facts.
Context (words : list string) (d : Q) (N wpp : Z) (conf : option Q).
Hypothesis HN : (1 <= N)%Z.
Hypothesis Hw : (0 <= wpp)%Z.
Hypothesis Hfit : (wpp * N <= len words)%Z.
Hypothesis Hne : (0 < len words)%Z.

Lemma split_no_break (i : nat) :
  (Z.of_nat i < N)%Z → (len words <=? Z.of_nat i * wpp)%Z = false.
Proof. intros Hi. apply Z.leb_gt. nia. Qed.

Lemma split_parts_text cs i m :
  (Z.of_nat (i + m) <= N)%Z →
  text <$> split_parts words d N wpp conf cs (seq i m)
  = join " " <$> (word_group words N wpp <$> seq i m).
Proof.
  revert cs i. induction m as [|m IH]; intros cs i Hi; [done|].
  simpl. rewrite split_no_break by lia. simpl. f_equal.
  apply IH. lia.
Qed.

Lemma split_parts_length cs i m :
  (Z.of_nat (i + m) <= N)%Z →
  length (split_parts words d N wpp conf cs (seq i m)) = m.
Proof.
  intros Hi.
  rewrite <- (length_fmap text), split_parts_text by done.
  by rewrite !length_fmap, length_seq.
Qed.

Lemma split_parts_span cs idxs :
  Forall (λ p, end_ p = (start p + d / inject_Z N)%Q ∧ confidence p = conf)
    (split_parts words d N wpp conf cs idxs).
Proof.
  revert cs. induction idxs as [|i idxs IH]; intros cs; simpl; [constructor|].
  destruct (len words <=? Z.of_nat i * wpp)%Z; [constructor|].
  constructor; [done|apply IH].
Qed.

Lemma split_parts_total cs idxs :
  let parts := split_parts words d N wpp conf cs idxs in
  (total_duration parts == inject_Z (len parts) * (d / inject_Z N))%Q.
Proof.
  simpl. unfold total_duration, len.
  pose proof (split_parts_span cs idxs) as H. revert H.
  generalize (split_parts words d N wpp conf cs idxs).
  generalize (d / inject_Z N)%Q. intros x parts.
  induction 1 as [|p ps [Hp _] _ IH].
  - change (0 == 0 * x)%Q. lra.
  - rewrite fmap_cons, length_cons, Nat2Z.inj_succ. unfold Z.succ.
    rewrite inject_Z_plus. simpl foldr. rewrite IH, Hp.
    change (inject_Z 1) with 1%Q. lra.
Qed.

Lemma word_groups_concat i m :
  (Z.of_nat (i + S m) = N)%Z →
  concat (word_group words N wpp <$> seq i (S m))
  = drop (Z.to_nat (Z.of_nat i * wpp)) words.
Proof.
  revert i. induction m as [|m IH]; intros i Hi.
  - simpl. rewrite app_nil_r. unfold word_group, py_slice, split_end_idx.
    replace (Z.of_nat i <? N - 1)%Z with false by (symmetry; apply Z.ltb_ge; lia).
    apply take_ge. rewrite length_drop. unfold len. lia.
  - change (seq i (S (S m))) with (i :: seq (S i) (S m)).
    rewrite fmap_cons.
    change (concat (?a :: ?b)) with (a ++ concat b).
    rewrite (IH (S i)) by lia.
    unfold word_group, py_slice, split_end_idx.
    replace (Z.of_nat i <? N - 1)%Z with true by (symmetry; apply Z.ltb_lt; lia).
    set (k := Z.to_nat (Z.of_nat i * wpp)).
    replace (Z.to_nat ((Z.of_nat i + 1) * wpp) - k)%nat with (Z.to_nat wpp)
      by (subst k; nia).
    replace (Z.to_nat (Z.of_nat (S i) * wpp)) with (k + Z.to_nat wpp)%nat
      by (subst k; nia).
    rewrite <- drop_drop. apply take_drop.
Qed.

Lemma word_group_nonempty i :
  (1 <= wpp)%Z → (Z.of_nat i < N)%Z → word_group words N wpp i ≠ [].
Proof.
  intros H1 Hi E. apply (f_equal length) in E. revert E.
  unfold word_group, py_slice, split_end_idx.
  rewrite length_take, length_drop. simpl. unfold len in *.
  destruct (Z.ltb_spec (Z.of_nat i) (N - 1)); nia.
Qed.
End split_parts_facts.

Lemma string_app_assoc (s1 s2 s3 : string) :
  (s1 +:+ s2 +:+ s3 = (s1 +:+ s2) +:+ s3)%string.
Proof.
  induction s1 as [|c s1 IH]; [done|].
  change (String c (s1 +:+ s2 +:+ s3) = String c ((s1 +:+ s2) +:+ s3))%string.
  by rewrite IH.
Qed.

Lemma string_concat_cons sep x (l : list string) :
  l ≠ [] →
  String.concat sep (x :: l) = (x +:+ sep +:+ String.concat sep l)%string.
Proof. by destruct l. Qed.

Lemma string_concat_app sep (l1 l2 : list string) :
  l1 ≠ [] → l2 ≠ [] →
  String.concat sep (l1 ++ l2)
  = (String.concat sep l1 +:+ sep +:+ String.concat sep l2)%string.
Proof.
  intros H1 H2. induction l1 as [|x l1 IH]; [done|].
  destruct l1 as [|y l1].
  - by apply string_concat_cons.
  - rewrite <- app_comm_cons, !string_concat_cons, IH by done.
    by rewrite !string_app_assoc.
Qed.

Lemma join_groups sep (gs : list (list string)) :
  Forall (λ g, g ≠ []) gs →
  join sep (join sep <$> gs) = join sep (concat gs).
Proof.
  unfold join. induction 1 as [|g gs Hg Hgs IH]; [done|].
  destruct gs as [|g' gs].
  - simpl. by rewrite app_nil_r.
  - rewrite fmap_cons, string_concat_cons, IH by done.
    change (concat (g :: g' :: gs)) with (g ++ concat (g' :: gs)).
    rewrite string_concat_app; [done|done|].
    inversion Hgs; subst. destruct g'; [done|]. done.
Qed.

Lemma split_long_segment_one a md seg h :
  objs h !! a = Some seg →
  (len (split (text seg)) <= 1)%Z →
  _split_long_segment a md h
  = Some (S (length (lsts h)), mkHeap (objs h) (lsts h ++ [[]; [a]])).
Proof.
  intros Ha Hw. unfold _split_long_segment.
  unfold bind at 1. unfold new_list at 1.
  erewrite bind_Some; last by apply get_segment_Some.
  apply Z.leb_le in Hw. rewrite Hw. unfold new_list. simpl.
  by rewrite length_app, Nat.add_1_r, <- app_assoc.
Qed.

Lemma split_long_segment_many a md seg h :
  objs h !! a = Some seg →
  let words := split (text seg) in
  let d := (end_ seg - start seg)%Q in
  let N := (py_int (d / md) + 1)%Z in
  let parts := split_parts words d N (len words / N) (confidence seg)
                 (start seg) (seq 0 (Z.to_nat N)) in
  (1 < len words)%Z → N ≠ 0%Z →
  _split_long_segment a md h
  = Some (length (lsts h),
          mkHeap (objs h ++ parts)
            (lsts h ++ [seq (length (objs h)) (length parts)])).
Proof.
  intros Ha words d N parts Hw HN. unfold _split_long_segment.
  unfold bind at 1. unfold new_list at 1.
  erewrite bind_Some; last by apply get_segment_Some.
  fold words d N. apply Z.leb_gt in Hw. rewrite Hw.
  apply Z.eqb_neq in HN. rewrite HN.
  erewrite bind_Some; last first.
  { apply split_loop_spec with (cur := []). simpl.
    by rewrite lookup_app_r, Nat.sub_diag. }
  unfold ret. simpl. fold parts. do 3 f_equal.
  replace (length (lsts h)) with (length (lsts h) + 0)%nat at 1 by lia.
  by rewrite insert_app_r.
Qed.

Lemma deref_Some h l vs :
  deref h l = Some vs ↔ Forall2 (λ a s, objs h !! a = Some s) l vs.
Proof. apply mapM_Some. Qed.

Lemma deref_fresh o ls parts :
  deref (mkHeap (o ++ parts) ls) (seq (length o) (length parts)) = Some parts.
Proof.
  apply deref_Some. simpl. revert o.
  induction parts as [|p parts IH]; intros o; simpl; [constructor|].
  constructor.
  - by rewrite lookup_app_r, Nat.sub_diag.
  - specialize (IH (o ++ [p])).
    rewrite length_app, Nat.add_1_r, <- app_assoc in IH. apply IH.
Qed.

Lemma num_parts_ge_2 (d : Q) : (7 < d)%Q → (2 <= py_int (d / 7) + 1)%Z.
Proof.
  intros Hd. rewrite py_int_floor.
  - assert (1 <= Qfloor (d / 7))%Z; [|lia].
    change 1%Z with (Qfloor 1). apply Qfloor_resp_le.
    apply Qle_shift_div_l; lra.
  - apply Qle_shift_div_l; lra.
Qed.

Lemma of_chars_chars s : of_chars (chars s) = s.
Proof. induction s; simpl; congruence. Qed.

Lemma chars_app (s t : string) : chars (s +:+ t) = chars s ++ chars t.
Proof.
  induction s as [|c s IH]; [done|].
  change (c :: chars (s +:+ t) = c :: chars s ++ chars t). by rewrite IH.
Qed.

(** A word: a non-empty string without white space. *)
Definition is_word (w : string) : Prop :=
  w ≠ "" ∧ Forall (λ c, isspace c = false) (chars w).

(** A text whose words are separated by single spaces, with no white
    space at either end. *)
Definition single_spaced (t : string) : Prop :=
  ∃ ws, Forall is_word ws ∧ t = join " " ws.

Lemma split_ws_word w : ∀ cur rest,
  Forall (λ c, isspace c = false) w →
  split_ws cur (w ++ rest) = split_ws (rev w ++ cur) rest.
Proof.
  induction w as [|c w IH]; intros cur rest Hw; [done|].
  apply Forall_cons in Hw as [Hc Hw]. simpl. rewrite Hc, IH by done.
  by rewrite <- app_assoc.
Qed.

Lemma split_join_words ws : Forall is_word ws → split (join " " ws) = ws.
Proof.
  unfold split. induction 1 as [|w ws [Hne Hw] Hws IH]; [done|].
  assert (∃ c cs, rev (chars w) ++ [] = c :: cs) as (c & cs & Hrev).
  { rewrite app_nil_r. destruct (rev (chars w)) as [|c cs] eqn:E; [|by eauto].
    apply (f_equal (@rev ascii)) in E. rewrite rev_involutive in E.
    destruct w; [done|discriminate E]. }
  assert (of_chars (rev (c :: cs)) = w) as Hback.
  { rewrite <- Hrev, app_nil_r, rev_involutive. apply of_chars_chars. }
  destruct ws as [|w' ws].
  - simpl. rewrite <- (app_nil_r (chars w)), split_ws_word by done.
    rewrite Hrev.
    change (split_ws (c :: cs) []) with [of_chars (rev (c :: cs))].
    by rewrite Hback.
  - unfold join in *. rewrite string_concat_cons by done.
    rewrite !chars_app. change (chars " " ++ ?x) with (" "%char :: x).
    rewrite split_ws_word by done. rewrite Hrev.
    change (split_ws (c :: cs) (" "%char :: ?x))
      with (of_chars (rev (c :: cs)) :: split_ws [] x).
    by rewrite Hback, IH.
Qed.

Lemma join_split_single_spaced t : single_spaced t → join " " (split t) = t.
Proof. intros (ws & Hws & ->). by rewrite split_join_words. Qed.

(** C4 (as amended): a split segment's parts.  For a segment of duration
    [D > 7] with more than one word, [_split_long_segment] returns a new
    list of [N = floor(D/7) + 1] new segments whose durations sum to [D],
    each with the original confidence; when the segment has at least [N]
    words, the parts' texts joined by single spaces are the segment's
    words joined by single spaces, and that is the original text when its
    words are separated by single spaces and it has no white space at
    either end. *)
Theorem split_long_segment_parts h a seg :
  objs h !! a = Some seg →
  let words := split (text seg) in
  let D := (end_ seg - start seg)%Q in
  (7 < D)%Q → (1 < len words)%Z →
  ∃ r h' locs parts,
    _split_long_segment a 7 h = Some (r, h') ∧
    lsts h' !! r = Some locs ∧
    deref h' locs = Some parts ∧
    len parts = (Qfloor (D / 7) + 1)%Z ∧
    (total_duration parts == D)%Q ∧
    Forall (λ p, confidence p = confidence seg) parts ∧
    ((len parts <= len words)%Z →
     join " " (text <$> parts) = join " " words ∧
     (single_spaced (text seg) → join " " (text <$> parts) = text seg)).
Proof.
  intros Ha words D HD Hw.
  pose proof (num_parts_ge_2 D HD) as HN.
  set (N := (py_int (D / 7) + 1)%Z) in *.
  set (wpp := (len words / N)%Z).
  set (parts := split_parts words D N wpp (confidence seg) (start seg)
                  (seq 0 (Z.to_nat N))).
  assert (0 <= wpp)%Z as Hwpp by (apply Z.div_pos; unfold len; lia).
  assert (wpp * N <= len words)%Z as Hfit
    by (rewrite Z.mul_comm; apply Z.mul_div_le; lia).
  assert (length parts = Z.to_nat N) as Hlen
    by (apply split_parts_length; lia).
  assert (len parts = N) as HlenZ by (unfold len; lia).
  exists (length (lsts h)), (mkHeap (objs h ++ parts)
            (lsts h ++ [seq (length (objs h)) (length parts)])),
    (seq (length (objs h)) (length parts)), parts.
  split_and!.
  - apply (split_long_segment_many a 7 seg h Ha); [done|fold D N; lia].
  - simpl. by rewrite lookup_app_r, Nat.sub_diag.
  - apply deref_fresh.
  - rewrite HlenZ. unfold N. rewrite py_int_floor; [done|].
    apply Qle_shift_div_l; lra.
  - unfold parts. rewrite split_parts_total by lia. fold parts.
    rewrite HlenZ. field.
    intros E. assert (inject_Z 2 <= inject_Z N)%Q as H2
      by (rewrite <- Zle_Qle; lia).
    rewrite E in H2. compute in H2. by apply H2.
  - eapply Forall_impl; [apply split_parts_span|]. by intros p [_ ?].
  - rewrite HlenZ. intros HNw.
    assert (1 <= wpp)%Z as H1.
    { unfold wpp. apply Z.div_le_lower_bound; lia. }
    assert (join " " (text <$> parts) = join " " words) as Hjoin.
    { unfold parts. rewrite split_parts_text by lia.
      rewrite join_groups.
      + f_equal. replace (Z.to_nat N) with (S (Z.to_nat N - 1)) by lia.
        by rewrite word_groups_concat by lia.
      + apply Forall_fmap, Forall_forall. intros i Hi.
        apply elem_of_seq in Hi. apply word_group_nonempty; lia. }
    split; [exact Hjoin|]. intros Hss. rewrite Hjoin.
    by apply join_split_single_spaced.
Qed.

(** *** [_optimize_segments_for_subtitles]: the loop *)

Definition good (s : TranscriptionSegment) : Prop := (start s < end_ s)%Q.

Definition min_duration (s : TranscriptionSegment) : Q :=
  py_max 1 (inject_Z (str_len (text s)) * (5 # 100))%Q.

(** What a later store keeps of an earlier one: every object is still
    there, with its text and confidence, and its times have not decreased. *)
Definition grows (h h' : heap) : Prop :=
  ∀ b s, objs h !! b = Some s →
    ∃ s', objs h' !! b = Some s' ∧ text s' = text s ∧
          confidence s' = confidence s ∧
          (start s <= start s')%Q ∧ (end_ s <= end_ s')%Q ∧
          (good s → good s').

Lemma grows_refl h : grows h h.
Proof. intros b s Hb. exists s. split_and!; auto; lra. Qed.

Lemma grows_trans h1 h2 h3 : grows h1 h2 → grows h2 h3 → grows h1 h3.
Proof.
  intros H12 H23 b s Hb.
  destruct (H12 b s Hb) as (s2 & Hb2 & ? & ? & ? & ? & ?).
  destruct (H23 b s2 Hb2) as (s3 & Hb3 & ? & ? & ? & ? & ?).
  exists s3. split_and!; auto; try congruence; lra.
Qed.

Lemma grows_update h a s s' parts ls :
  objs h !! a = Some s →
  text s' = text s → confidence s' = confidence s →
  (start s <= start s')%Q → (end_ s <= end_ s')%Q → (good s → good s') →
  grows h (mkHeap (<[a := s']> (objs h) ++ parts) ls).
Proof.
  intros Ha ?????. intros b sb Hb. simpl.
  destruct (decide (b = a)) as [->|Hne].
  - exists s'. assert (sb = s) as -> by congruence.
    split_and!; auto.
    rewrite lookup_app_l by (rewrite length_insert; by eapply lookup_lt_Some).
    apply list_lookup_insert_eq. by eapply lookup_lt_Some.
  - exists sb. split_and!; auto; try lra.
    rewrite lookup_app_l by (rewrite length_insert; by eapply lookup_lt_Some).
    by rewrite list_lookup_insert_ne.
Qed.

Lemma split_parts_good words d N wpp conf cs idxs :
  (0 < d)%Q → (0 < N)%Z →
  Forall good (split_parts words d N wpp conf cs idxs).
Proof.
  intros Hd HN. eapply Forall_impl; [apply split_parts_span|].
  intros p [Hp _]. unfold good. rewrite Hp.
  assert (0 < d / inject_Z N)%Q; [|lra].
  apply Qlt_shift_div_l; [|lra].
  change 0%Q with (inject_Z 0). by rewrite <- Zlt_Qlt.
Qed.

Lemma optimize_body_spec o a h s cur :
  objs h !! a = Some s → lsts h !! o = Some cur →
  ∃ s' parts extra added,
    optimize_body o a h
    = Some (tt, mkHeap (<[a := s']> (objs h) ++ parts)
                  (<[o := cur ++ added]> (lsts h) ++ extra)) ∧
    text s' = text s ∧ confidence s' = confidence s ∧ start s' = start s ∧
    (end_ s <= end_ s')%Q ∧ (good s → good s') ∧
    (strip (text s) ≠ "" → (start s + min_duration s <= end_ s')%Q) ∧
    Forall good parts ∧
    (added = [] ∨ (added = [a] ∧ good s')
     ∨ added = seq (length (objs h)) (length parts)).
Proof.
  intros Ha Ho. unfold optimize_body.
  erewrite bind_Some; last by apply get_segment_Some.
  case_bool_decide as Hblank.
  { exists s, [], [], []. split_and!; auto; try lra; try done.
    unfold ret. destruct h as [ob ls]; simpl in *.
    by rewrite !app_nil_r, !list_insert_id. }
  fold (min_duration s).
  set (duration := (end_ s - start s)%Q).
  (* the minimum-duration adjustment *)
  assert (∃ s', (if Qltb duration (min_duration s)
                 then set_end a (start s + min_duration s)%Q else ret tt) h
                = Some (tt, mkHeap (<[a := s']> (objs h)) (lsts h)) ∧
                text s' = text s ∧ confidence s' = confidence s ∧
                start s' = start s ∧ (end_ s <= end_ s')%Q ∧
                (start s + min_duration s <= end_ s')%Q)
    as (s' & Hrun & Ht & Hc & Hs & He & Hmin).
  { destruct (Qltb duration (min_duration s)) eqn:E.
    - apply Qltb_lt in E. exists (with_end s (start s + min_duration s)%Q).
      split_and!; try done; [by apply set_end_Some|..];
        unfold duration in E; simpl; lra.
    - apply Qltb_ge in E. exists s. split_and!; try done;
        [|lra|unfold duration in E; lra].
      unfold ret. destruct h as [ob ls]; simpl in *.
      by rewrite list_insert_id. }
  erewrite bind_Some; last apply Hrun.
  assert (good s') as Hgood.
  { unfold good. rewrite Hs.
    pose proof (py_max_ge_l 1 (inject_Z (str_len (text s)) * (5 # 100))%Q).
    unfold min_duration in Hmin. lra. }
  set (h1 := mkHeap (<[a := s']> (objs h)) (lsts h)).
  assert (objs h1 !! a = Some s') as Ha1.
  { simpl. apply list_lookup_insert_eq. by eapply lookup_lt_Some. }
  assert (o < length (lsts h))%nat as Holt by by eapply lookup_lt_Some.
  destruct (Qltb 7 duration) eqn:E7.
  - apply Qltb_lt in E7.
    destruct (Z.le_gt_cases (len (split (text s'))) 1) as [Hw|Hw].
    + exists s', [], [[]; [a]], [a].
      split_and!; auto; try done.
      erewrite bind_Some; last apply (split_long_segment_one a 7 s' h1 Ha1 Hw).
      unfold list_extend.
      erewrite bind_Some; last first.
      { apply get_list_Some. simpl.
        rewrite lookup_app_r by lia.
        by replace (S (length (lsts h)) - length (lsts h))%nat with 1%nat by lia. }
      erewrite bind_Some; last first.
      { apply get_list_Some. simpl. by rewrite lookup_app_l. }
      erewrite set_list_Some; last by (simpl; rewrite lookup_app_l).
      simpl. by rewrite app_nil_r, insert_app_l.
    + set (D := (end_ s' - start s')%Q).
      assert (7 < D)%Q as HD by (unfold D, duration in *; rewrite Hs; lra).
      pose proof (num_parts_ge_2 D HD) as HN.
      set (N := (py_int (D / 7) + 1)%Z) in *.
      set (parts := split_parts (split (text s')) D N
                      (len (split (text s')) / N) (confidence s') (start s')
                      (seq 0 (Z.to_nat N))).
      exists s', parts, [seq (length (objs h1)) (length parts)],
        (seq (length (objs h)) (length parts)).
      split_and!; auto; try done.
      * erewrite bind_Some; last first.
        { apply (split_long_segment_many a 7 s' h1 Ha1); [done|fold D N; lia]. }
        fold D N parts. unfold list_extend.
        erewrite bind_Some; last first.
        { apply get_list_Some. simpl. by rewrite lookup_app_r, Nat.sub_diag. }
        erewrite bind_Some; last first.
        { apply get_list_Some. simpl. by rewrite lookup_app_l. }
        erewrite set_list_Some; last by (simpl; rewrite lookup_app_l).
        simpl. by rewrite length_insert, insert_app_l.
      * apply split_parts_good; [lra|lia].
  - exists s', [], [], [a]. split_and!; auto; try done.
    erewrite list_append_Some; last apply Ho.
    simpl. by rewrite !app_nil_r.
Qed.

Definition good_at (h : heap) (b : loc) : Prop :=
  ∃ s, objs h !! b = Some s ∧ good s.

Lemma good_at_grows h h' b : grows h h' → good_at h b → good_at h' b.
Proof.
  intros Hg (s & Hb & Hs). destruct (Hg b s Hb) as (s' & ? & _ & _ & _ & _ & ?).
  exists s'. auto.
Qed.

Lemma good_at_fresh ob ls parts :
  Forall good parts →
  Forall (good_at (mkHeap (ob ++ parts) ls)) (seq (length ob) (length parts)).
Proof.
  intros Hp. apply Forall_forall. intros b Hb.
  apply elem_of_seq in Hb.
  destruct (lookup_lt_is_Some_2 parts (b - length ob)) as [p Hpb]; [lia|].
  exists p. split.
  - simpl. by rewrite lookup_app_r by lia.
  - rewrite Forall_forall in Hp. apply Hp. by eapply list_elem_of_lookup_2.
Qed.

Lemma min_duration_text s s' : text s' = text s → min_duration s' = min_duration s.
Proof. unfold min_duration. by intros ->. Qed.

Lemma optimize_loop_spec o l : ∀ h cur,
  lsts h !! o = Some cur →
  Forall (λ a, a < length (objs h))%nat l →
  ∃ h' added,
    optimize_loop o l h = Some (tt, h') ∧
    lsts h' !! o = Some (cur ++ added) ∧
    (∀ r, r ≠ o → (r < length (lsts h))%nat → lsts h' !! r = lsts h !! r) ∧
    (length (lsts h) ≤ length (lsts h'))%nat ∧
    grows h h' ∧
    Forall (good_at h') added ∧
    (∀ a s, a ∈ l → objs h !! a = Some s → strip (text s) ≠ "" →
       ∃ s', objs h' !! a = Some s' ∧
             (start s + min_duration s <= end_ s')%Q) ∧
    (NoDup l →
       NoDup added ∧ Forall (λ b, b ∈ l ∨ (length (objs h) ≤ b)%nat) added).
Proof.
  induction l as [|a l IH]; intros h cur Ho Hval.
  { exists h, []. split_and!; auto using grows_refl.
    - by rewrite app_nil_r.
    - intros a s Ha. by apply elem_of_nil in Ha. }
  apply Forall_cons in Hval as [Ha Hval].
  apply lookup_lt_is_Some in Ha as [s Ha].
  destruct (optimize_body_spec o a h s cur Ha Ho)
    as (s1 & parts & extra & added1 & Hrun & Ht & Hc & Hs & He & Hg & Hmin
        & Hparts & Hadded).
  set (h1 := mkHeap (<[a := s1]> (objs h) ++ parts)
               (<[o := cur ++ added1]> (lsts h) ++ extra)) in *.
  assert (o < length (lsts h))%nat as Holt by by eapply lookup_lt_Some.
  assert (a < length (objs h))%nat as Halt by by eapply lookup_lt_Some.
  assert (grows h h1) as Hg1.
  { apply grows_update with s; auto; try lra. rewrite Hs. lra. }
  assert (objs h1 !! a = Some s1) as Ha1.
  { simpl. rewrite lookup_app_l by by rewrite length_insert.
    by apply list_lookup_insert_eq. }
  assert (length (objs h1) = length (objs h) + length parts)%nat as Hlen1
    by (simpl; by rewrite length_app, length_insert).
  destruct (IH h1 (cur ++ added1)) as (h' & added2 & Hrun2 & Ho2 & Hfr2 & Hll2
      & Hg2 & Hgood2 & Hmin2 & Hnd2).
  { simpl. rewrite lookup_app_l by by rewrite length_insert.
    by apply list_lookup_insert_eq. }
  { eapply Forall_impl; [apply Hval|]. intros b Hb.
    change (b < length (objs h1))%nat. simpl in Hb. lia. }
  assert (length (lsts h) ≤ length (lsts h1))%nat as Hll1
    by (simpl; rewrite length_app, length_insert; lia).
  assert (Forall (good_at h1) added1) as Hgood1.
  { destruct Hadded as [->|[[-> Hgs]| ->]].
    - constructor.
    - constructor; [by exists s1|constructor].
    - replace (length (objs h)) with (length (<[a := s1]> (objs h)))
        by apply length_insert.
      by apply good_at_fresh. }
  exists h', (added1 ++ added2). split_and!.
  - simpl. erewrite bind_Some; last apply Hrun. apply Hrun2.
  - by rewrite app_assoc.
  - intros r Hr Hrl. rewrite Hfr2 by lia. simpl.
    rewrite lookup_app_l by by rewrite length_insert.
    by apply list_lookup_insert_ne.
  - lia.
  - by apply grows_trans with h1.
  - apply Forall_app. split; [|done].
    eapply Forall_impl; [apply Hgood1|]. intros b. by apply good_at_grows.
  - intros b sb Hb Hsb Hnb.
    destruct (decide (b ∈ l)) as [Hin|Hnin].
    + destruct (Hg1 b sb Hsb) as (sb1 & Hsb1 & Htb & _ & Hst & _ & _).
      destruct (Hmin2 b sb1 Hin Hsb1) as (s' & Hs' & Hle); [by rewrite Htb|].
      exists s'. split; [done|].
      rewrite (min_duration_text _ _ Htb) in Hle. lra.
    + apply elem_of_cons in Hb as [->|?]; [|done].
      assert (sb = s) as -> by congruence.
      destruct (Hg2 a s1 Ha1) as (s' & Hs' & _ & _ & _ & Hle & _).
      exists s'. split; [done|]. specialize (Hmin Hnb). lra.
  - intros Hnd. apply NoDup_cons in Hnd as [Hal Hnd].
    destruct (Hnd2 Hnd) as [Hnd2' Hin2].
    assert (Forall (λ b, b = a ∨ (length (objs h) ≤ b < length (objs h1))%nat)
              added1 ∧ NoDup added1) as [Hin1 Hnd1].
    { destruct Hadded as [->|[[-> _]| ->]].
      - split; constructor.
      - split; [constructor; [by left|constructor]|apply NoDup_singleton].
      - split; [|apply NoDup_seq].
        apply Forall_forall. intros b Hb. apply elem_of_seq in Hb. lia. }
    split.
    + apply NoDup_app. split_and!; [done| |done].
      intros b Hb1 Hb2.
      rewrite Forall_forall in Hin1, Hin2, Hval.
      destruct (Hin2 b Hb2) as [Hbl|?], (Hin1 b Hb1) as [Hba|?];
        try lia.
      * by subst b.
      * specialize (Hval b Hbl). simpl in Hval. lia.
    + apply Forall_app. split.
      * eapply Forall_impl; [apply Hin1|]. simpl.
        intros b [->|?]; [left; apply elem_of_cons; by left|right; lia].
      * eapply Forall_impl; [apply Hin2|].
        intros b [?|Hb]; [left; apply elem_of_cons; by right|right].
        change (length (objs h1) ≤ b)%nat in Hb. lia.
Qed.

(** *** [_remove_overlaps] *)

Lemma insert_by_perm k a l : insert_by k a l ≡ₚ a :: l.
Proof.
  induction l as [|b l IH]; simpl; [done|].
  destruct (Qltb (k b) (k a)); [|done].
  rewrite IH. apply Permutation_swap.
Qed.

Lemma sort_by_perm k l : sort_by k l ≡ₚ l.
Proof.
  induction l as [|a l IH]; simpl; [done|].
  by rewrite insert_by_perm, IH.
Qed.

Lemma deref_valid h l :
  Forall (λ a, a < length (objs h))%nat l → is_Some (deref h l).
Proof.
  intros Hl. apply mapM_is_Some. eapply Forall_impl; [apply Hl|].
  intros a Ha. by apply lookup_lt_is_Some.
Qed.

(** Consecutive segments of the list [c] do not overlap in the store [h]. *)
Definition chain_in (h : heap) (c : list loc) : Prop :=
  ∀ i a b sa sb,
    c !! i = Some a → c !! S i = Some b →
    objs h !! a = Some sa → objs h !! b = Some sb →
    (end_ sa <= start sb)%Q.

Lemma overlaps_body_spec cl a h c sa :
  lsts h !! cl = Some c → objs h !! a = Some sa →
  (∀ b, last c = Some b → is_Some (objs h !! b)) →
  ∃ s1,
    overlaps_body cl a h
    = Some (tt, mkHeap (<[a := s1]> (objs h)) (<[cl := c ++ [a]]> (lsts h))) ∧
    text s1 = text sa ∧ confidence s1 = confidence sa ∧
    (start sa <= start s1)%Q ∧ (end_ sa <= end_ s1)%Q ∧
    (good sa → good s1) ∧
    (∀ b sb, last c = Some b → b ≠ a → objs h !! b = Some sb →
       (end_ sb <= start s1)%Q).
Proof.
  intros Hc Ha Hlast. unfold overlaps_body.
  erewrite bind_Some; last by apply get_list_Some.
  destruct (last c) as [b|] eqn:Eb.
  - destruct (Hlast b eq_refl) as [sb Hb].
    erewrite bind_Some; last by apply get_segment_Some.
    erewrite bind_Some; last by apply get_segment_Some.
    assert (a < length (objs h))%nat as Halt by by eapply lookup_lt_Some.
    destruct (Qltb (start sa) (end_ sb)) eqn:E.
    + apply Qltb_lt in E.
      set (s' := with_start sa (end_ sb + (1 # 10))%Q).
      set (h1 := mkHeap (<[a := s']> (objs h)) (lsts h)).
      assert (objs h1 !! a = Some s') as Ha1
        by (simpl; by apply list_lookup_insert_eq).
      destruct (Qleb (end_ s') (start s')) eqn:E2.
      * pose proof E2 as E2b. apply Qleb_le in E2.
        exists (with_end s' (start s' + 1)%Q).
        split_and!; try done; simpl in E2; try (unfold good; simpl; lra).
        -- erewrite bind_Some; last first.
           { erewrite bind_Some; last by apply set_start_Some.
             erewrite bind_Some; last by apply get_segment_Some.
             rewrite E2b. by apply set_end_Some. }
           erewrite list_append_Some; last by simpl.
           simpl. by rewrite list_insert_insert_eq.
        -- intros b' sb' [= <-] _ Hb'. simplify_eq. simpl. lra.
      * pose proof E2 as E2b. apply Qleb_gt in E2. exists s'.
        split_and!; try done; simpl in E2; try (unfold good; simpl; lra).
        -- erewrite bind_Some; last first.
           { erewrite bind_Some; last by apply set_start_Some.
             erewrite bind_Some; last by apply get_segment_Some.
             by rewrite E2b. }
           by erewrite list_append_Some; last by simpl.
        -- intros b' sb' [= <-] _ Hb'. simplify_eq. simpl. lra.
    + apply Qltb_ge in E. exists sa.
      split_and!; try done; try lra.
      * erewrite bind_Some; last done.
        erewrite list_append_Some; last done.
        by rewrite (list_insert_id (objs h)).
      * intros b' sb' [= <-] _ Hb'. by simplify_eq.
  - exists sa. split_and!; try done; try lra.
    erewrite list_append_Some; last done.
    by rewrite (list_insert_id (objs h)).
Qed.

Lemma lookup_insert_other (ob : list TranscriptionSegment) a s1 b :
  b ≠ a → <[a := s1]> ob !! b = ob !! b.
Proof. intros. by apply list_lookup_insert_ne. Qed.

Lemma overlaps_loop_spec cl l : ∀ h c,
  lsts h !! cl = Some c →
  Forall (λ a, a < length (objs h))%nat (c ++ l) →
  ∃ h',
    overlaps_loop cl l h = Some (tt, h') ∧
    lsts h' = <[cl := c ++ l]> (lsts h) ∧
    length (objs h') = length (objs h) ∧
    grows h h' ∧
    (NoDup (c ++ l) → Forall (good_at h) (c ++ l) → chain_in h c →
     Forall (good_at h') (c ++ l) ∧ chain_in h' (c ++ l)).
Proof.
  induction l as [|a l IH]; intros h c Hc Hval.
  { exists h. rewrite app_nil_r. split_and!; auto using grows_refl.
    by rewrite list_insert_id. }
  assert (a < length (objs h))%nat as Halt.
  { rewrite Forall_app, Forall_cons in Hval. tauto. }
  destruct (lookup_lt_is_Some_2 _ _ Halt) as [sa Ha].
  destruct (overlaps_body_spec cl a h c sa Hc Ha)
    as (s1 & Hrun & Ht & Hcf & Hst & Hen & Hgd & Hlast).
  { intros b Hb. apply lookup_lt_is_Some.
    rewrite Forall_app, Forall_forall in Hval. apply Hval.
    rewrite last_Some in Hb. destruct Hb as [c' ->].
    apply elem_of_app. right. by apply list_elem_of_singleton. }
  set (h1 := mkHeap (<[a := s1]> (objs h)) (<[cl := c ++ [a]]> (lsts h))) in *.
  assert (grows h h1) as Hg1.
  { pose proof (grows_update h a sa s1 [] (lsts h1) Ha Ht Hcf Hst Hen Hgd) as G.
    by rewrite app_nil_r in G. }
  destruct (IH h1 (c ++ [a])) as (h' & Hrun2 & Hl2 & Hlen2 & Hg2 & Hinv2).
  { simpl. apply list_lookup_insert_eq. by eapply lookup_lt_Some. }
  { rewrite <- app_assoc. simpl. eapply Forall_impl; [apply Hval|].
    intros b Hb. simpl in *. by rewrite length_insert. }
  exists h'. split_and!.
  - simpl. erewrite bind_Some; last apply Hrun. apply Hrun2.
  - rewrite Hl2. simpl. by rewrite list_insert_insert_eq, <- app_assoc.
  - rewrite Hlen2. simpl. by rewrite length_insert.
  - by apply grows_trans with h1.
  - intros Hnd Hgood Hchain.
    replace (c ++ a :: l) with ((c ++ [a]) ++ l) in *
      by by rewrite <- app_assoc.
    assert (a ∉ c) as Hac.
    { rewrite <- app_assoc in Hnd. apply NoDup_app in Hnd as (_ & Hnd & _).
      intros Hin. apply (Hnd a Hin). apply elem_of_cons. by left. }
    apply Hinv2; [done| |].
    + apply Forall_forall. intros b Hb.
      rewrite Forall_forall in Hgood. destruct (Hgood b Hb) as (sb & Hsb & Hgb).
      destruct (decide (b = a)) as [->|Hne].
      * exists s1. split; [by apply list_lookup_insert_eq|].
        apply Hgd. by simplify_eq.
      * exists sb. split; [|done]. simpl. by rewrite lookup_insert_other.
    + intros i x y sx sy Hx Hy Hsx Hsy.
      assert (x ≠ a) as Hxa.
      { intros ->. apply lookup_lt_Some in Hy as Hylt.
        rewrite length_app in Hylt. simpl in Hylt.
        rewrite lookup_app_l in Hx by lia.
        apply Hac. by eapply list_elem_of_lookup_2. }
      simpl in Hsx. rewrite lookup_insert_other in Hsx by done.
      destruct (decide (S i < length c)%nat) as [Hlt|Hge].
      * rewrite lookup_app_l in Hx by lia. rewrite lookup_app_l in Hy by lia.
        assert (y ≠ a) as Hya.
        { intros ->. apply Hac. by eapply list_elem_of_lookup_2. }
        simpl in Hsy. rewrite lookup_insert_other in Hsy by done.
        exact (Hchain i x y sx sy Hx Hy Hsx Hsy).
      * apply lookup_lt_Some in Hy as Hylt.
        rewrite length_app in Hylt. simpl in Hylt.
        assert (S i = length c) as Hi by lia.
        rewrite lookup_app_l in Hx by lia.
        rewrite lookup_app_r in Hy by lia.
        replace (S i - length c)%nat with 0%nat in Hy by lia.
        simpl in Hy. injection Hy as <-.
        simpl in Hsy. rewrite list_lookup_insert_eq in Hsy by done.
        injection Hsy as <-.
        apply (Hlast x sx); [|done|done].
        rewrite last_lookup. rewrite <- Hx. f_equal. lia.
Qed.

Lemma remove_overlaps_spec r h l :
  lsts h !! r = Some l →
  Forall (λ a, a < length (objs h))%nat l →
  ∃ r' h' out,
    _remove_overlaps r h = Some (r', h') ∧
    lsts h' !! r' = Some out ∧
    (r' = r ∨ length (lsts h) ≤ r')%nat ∧
    (∀ r0, r0 ≠ r → (r0 < length (lsts h))%nat → lsts h' !! r0 = lsts h !! r0) ∧
    grows h h' ∧
    (NoDup l → Forall (good_at h) l →
     Forall (good_at h') out ∧ chain_in h' out).
Proof.
  intros Hr Hval. unfold _remove_overlaps.
  erewrite bind_Some; last by apply get_list_Some.
  destruct l as [|a0 l0].
  { exists r, h, []. split_and!; auto using grows_refl.
    intros _ _. split; [constructor|]. intros i a b sa sb Hi.
    by rewrite lookup_nil in Hi. }
  set (l := a0 :: l0) in *.
  set (sorted := sort_by (key_start h) l).
  assert (r < length (lsts h))%nat as Hrlt by by eapply lookup_lt_Some.
  set (h1 := mkHeap (objs h) (<[r := sorted]> (lsts h))).
  set (h2 := mkHeap (objs h) (<[r := sorted]> (lsts h) ++ [[]])).
  assert (sorted ≡ₚ l) as Hperm by apply sort_by_perm.
  destruct (overlaps_loop_spec (length (lsts h)) sorted h2 [])
    as (h' & Hrun & Hl' & Hlen' & Hg & Hinv).
  { simpl. rewrite lookup_app_r by by rewrite length_insert.
    by rewrite length_insert, Nat.sub_diag. }
  { simpl. by rewrite Hperm. }
  exists (length (lsts h)), h', sorted. split_and!.
  - erewrite bind_Some; last first.
    { unfold sort_by_start. erewrite bind_Some; last by apply get_list_Some.
      destruct (deref_valid h l Hval) as [vs ->].
      by apply set_list_Some with l. }
    fold sorted h1.
    erewrite bind_Some; last first.
    { apply get_list_Some. simpl. by apply list_lookup_insert_eq. }
    unfold bind at 1. unfold new_list. simpl. rewrite length_insert.
    fold h2. erewrite bind_Some; last apply Hrun. done.
  - rewrite Hl'. simpl.
    replace (length (lsts h)) with (length (<[r:=sorted]> (lsts h)) + 0)%nat
      by (rewrite length_insert; lia).
    rewrite insert_app_r. simpl. rewrite lookup_app_r by lia.
    by rewrite Nat.add_0_r, Nat.sub_diag.
  - by right.
  - intros r0 Hne Hlt. rewrite Hl'. simpl.
    rewrite list_lookup_insert_ne by lia.
    rewrite lookup_app_l by by rewrite length_insert.
    by apply list_lookup_insert_ne.
  - apply (grows_trans h h2 h'); [|done]. intros b s Hb. exists s.
    split_and!; auto; lra.
  - intros Hnd Hgood. apply Hinv.
    + simpl. by rewrite Hperm.
    + simpl. by rewrite Hperm.
    + intros i a b sa sb Hi. by rewrite lookup_nil in Hi.
Qed.

(** *** [_optimize_segments_for_subtitles] *)

Lemma optimize_spec r h l :
  lsts h !! r = Some l →
  Forall (λ a, a < length (objs h))%nat l →
  ∃ r' h' out,
    _optimize_segments_for_subtitles r h = Some (r', h') ∧
    lsts h' !! r' = Some out ∧
    r' ≠ r ∧
    lsts h' !! r = Some l ∧
    grows h h' ∧
    (∀ a s, a ∈ l → objs h !! a = Some s → strip (text s) ≠ "" →
       ∃ s', objs h' !! a = Some s' ∧
             (start s + min_duration s <= end_ s')%Q) ∧
    (NoDup l → Forall (good_at h') out ∧ chain_in h' out).
Proof.
  intros Hr Hval. unfold _optimize_segments_for_subtitles.
  assert (r < length (lsts h))%nat as Hrlt by by eapply lookup_lt_Some.
  set (o := length (lsts h)).
  set (h0 := mkHeap (objs h) (lsts h ++ [[]])).
  destruct (optimize_loop_spec o l h0 [])
    as (h1 & added & Hrun1 & Ho1 & Hfr1 & Hll1 & Hg1 & Hgood1 & Hmin1 & Hnd1).
  { simpl. by rewrite lookup_app_r, Nat.sub_diag. }
  { done. }
  simpl in Ho1.
  assert (Forall (λ a, a < length (objs h1))%nat added) as Hval1.
  { eapply Forall_impl; [apply Hgood1|]. intros b (s & Hb & _).
    by eapply lookup_lt_Some. }
  destruct (remove_overlaps_spec o h1 added Ho1 Hval1)
    as (r' & h' & out & Hrun2 & Hout & Hr' & Hfr2 & Hg2 & Hinv2).
  assert (length (lsts h0) = S o) as Hl0
    by (simpl; rewrite length_app; simpl; lia).
  exists r', h', out. split_and!.
  - unfold bind at 1. unfold new_list. fold o h0.
    erewrite bind_Some; last first.
    { apply get_list_Some. simpl. by rewrite lookup_app_l. }
    erewrite bind_Some; last apply Hrun1. apply Hrun2.
  - done.
  - destruct Hr' as [->|?]; lia.
  - rewrite Hfr2 by lia. rewrite Hfr1 by lia. simpl. by rewrite lookup_app_l.
  - apply grows_trans with h1; [|done]. intros b s Hb.
    destruct (Hg1 b s Hb) as (s' & ?). by exists s'.
  - intros a s Ha Hs Hnb.
    destruct (Hmin1 a s Ha Hs Hnb) as (s1 & Hs1 & Hle).
    destruct (Hg2 a s1 Hs1) as (s' & Hs' & _ & _ & _ & Hle' & _).
    exists s'. split; [done|lra].
  - intros Hnd. destruct (Hnd1 Hnd) as [Hnd' _]. by apply Hinv2.
Qed.

(** The segments [generate_srt_content] reads: those of the list
    [_optimize_segments_for_subtitles] returns, after the call. *)
Definition optimized_segments (r : loc) (h : heap)
  : option (list TranscriptionSegment * heap) :=
  match _optimize_segments_for_subtitles r h with
  | Some (r', h') =>
      match lsts h' !! r' with
      | Some l => (λ vs, (vs, h')) <$> deref h' l
      | None => None
      end
  | None => None
  end.

(** A [TranscriptionResult.segments] list as the callers build it: one new
    object per segment. *)
Definition fresh_result (segs : list TranscriptionSegment) : heap :=
  mkHeap segs [seq 0 (length segs)].

Definition normalize (segs : list TranscriptionSegment)
  : option (list TranscriptionSegment) :=
  fst <$> optimized_segments 0 (fresh_result segs).

Lemma chain_in_deref h c vs :
  deref h c = Some vs → chain_in h c →
  ∀ i s t, vs !! i = Some s → vs !! S i = Some t → (end_ s <= start t)%Q.
Proof.
  intros Hd Hc i s t Hs Ht. apply deref_Some in Hd.
  destruct (Forall2_lookup_r _ _ _ _ _ Hd Hs) as (a & Ha & Has).
  destruct (Forall2_lookup_r _ _ _ _ _ Hd Ht) as (b & Hb & Hbt).
  exact (Hc i a b s t Ha Hb Has Hbt).
Qed.

Lemma good_at_deref h c :
  Forall (good_at h) c → ∃ vs, deref h c = Some vs ∧ Forall good vs.
Proof.
  induction 1 as [|a c (s & Ha & Hs) _ (vs & Hvs & Hg)].
  - by exists [].
  - exists (s :: vs). split; [|by constructor].
    apply deref_Some. constructor; [done|by apply deref_Some].
Qed.

(** C1: the normalised list.  For every list of segments, normalisation
    returns a list in which every segment ends after it starts and each
    segment starts no earlier than its predecessor ends. *)
Theorem normalize_non_overlapping (segs : list TranscriptionSegment) :
  ∃ out,
    normalize segs = Some out ∧
    Forall (λ s, (start s < end_ s)%Q) out ∧
    ∀ i s t, out !! i = Some s → out !! S i = Some t →
      (end_ s <= start t)%Q.
Proof.
  destruct (optimize_spec 0 (fresh_result segs) (seq 0 (length segs)))
    as (r' & h' & out & Hrun & Hout & _ & _ & _ & _ & Hinv); [done| |].
  { apply Forall_forall. intros a Ha. apply elem_of_seq in Ha. simpl. lia. }
  destruct (Hinv (NoDup_seq _ _)) as [Hgood Hchain].
  destruct (good_at_deref h' out Hgood) as (vs & Hvs & Hg).
  exists vs. split_and!.
  - unfold normalize, optimized_segments. rewrite Hrun, Hout, Hvs. done.
  - done.
  - by apply (chain_in_deref h' out).
Qed.


(** C4, the claim as stated fails: the parts' texts joined by single spaces
    are not always the original text.  With fewer words than parts the
    leading parts are empty; and runs of white space are not kept. *)
Lemma split_texts_do_not_rejoin :
  (∃ r h' locs parts,
     _split_long_segment 0 7 (fresh_result [mkSegment 0 15 "hello world" None])
     = Some (r, h') ∧
     lsts h' !! r = Some locs ∧ deref h' locs = Some parts ∧
     text <$> parts = [""; ""; "hello world"] ∧
     join " " (text <$> parts) = "  hello world" ∧
     join " " (text <$> parts) ≠ "hello world") ∧
  (∃ r h' locs parts,
     _split_long_segment 0 7 (fresh_result [mkSegment 0 10 "hello  world" None])
     = Some (r, h') ∧
     lsts h' !! r = Some locs ∧ deref h' locs = Some parts ∧
     text <$> parts = ["hello"; "world"] ∧
     join " " (text <$> parts) ≠ "hello  world").
Proof.
  split.
  - eexists _, _, _, _. split; [vm_compute; reflexivity|].
    split; [reflexivity|]. split; [reflexivity|].
    split_and!; [reflexivity|reflexivity|discriminate].
  - eexists _, _, _, _. split; [vm_compute; reflexivity|].
    split; [reflexivity|]. split; [reflexivity|].
    split_and!; [reflexivity|discriminate].
Qed.

Definition long_text : string :=
  "this is a sentence that was spoken very fast and that is long enough to need more than seven seconds on the screen for a viewer to read it in full".

(** C3, the code at the failing input: a segment of 2 seconds whose text has
    146 characters gets the minimum duration 7.3 s, which exceeds 7.0 s,
    and has 31 words, yet it is returned whole. *)
Theorem long_text_segment_not_split :
  ∃ s,
    normalize [mkSegment 0 2 long_text (Some 1%Q)] = Some [s] ∧
    text s = long_text ∧
    (start s == 0)%Q ∧ (end_ s == 73 # 10)%Q ∧
    (7 < end_ s - start s)%Q ∧
    len (split (text s)) = 31%Z ∧
    str_len long_text = 146%Z.
Proof.
  eexists. split; [vm_compute; reflexivity|].
  split_and!; try reflexivity.
Qed.

(** ** services/transcription_service.py *)

(** [s.replace(' ', '')] *)
Definition remove_spaces (s : string) : string :=
  of_chars (filter (λ c, c ≠ " "%char) (chars s)).

(** [len(set(s))] *)
Definition distinct_chars (s : string) : Z :=
  Z.of_nat (size (list_to_set (C := gset ascii) (chars s))).

Definition _is_likely_hallucination (text : string) : bool :=
  if bool_decide (text = "") || (str_len (strip text) <? 2)%Z then false
  else
    let text := lower (strip text) in
    ((str_len text <=? 2)%Z && negb (isalnum text))
    || ((20 <? str_len text)%Z && (distinct_chars (remove_spaces text) =? 1)%Z).

(** A segment of the engine's response: a dictionary whose keys may be
    absent; the numeric fields hold numbers when present. *)
Record RawSegment := mkRaw {
  raw_start : option Q;
  raw_end : option Q;
  raw_text : option string;
  raw_avg_logprob : option Q;
  raw_confidence : option Q
}.

(** The body of the loop over [result['segments']] in
    [_convert_groq_result]: [None] when the segment is skipped. *)
Definition convert_segment (segment : RawSegment) : option TranscriptionSegment :=
  let start_time := default 0%Q (raw_start segment) in
  let end_time := default 0%Q (raw_end segment) in
  let text := strip (default "" (raw_text segment)) in
  if bool_decide (text = "") then None
  else if _is_likely_hallucination text then None
  else
    let confidence :=
      match raw_avg_logprob segment with
      | Some logprob => py_max (1 # 10) (py_min 1 ((logprob + 3) / 3))%Q
      | None =>
          match raw_confidence segment with
          | Some c => c
          | None => (8 # 10)%Q
          end
      end in
    let confidence := py_max (1 # 10) (py_min 1 confidence) in
    let end_time :=
      if Qleb end_time start_time
      then
        let words := len (split text) in
        let estimated_duration := py_max 1 (inject_Z words / (25 # 10))%Q in
        (start_time + estimated_duration)%Q
      else end_time in
    Some (mkSegment start_time end_time text (Some confidence)).

Fixpoint convert_loop (segments : list TranscriptionSegment)
    (raws : list RawSegment) : list TranscriptionSegment :=
  match raws with
  | [] => segments
  | segment :: raws' =>
      match convert_segment segment with
      | None => convert_loop segments raws'
      | Some s => convert_loop (segments ++ [s]) raws'
      end
  end.

(** The segmented branch of [_convert_groq_result]. *)
Definition convert_groq_segments (raws : list RawSegment)
  : list TranscriptionSegment :=
  convert_loop [] raws.

Lemma chars_of_chars l : chars (of_chars l) = l.
Proof. induction l; simpl; congruence. Qed.

Lemma str_len_lower s : str_len (lower s) = str_len s.
Proof. unfold str_len, lower, len. by rewrite chars_of_chars, length_map. Qed.

Lemma distinct_chars_1 s :
  distinct_chars s = 1%Z ↔
  ∃ c, c ∈ chars s ∧ ∀ d, d ∈ chars s → d = c.
Proof.
  unfold distinct_chars. split.
  - intros H. assert (size (list_to_set (C := gset ascii) (chars s)) = 1%nat)
      as H1 by lia.
    destruct (size_1_elem_of _ H1) as [c Hc]. exists c. split.
    + apply (elem_of_list_to_set (C := gset ascii)). rewrite Hc.
      by apply elem_of_singleton.
    + intros d Hd. apply (elem_of_list_to_set (C := gset ascii)) in Hd.
      rewrite Hc in Hd. by apply elem_of_singleton in Hd.
  - intros (c & Hc & Hall).
    assert (list_to_set (C := gset ascii) (chars s) = {[c]}) as ->.
    { apply set_eq. intros d. rewrite elem_of_list_to_set, elem_of_singleton.
      split; [apply Hall|by intros ->]. }
    by rewrite size_singleton.
Qed.

(** The heuristic as the code computes it.  With [t] the stripped,
    lower-cased text, [_is_likely_hallucination] answers true exactly when
    [t] has two characters and is not alphanumeric, or [t] has more than
    20 characters and all its characters other than the space are one and
    the same character. *)
Lemma is_likely_hallucination_iff (text : string) :
  let t := lower (strip text) in
  _is_likely_hallucination text = true ↔
  (str_len t = 2%Z ∧ isalnum t = false) ∨
  ((20 < str_len t)%Z ∧
   ∃ c, c ≠ " "%char ∧ c ∈ chars t ∧
        ∀ d, d ∈ chars t → d ≠ " "%char → d = c).
Proof.
  intros t. unfold _is_likely_hallucination. fold t.
  assert (str_len t = str_len (strip text)) as Hlen by apply str_len_lower.
  assert (distinct_chars (remove_spaces t) = 1%Z ↔
          ∃ c, c ≠ " "%char ∧ c ∈ chars t ∧
               ∀ d, d ∈ chars t → d ≠ " "%char → d = c) as Hset.
  { rewrite distinct_chars_1. unfold remove_spaces. rewrite chars_of_chars.
    split.
    - intros (c & Hc & Hall). apply list_elem_of_filter in Hc as [Hc1 Hc2].
      exists c. split_and!; try done. intros d Hd Hds. apply Hall.
      by apply list_elem_of_filter.
    - intros (c & Hc1 & Hc2 & Hall). exists c. split.
      + by apply list_elem_of_filter.
      + intros d Hd. apply list_elem_of_filter in Hd as [? ?]. by apply Hall. }
  destruct (bool_decide (text = "")) eqn:Hempty.
  { apply bool_decide_eq_true in Hempty. subst text. simpl.
    split; [done|]. intros [[H _]|[H _]]; vm_compute in H; congruence. }
  simpl. destruct (Z.ltb_spec (str_len (strip text)) 2) as [Hlt|Hge].
  { split; [done|]. intros [[H _]|[H _]]; lia. }
  rewrite orb_true_iff, !andb_true_iff, negb_true_iff, Z.leb_le, Z.ltb_lt,
    Z.eqb_eq, Hset.
  split; (intros [[H1 H2]|[H1 H2]]; [left|right]; split; try done; lia).
Qed.

(** C5, the claim as stated fails: a long run that alternates [A] and [a]
    has more than 20 characters that are not all identical, yet its
    segment is dropped, because the characters are compared in lower
    case; and a text of one non-alphanumeric character has length at most
    2 and is not alphanumeric, yet its segment is kept, because the guard
    on the length comes before the indicators. *)
Lemma hallucination_filter_differs :
  (20 < str_len "AaAaAaAaAaAaAaAaAaAaAa")%Z ∧
  "A"%char ∈ chars "AaAaAaAaAaAaAaAaAaAaAa" ∧
  "a"%char ∈ chars "AaAaAaAaAaAaAaAaAaAaAa" ∧
  "A"%char ≠ "a"%char ∧
  _is_likely_hallucination "AaAaAaAaAaAaAaAaAaAaAa" = true ∧
  convert_segment
    (mkRaw (Some 0%Q) (Some 1%Q) (Some "AaAaAaAaAaAaAaAaAaAaAa") None None)
  = None ∧
  (str_len "?" <= 2)%Z ∧ isalnum "?" = false ∧
  _is_likely_hallucination "?" = false ∧
  convert_segment (mkRaw (Some 0%Q) (Some 1%Q) (Some "?") None None)
  = Some (mkSegment 0 1 "?" (Some (8 # 10)%Q)).
Proof.
  split_and!; try (vm_compute; done).
  - apply list_elem_of_lookup. by exists 0%nat.
  - apply list_elem_of_lookup. by exists 1%nat.
Qed.

Definition clamp (x : Q) : Q := py_max (1 # 10) (py_min 1 x).

Lemma clamp_idem x : clamp (clamp x) = clamp x.
Proof.
  unfold clamp, py_max, py_min.
  destruct (Qltb x 1) eqn:E1.
  - destruct (Qltb (1 # 10) x) eqn:E2.
    + by rewrite E1, E2.
    + done.
  - done.
Qed.

Lemma convert_loop_omap acc raws :
  convert_loop acc raws = acc ++ omap convert_segment raws.
Proof.
  revert acc. induction raws as [|r raws IH]; intros acc; simpl.
  - by rewrite app_nil_r.
  - destruct (convert_segment r); [|apply IH].
    by rewrite IH, <- app_assoc.
Qed.

(** C6: confidence and timestamp repair.  The converted segments are those
    of the raw segments that are kept, in order; a kept segment's confidence
    is the clamped [(logprob + 3) / 3] when a log-probability is supplied,
    else the clamped supplied confidence, else 0.8; and when [end <= start]
    its end is [start + max(1, words / 2.5)], else it is unchanged. *)
Theorem convert_segment_confidence_and_repair :
  (∀ raws, convert_groq_segments raws = omap convert_segment raws) ∧
  ∀ raw s, convert_segment raw = Some s →
    let start_time := default 0%Q (raw_start raw) in
    let end_time := default 0%Q (raw_end raw) in
    text s = strip (default "" (raw_text raw)) ∧
    start s = start_time ∧
    confidence s = Some
      match raw_avg_logprob raw, raw_confidence raw with
      | Some logprob, _ => clamp ((logprob + 3) / 3)%Q
      | None, Some c => clamp c
      | None, None => (8 # 10)%Q
      end ∧
    ((end_time <= start_time)%Q →
     end_ s = (start_time +
               py_max 1 (inject_Z (len (split (text s))) / (25 # 10)))%Q) ∧
    ((start_time < end_time)%Q → end_ s = end_time).
Proof.
  split.
  { intros raws. apply (convert_loop_omap [] raws). }
  intros raw s. unfold convert_segment.
  case_bool_decide; [done|].
  destruct (_is_likely_hallucination _); [done|].
  intros [= <-]. simpl. split_and!; try done.
  - f_equal. destruct (raw_avg_logprob raw); [apply clamp_idem|].
    by destruct (raw_confidence raw).
  - intros Hle. apply Qleb_le in Hle. by rewrite Hle.
  - intros Hlt. apply Qleb_gt in Hlt. by rewrite Hlt.
Qed.

Lemma convert_segment_confidence_and_repair_witness :
  let raw := mkRaw (Some 1%Q) (Some 1%Q) (Some " hello big world ")
               (Some (-3 # 10)%Q) None in
  let s := mkSegment 1 (55 # 25) "hello big world" (Some (27 # 30)%Q) in
  convert_segment raw = Some s ∧
  text s = "hello big world" ∧
  start s = 1%Q ∧
  confidence s = Some (clamp (((-3 # 10) + 3) / 3))%Q ∧
  ((1 <= 1)%Q →
   end_ s = (1 + py_max 1 (inject_Z (len (split (text s))) / (25 # 10)))%Q) ∧
  ((1 < 1)%Q → end_ s = 1%Q).
Proof.
  intros raw s.
  assert (convert_segment raw = Some s) as H by (vm_compute; reflexivity).
  split; [exact H|].
  exact (proj2 convert_segment_confidence_and_repair raw s H).
Defined.

(** ** Exceptions *)

Inductive exn :=
  | Exception (msg : string)
  | ValueError (msg : string)
  | KeyError (key : string)
  | HTTPException (status_code : Z) (detail : string).

(** [str(e)]; for [HTTPException] as Starlette defines it. *)
Definition str_exn (e : exn) : string :=
  match e with
  | Exception msg => msg
  | ValueError msg => msg
  | KeyError key => "'" +:+ key +:+ "'"
  | HTTPException status_code detail => pretty status_code +:+ ": " +:+ detail
  end.

(** The outcome of a call: [inl e] when it raises [e]. *)
Definition result (A : Type) : Type := exn + A.

(** ** utils/config.py *)

Definition supported_languages : gmap string string :=
  list_to_map
    [("en", "English"); ("es", "Spanish"); ("fr", "French"); ("de", "German");
     ("it", "Italian"); ("pt", "Portuguese"); ("ru", "Russian");
     ("ja", "Japanese"); ("ko", "Korean"); ("zh", "Chinese");
     ("ar", "Arabic"); ("hi", "Hindi"); ("th", "Thai"); ("vi", "Vietnamese");
     ("nl", "Dutch"); ("sv", "Swedish"); ("no", "Norwegian");
     ("da", "Danish"); ("fi", "Finnish"); ("pl", "Polish");
     ("tr", "Turkish"); ("cs", "Czech"); ("hu", "Hungarian");
     ("ro", "Romanian"); ("bg", "Bulgarian"); ("hr", "Croatian");
     ("sk", "Slovak"); ("sl", "Slovenian"); ("et", "Estonian");
     ("lv", "Latvian"); ("lt", "Lithuanian"); ("mt", "Maltese");
     ("ga", "Irish"); ("cy", "Welsh"); ("eu", "Basque"); ("ca", "Catalan");
     ("gl", "Galician"); ("is", "Icelandic"); ("mk", "Macedonian");
     ("sq", "Albanian"); ("be", "Belarusian"); ("uk", "Ukrainian");
     ("he", "Hebrew"); ("fa", "Persian"); ("ur", "Urdu"); ("bn", "Bengali");
     ("ta", "Tamil"); ("te", "Telugu"); ("ml", "Malayalam");
     ("kn", "Kannada"); ("gu", "Gujarati"); ("mr", "Marathi");
     ("ne", "Nepali"); ("si", "Sinhala"); ("my", "Burmese"); ("km", "Khmer");
     ("lo", "Lao"); ("ka", "Georgian"); ("am", "Amharic"); ("sw", "Swahili");
     ("zu", "Zulu"); ("af", "Afrikaans"); ("ms", "Malay"); ("tl", "Filipino");
     ("id", "Indonesian")].

Definition get_language_name (language_code : string) : string :=
  default language_code (supported_languages !! lower language_code).

(** ** More string built-ins *)

Definition nl : string := String "010"%char "".
Definition dquote : string := String "034"%char "".

(** [s.startswith(p)] and [s.endswith(p)] *)
Fixpoint prefix_chars (p l : list ascii) : bool :=
  match p, l with
  | [], _ => true
  | c :: p', d :: l' => bool_decide (c = d) && prefix_chars p' l'
  | _ :: _, [] => false
  end.

Definition startswith (s p : string) : bool := prefix_chars (chars p) (chars s).

Definition endswith (s p : string) : bool :=
  prefix_chars (rev (chars p)) (rev (chars s)).

(** [s[n:]] for [n >= 0] *)
Definition str_from (n : nat) (s : string) : string := of_chars (drop n (chars s)).

(** [s[1:-1]] *)
Definition str_inner (s : string) : string :=
  of_chars (removelast (drop 1 (chars s))).

(** [s.find(c)]: the index of the first [c], if any. *)
Fixpoint find_char (c : ascii) (l : list ascii) : option nat :=
  match l with
  | [] => None
  | d :: l' => if bool_decide (d = c) then Some 0%nat else S <$> find_char c l'
  end.

(** [s.split('\n')] *)
Fixpoint split_on (c : ascii) (cur : list ascii) (l : list ascii) : list string :=
  match l with
  | [] => [of_chars (rev cur)]
  | d :: l' =>
      if bool_decide (d = c) then of_chars (rev cur) :: split_on c [] l'
      else split_on c (d :: cur) l'
  end.

Definition split_lines (s : string) : list string :=
  split_on "010"%char [] (chars s).

(** [int(s)] on a string, base 10: white space around an optional sign and
    decimal digits, single underscores allowed between digits; [None] for
    [ValueError].  The white space [int] skips is the ASCII white space and
    the two other space characters below 256. *)
Definition int_space (c : ascii) : bool :=
  let n := code c in
  ((9 <=? n) && (n <=? 13) || (n =? 32) || (n =? 133) || (n =? 160))%N.

Definition digit_value (c : ascii) : option Z :=
  let n := code c in
  if ((48 <=? n) && (n <=? 57))%N then Some (Z.of_N n - 48)%Z else None.

Fixpoint parse_digits (acc : Z) (after_underscore : bool) (l : list ascii)
  : option Z :=
  match l with
  | [] => if after_underscore then None else Some acc
  | c :: l' =>
      if bool_decide (c = "_"%char)
      then if after_underscore then None else parse_digits acc true l'
      else match digit_value c with
           | Some d => parse_digits (10 * acc + d) false l'
           | None => None
           end
  end.

Fixpoint lstrip_int (l : list ascii) : list ascii :=
  match l with
  | c :: l' => if int_space c then lstrip_int l' else l
  | [] => []
  end.

Definition int_of_string (s : string) : option Z :=
  let l := rev (lstrip_int (rev (lstrip_int (chars s)))) in
  let '(negative, l) :=
    match l with
    | c :: l' =>
        if bool_decide (c = "+"%char) then (false, l')
        else if bool_decide (c = "-"%char) then (true, l')
        else (false, l)
    | [] => (false, l)
    end in
  match l with
  | c :: _ =>
      if bool_decide (c = "_"%char) then None
      else (λ v, if negative : bool then (- v)%Z else v)
           <$> parse_digits 0 false l
  | [] => None
  end.

(** ** services/translation_service.py

    [translate_segments] mutates no segment: it builds new ones.  It is
    embedded on segment values.  The engine is the chat-completion call of
    [_translate_with_groq]: given the number of the call and the prompt it
    returns the message content or raises. *)

Definition engine_t : Type := nat → string → result string.

Definition _create_translation_prompt (text source_lang target_lang : string)
    (context : option string) : string :=
  "You are a professional translator specializing in subtitle translation for videos. "
  +:+ nl +:+ nl
  +:+ "Task: Translate the following text from " +:+ source_lang +:+ " to "
  +:+ target_lang +:+ "." +:+ nl +:+ nl
  +:+ "Instructions:" +:+ nl
  +:+ "1. Maintain natural flow and readability for subtitles" +:+ nl
  +:+ "2. Keep cultural context and nuances" +:+ nl
  +:+ "3. Use appropriate subtitle conventions for " +:+ target_lang +:+ nl
  +:+ "4. Preserve timing and pacing suitable for spoken dialogue" +:+ nl
  +:+ "5. Handle names, places, and technical terms appropriately" +:+ nl
  +:+ "6. Keep similar length when possible for subtitle display" +:+ nl
  +:+ "7. Add the approriate substitutes for interjections. " +:+ nl
  +:+ "8. ENSURE THAT THE ENTIRE TEXT IS TRANSLATED TO THE TARGET LANGUAGE."
  +:+ nl +:+ nl
  +:+ match context with
      | Some c => if bool_decide (c = "") then "" else "Context: " +:+ c
      | None => ""
      end
  +:+ nl +:+ nl
  +:+ "Source text (" +:+ source_lang +:+ "):" +:+ nl
  +:+ text +:+ nl +:+ nl
  +:+ "Translated text (" +:+ target_lang +:+ "):".

Definition _translate_with_groq (engine : string → result string)
    (prompt : string) : result string :=
  match engine prompt with
  | inr content => inr (strip content)
  | inl e => inl e
  end.

Definition prefixes_to_remove : list string :=
  ["Translated text:"; "Translation:"; "Here's the translation:";
   "The translation is:"; "In English:"; "In Spanish:"; "In French:";
   "In German:"; "In Italian:"; "In Portuguese:"; "In Russian:";
   "In Japanese:"; "In Korean:"; "In Chinese:"; "In Arabic:"; "In Hindi:"].

Definition squote : string := String "039"%char "".

Definition _post_process_translation (translated_text : string) : string :=
  let translated_text :=
    foldl (λ t prefix,
             if startswith (lower t) (lower prefix)
             then strip (str_from (length (chars prefix)) t) else t)
          translated_text prefixes_to_remove in
  let translated_text :=
    if startswith translated_text dquote && endswith translated_text dquote
    then str_inner translated_text else translated_text in
  let translated_text :=
    if startswith translated_text squote && endswith translated_text squote
    then str_inner translated_text else translated_text in
  strip translated_text.

Definition translate_text (engine : string → result string)
    (text source_language target_language : string) (context : option string)
  : result string :=
  let body : result string :=
    if bool_decide (lower source_language = lower target_language)
    then inr text
    else
      let source_lang_name := get_language_name source_language in
      let target_lang_name := get_language_name target_language in
      let prompt := _create_translation_prompt text source_lang_name
                      target_lang_name context in
      match _translate_with_groq engine prompt with
      | inl e => inl e
      | inr translated_text => inr (_post_process_translation translated_text)
      end in
  match body with
  | inl e => inl (Exception ("Translation failed: " +:+ str_exn e))
  | inr t => inr t
  end.

Definition _create_batch_text (segments : list TranscriptionSegment) : string :=
  join nl (imap (λ i segment, "[" +:+ pretty i +:+ "] " +:+ text segment)
             segments).

(** The body of the loop over the response lines in
    [_parse_batch_translation]: the entry the line puts in [segment_map],
    if any. *)
Definition marker_line (line : string) : option (Z * string) :=
  let line := strip line in
  if negb (bool_decide (line = "")) && startswith line "["
     && bool_decide ("]"%char ∈ chars line)
  then
    match find_char "]"%char (chars line) with
    | Some marker_end =>
        if (0 <? marker_end)%nat
        then
          match int_of_string
                  (of_chars (take (marker_end - 1) (drop 1 (chars line)))) with
          | Some index => Some (index, strip (str_from (S marker_end) line))
          | None => None
          end
        else None
    | None => None
    end
  else None.

Definition segment_map_of (lines : list string) : gmap Z string :=
  foldl (λ segment_map line,
           match marker_line line with
           | Some (index, text) => <[index := text]> segment_map
           | None => segment_map
           end) ∅ lines.

Definition _parse_batch_translation (translated_text : string)
    (original_segments : list TranscriptionSegment)
  : list TranscriptionSegment :=
  let lines := split_lines (strip translated_text) in
  let segment_map := segment_map_of lines in
  imap (λ i original_segment,
          let translated_text :=
            default (text original_segment) (segment_map !! Z.of_nat i) in
          mkSegment (start original_segment) (end_ original_segment)
            translated_text (confidence original_segment))
       original_segments.

Definition batch_context : string :=
  "This is a batch of subtitle segments from a video. Maintain natural flow and context.".

(** The loop of [translate_segments]: [starts] are the remaining values of
    [i] in [range(0, len(segments), batch_size)], [n] the number of the
    engine call. *)
Fixpoint translate_loop (engine : engine_t)
    (segments : list TranscriptionSegment)
    (source_language target_language : string)
    (translated_segments : list TranscriptionSegment)
    (n : nat) (starts : list nat) : result (list TranscriptionSegment) :=
  match starts with
  | [] => inr translated_segments
  | i :: starts' =>
      let batch := py_slice segments (Z.of_nat i) (Z.of_nat i + 10) in
      let batch_text := _create_batch_text batch in
      match translate_text (engine n) batch_text source_language
              target_language (Some batch_context) with
      | inl e => inl e
      | inr translated_batch =>
          let translated_batch_segments :=
            _parse_batch_translation translated_batch batch in
          translate_loop engine segments source_language target_language
            (translated_segments ++ translated_batch_segments) (S n) starts'
      end
  end.

(** [range(0, n, step)] *)
Definition range_step (n step : nat) : list nat :=
  (λ k, k * step)%nat <$> seq 0 ((n + step - 1) / step).

Definition translate_segments (engine : engine_t)
    (segments : list TranscriptionSegment)
    (source_language target_language : string)
  : result (list TranscriptionSegment) :=
  let body :=
    if bool_decide (lower source_language = lower target_language)
    then inr segments
    else
      let batch_size := 10%nat in
      translate_loop engine segments source_language target_language []
        0 (range_step (length segments) batch_size) in
  match body with
  | inl e => inl (Exception ("Segment translation failed: " +:+ str_exn e))
  | inr r => inr r
  end.

(** The prompt of the call for batch [b], the lines of a response as
    [_parse_batch_translation] reads them, and the texts the lines supply
    for index [k], in order. *)
Definition batch_of (segments : list TranscriptionSegment) (b : nat)
  : list TranscriptionSegment :=
  py_slice segments (Z.of_nat (b * 10)) (Z.of_nat (b * 10) + 10).

Definition batch_prompt (segments : list TranscriptionSegment)
    (source_language target_language : string) (b : nat) : string :=
  _create_translation_prompt (_create_batch_text (batch_of segments b))
    (get_language_name source_language) (get_language_name target_language)
    (Some batch_context).

Definition response_lines (content : string) : list string :=
  split_lines (strip (_post_process_translation (strip content))).

Definition supplied_texts (k : Z) (lines : list string) : list string :=
  omap (λ line, match marker_line line with
                | Some (k', t) => if bool_decide (k' = k) then Some t else None
                | None => None
                end) lines.

Lemma segment_map_of_snoc lines line :
  segment_map_of (lines ++ [line])
  = match marker_line line with
    | Some (index, text) => <[index := text]> (segment_map_of lines)
    | None => segment_map_of lines
    end.
Proof. unfold segment_map_of. by rewrite foldl_app. Qed.

Lemma segment_map_lookup lines k :
  segment_map_of lines !! k = last (supplied_texts k lines).
Proof.
  induction lines as [|line lines IH] using rev_ind; [done|].
  rewrite segment_map_of_snoc. unfold supplied_texts.
  rewrite omap_app. simpl.
  destruct (marker_line line) as [[k' t]|].
  - case_bool_decide as Hk.
    + subst k'. by rewrite lookup_insert_eq, last_snoc.
    + rewrite lookup_insert_ne by done. by rewrite app_nil_r.
  - by rewrite app_nil_r.
Qed.

Lemma parse_batch_length t batch :
  length (_parse_batch_translation t batch) = length batch.
Proof. unfold _parse_batch_translation. apply length_imap. Qed.

Lemma parse_batch_lookup t batch j s :
  batch !! j = Some s →
  _parse_batch_translation t batch !! j
  = Some (mkSegment (start s) (end_ s)
            (default (text s)
               (last (supplied_texts (Z.of_nat j) (split_lines (strip t)))))
            (confidence s)).
Proof.
  intros Hj. unfold _parse_batch_translation.
  rewrite list_lookup_imap, Hj. simpl. by rewrite segment_map_lookup.
Qed.

Lemma translate_text_inr engine text src tgt ctx translated :
  lower src ≠ lower tgt →
  translate_text engine text src tgt ctx = inr translated →
  ∃ content,
    engine (_create_translation_prompt text (get_language_name src)
              (get_language_name tgt) ctx) = inr content ∧
    translated = _post_process_translation (strip content).
Proof.
  intros Hne. unfold translate_text, _translate_with_groq.
  rewrite bool_decide_eq_false_2 by done.
  destruct (engine _) as [e|content]; [done|].
  intros [= <-]. by exists content.
Qed.

Lemma translate_loop_spec engine segs src tgt :
  ∀ m k acc out,
    (length segs ≤ (k + m) * 10)%nat →
    translate_loop engine segs src tgt acc k
      ((λ k, k * 10)%nat <$> seq k m) = inr out →
    ∃ rest,
      out = acc ++ rest ∧
      length rest = (length segs - k * 10)%nat ∧
      ∀ j s, segs !! (k * 10 + j)%nat = Some s →
        ∃ translated,
          translate_text (engine (k + j / 10)%nat)
            (_create_batch_text (batch_of segs (k + j / 10))) src tgt
            (Some batch_context) = inr translated ∧
          rest !! j
          = Some (mkSegment (start s) (end_ s)
                    (default (text s)
                       (last (supplied_texts (Z.of_nat (j mod 10))
                                (split_lines (strip translated)))))
                    (confidence s)).
Proof.
  induction m as [|m IH]; intros k acc out Hcover Hrun.
  { simpl in Hrun. injection Hrun as <-. exists []. split_and!.
    - by rewrite app_nil_r.
    - simpl. lia.
    - intros j s Hs. apply lookup_lt_Some in Hs. lia. }
  change (seq k (S m)) with (k :: seq (S k) m) in Hrun.
  rewrite fmap_cons in Hrun. cbn [translate_loop] in Hrun.
  fold (batch_of segs k) in Hrun.
  assert (batch_of segs k = take 10 (drop (k * 10) segs)) as Hbatch.
  { unfold batch_of, py_slice. f_equal; [lia|f_equal; lia]. }
  remember (batch_of segs k) as batch eqn:Hb.
  destruct (translate_text (engine k) (_create_batch_text batch) src tgt
              (Some batch_context)) as [e|translated] eqn:Ht;
    [discriminate Hrun|].
  pose proof (parse_batch_length translated batch) as Hplen.
  pose proof (parse_batch_lookup translated batch) as Hplook.
  revert Hrun Hplen Hplook.
  generalize (_parse_batch_translation translated batch) as parsed.
  intros parsed Hrun Hplen Hplook.
  assert (length segs ≤ (S k + m) * 10)%nat as Hcover' by lia.
  destruct (IH (S k) _ out Hcover' Hrun) as (rest' & -> & Hlen' & Hrest').
  assert (length batch = Nat.min 10 (length segs - k * 10)) as Hblen.
  { rewrite Hbatch, length_take, length_drop. reflexivity. }
  rewrite Hblen in Hplen.
  exists (parsed ++ rest'). split_and!.
  - by rewrite app_assoc.
  - rewrite length_app, Hlen', Hplen. lia.
  - intros j s Hs. apply lookup_lt_Some in Hs as Hlt.
    destruct (decide (j < 10)%nat) as [Hj|Hj].
    + exists translated.
      rewrite (Nat.div_small j 10), (Nat.mod_small j 10), Nat.add_0_r by lia.
      split; [rewrite <- Hb; exact Ht|].
      rewrite lookup_app_l by lia.
      apply Hplook.
      rewrite Hbatch, lookup_take, lookup_drop. by rewrite decide_True.
    + destruct (Hrest' (j - 10)%nat s) as (translated' & Hc' & Hr').
      { rewrite <- Hs. f_equal. lia. }
      replace (S k + (j - 10) / 10)%nat with (k + j / 10)%nat in Hc'; last first.
      { replace j with ((j - 10) + 1 * 10)%nat at 1 by lia.
        rewrite Nat.div_add by lia. lia. }
      replace ((j - 10) mod 10)%nat with (j mod 10)%nat in Hr'; last first.
      { replace j with ((j - 10) + 1 * 10)%nat at 1 by lia.
        rewrite Nat.Div0.mod_add. reflexivity. }
      exists translated'. split; [exact Hc'|].
      rewrite lookup_app_r by lia.
      rewrite <- Hr'. f_equal. lia.
Qed.

Lemma range_step_covers n : (n ≤ (0 + (n + 10 - 1) / 10) * 10)%nat.
Proof.
  pose proof (Nat.div_mod_eq (n + 10 - 1) 10) as H.
  pose proof (Nat.mod_upper_bound (n + 10 - 1) 10) as H'. lia.
Qed.

(** C7: translation identity.  When the source and target language codes
    are equal, [translate_segments] returns its input, whatever the engine
    would answer. *)
Theorem translate_segments_same_language (engine : engine_t)
    (segments : list TranscriptionSegment) (language : string) :
  translate_segments engine segments language language = inr segments.
Proof.
  unfold translate_segments. by rewrite bool_decide_eq_true_2.
Qed.

(** C2 (as amended): the reassembler.  When [translate_segments] returns, its
    result has the length of its input and the i-th output segment has the
    i-th input segment's start, end and confidence.  When the languages
    differ, its text is the text supplied for index [i mod 10] by the last
    line of the post-processed response to batch [i / 10] that supplies
    one, and the original text when no line does.  A line supplies an index
    when [marker_line] reads one from it: after stripping, it starts with
    an opening bracket, and Python's [int] accepts what stands before the
    first closing bracket (digits, possibly with a sign, white space
    around, or single underscores between digits); the text supplied is
    the stripped rest of the line. *)
Theorem translate_segments_reassembles (engine : engine_t)
    (segments : list TranscriptionSegment)
    (source_language target_language : string)
    (out : list TranscriptionSegment) :
  translate_segments engine segments source_language target_language
  = inr out →
  length out = length segments ∧
  ∀ i s, segments !! i = Some s →
    ∃ o, out !! i = Some o ∧
         start o = start s ∧ end_ o = end_ s ∧
         confidence o = confidence s ∧
         ((lower source_language = lower target_language ∧ text o = text s) ∨
          (lower source_language ≠ lower target_language ∧
           ∃ content,
             engine (i / 10)%nat
               (batch_prompt segments source_language target_language (i / 10))
             = inr content ∧
             text o = default (text s)
                        (last (supplied_texts (Z.of_nat (i mod 10))
                                 (response_lines content))))).
Proof.
  unfold translate_segments. case_bool_decide as Hlang.
  { intros [= <-]. split; [done|]. intros i s Hs. exists s.
    split_and!; try done. by left. }
  destruct (translate_loop _ _ _ _ _ _ _) as [e|r] eqn:Hloop; [done|].
  intros [= ->]. unfold range_step in Hloop.
  destruct (translate_loop_spec engine segments source_language target_language
              _ 0%nat [] out (range_step_covers (length segments)) Hloop)
    as (rest & -> & Hlen & Hrest).
  rewrite app_nil_l. split; [rewrite Hlen; lia|].
  intros i s Hs.
  destruct (Hrest i s Hs) as (translated & Ht & Hi).
  apply translate_text_inr in Ht as (content & Hcontent & ->); [|done].
  rewrite Nat.add_0_l in Hcontent.
  eexists. split; [exact Hi|].
  split; [reflexivity|]. split; [reflexivity|]. split; [reflexivity|].
  right. split; [exact Hlang|]. exists content.
  unfold batch_prompt, response_lines.
  split; [exact Hcontent|reflexivity].
Qed.

Definition sample_engine : engine_t := λ n prompt,
  inr ("Translation: [0] Hola" +:+ nl +:+ "junk" +:+ nl +:+ "[1] Mundo").

Definition sample_segments : list TranscriptionSegment :=
  [mkSegment 0 1 "Hello" None; mkSegment 1 2 "World" (Some 1%Q);
   mkSegment 2 3 "Bye" None].

Definition sample_translated : list TranscriptionSegment :=
  [mkSegment 0 1 "Hola" None; mkSegment 1 2 "Mundo" (Some 1%Q);
   mkSegment 2 3 "Bye" None].

Lemma translate_segments_reassembles_witness :
  translate_segments sample_engine sample_segments "en" "es"
  = inr sample_translated ∧
  length sample_translated = length sample_segments ∧
  ∀ i s, sample_segments !! i = Some s →
    ∃ o, sample_translated !! i = Some o ∧
         start o = start s ∧ end_ o = end_ s ∧
         confidence o = confidence s ∧
         ((lower "en" = lower "es" ∧ text o = text s) ∨
          (lower "en" ≠ lower "es" ∧
           ∃ content,
             sample_engine (i / 10)%nat
               (batch_prompt sample_segments "en" "es" (i / 10))
             = inr content ∧
             text o = default (text s)
                        (last (supplied_texts (Z.of_nat (i mod 10))
                                 (response_lines content))))).
Proof.
  assert (translate_segments sample_engine sample_segments "en" "es"
          = inr sample_translated) as H by (vm_compute; reflexivity).
  split; [exact H|].
  exact (translate_segments_reassembles sample_engine sample_segments
           "en" "es" sample_translated H).
Defined.

(** C2, the claim as stated fails: the only line of this response has a
    marker that is not made of digits, so the claim gives the segment its
    original text, yet the marker is read as index 0 and the segment gets
    the line's text. *)
Lemma translate_segments_signed_marker :
  let engine : engine_t := λ _ _, inr "[+0] Hola" in
  response_lines "[+0] Hola" = ["[+0] Hola"] ∧
  digit_value "+"%char = None ∧
  marker_line "[+0] Hola" = Some (0%Z, "Hola") ∧
  translate_segments engine [mkSegment 0 1 "Hello" None] "en" "es"
  = inr [mkSegment 0 1 "Hola" None].
Proof. vm_compute. done. Qed.

(** ** main.py: the job registry and the orchestrator *)

Record TranscriptionResult := mkResult {
  tr_text : string;
  tr_segments : list TranscriptionSegment;
  tr_detected_language : option string;
  tr_confidence : option Q
}.

(** A job dictionary; a key that a job may lack is an [option]. *)
Record Job := mkJob {
  job_status : string;
  job_filename : string;
  job_video_data : option (list Byte.byte);
  job_created_at : string;
  job_progress : Z;
  job_target_language : option string;
  job_source_language : option string;
  job_transcription_result : option TranscriptionResult;
  job_error : option string;
  job_result_video : option (list Byte.byte);
  job_completed_at : option string
}.

Definition set_status (v : string) (j : Job) : Job :=
  mkJob v (job_filename j) (job_video_data j) (job_created_at j)
    (job_progress j) (job_target_language j) (job_source_language j)
    (job_transcription_result j) (job_error j) (job_result_video j)
    (job_completed_at j).

Definition set_progress (v : Z) (j : Job) : Job :=
  mkJob (job_status j) (job_filename j) (job_video_data j) (job_created_at j)
    v (job_target_language j) (job_source_language j)
    (job_transcription_result j) (job_error j) (job_result_video j)
    (job_completed_at j).

Definition set_video_data (v : option (list Byte.byte)) (j : Job) : Job :=
  mkJob (job_status j) (job_filename j) v (job_created_at j)
    (job_progress j) (job_target_language j) (job_source_language j)
    (job_transcription_result j) (job_error j) (job_result_video j)
    (job_completed_at j).

Definition set_source_language (v : string) (j : Job) : Job :=
  mkJob (job_status j) (job_filename j) (job_video_data j) (job_created_at j)
    (job_progress j) (job_target_language j) (Some v)
    (job_transcription_result j) (job_error j) (job_result_video j)
    (job_completed_at j).

Definition set_transcription_result (v : option TranscriptionResult) (j : Job)
  : Job :=
  mkJob (job_status j) (job_filename j) (job_video_data j) (job_created_at j)
    (job_progress j) (job_target_language j) (job_source_language j)
    v (job_error j) (job_result_video j) (job_completed_at j).

Definition set_error (v : string) (j : Job) : Job :=
  mkJob (job_status j) (job_filename j) (job_video_data j) (job_created_at j)
    (job_progress j) (job_target_language j) (job_source_language j)
    (job_transcription_result j) (Some v) (job_result_video j)
    (job_completed_at j).

Definition set_result_video (v : list Byte.byte) (j : Job) : Job :=
  mkJob (job_status j) (job_filename j) (job_video_data j) (job_created_at j)
    (job_progress j) (job_target_language j) (job_source_language j)
    (job_transcription_result j) (job_error j) (Some v)
    (job_completed_at j).

Definition set_completed_at (v : string) (j : Job) : Job :=
  mkJob (job_status j) (job_filename j) (job_video_data j) (job_created_at j)
    (job_progress j) (job_target_language j) (job_source_language j)
    (job_transcription_result j) (job_error j) (job_result_video j)
    (Some v).

(** [active_jobs], and computations over it that may raise.  The registry
    outlives an exception: what was written before it stays written. *)
Abbreviation registry := (gmap string Job).

Definition J (A : Type) : Type := registry → result A * registry.

Definition jret {A} (a : A) : J A := λ reg, (inr a, reg).

Definition jraise {A} (e : exn) : J A := λ reg, (inl e, reg).

Definition jbind {A B} (m : J A) (f : A → J B) : J B :=
  λ reg, match m reg with
         | (inr a, reg') => f a reg'
         | (inl e, reg') => (inl e, reg')
         end.

(** [try: body except Exception as e: handler(e)] *)
Definition try_except {A} (body : J A) (handler : exn → J A) : J A :=
  λ reg, match body reg with
         | (inr a, reg') => (inr a, reg')
         | (inl e, reg') => handler e reg'
         end.

Notation "'do*' x ':=' m 'in' k" := (jbind m (λ x, k))
  (at level 10, x name, m at level 100, k at level 200).
Notation "m '>>>' k" := (jbind m (λ _, k))
  (at level 100, k at level 200, right associativity).

(** The outcome of a collaborator, taken into the computation. *)
Definition lift {A} (r : result A) : J A := λ reg, (r, reg).

(** [job_id in active_jobs] *)
Definition job_exists (job_id : string) : J bool :=
  λ reg, (inr (bool_decide (is_Some (reg !! job_id))), reg).

(** [active_jobs[job_id]] *)
Definition get_job (job_id : string) : J Job :=
  λ reg, match reg !! job_id with
         | Some j => (inr j, reg)
         | None => (inl (KeyError job_id), reg)
         end.

(** [job[key] = v] through the reference [job = active_jobs[job_id]]: the
    dictionary in the registry changes. *)
Definition update_job (job_id : string) (f : Job → Job) : J unit :=
  λ reg, (inr tt, alter f job_id reg).

(** [del active_jobs[job_id]] *)
Definition delete_job (job_id : string) : J unit :=
  λ reg, match reg !! job_id with
         | Some _ => (inr tt, delete job_id reg)
         | None => (inl (KeyError job_id), reg)
         end.

(** [d[key]] for a key that may be absent. *)
Definition require {A} (key : string) (v : option A) : J A :=
  match v with
  | Some a => jret a
  | None => jraise (KeyError key)
  end.

(** The request body of [continue_with_transcription]: dictionaries whose
    keys may be absent. *)
Record SegmentDict := mkSegmentDict {
  sd_start : option Q;
  sd_end : option Q;
  sd_text : option string;
  sd_confidence : option (option Q)
}.

Record TranscriptionDict := mkTranscriptionDict {
  td_text : option string;
  td_segments : option (list SegmentDict);
  td_detected_language : option (option string);
  td_confidence : option (option Q)
}.

(** What the orchestrator calls and does not define: the temporary files,
    the media toolkit, the transcription and translation engines, the
    clock. *)
Record Collaborators := mkCollaborators {
  temporary_video_file : list Byte.byte → result unit;
  temporary_audio_file : result unit;
  extract_audio : list Byte.byte → result (list Byte.byte);
  transcribe_audio : list Byte.byte → option string → result TranscriptionResult;
  translation_engine : engine_t;
  temporary_subtitle_file : string → result unit;
  render_video_to_bytes : list Byte.byte → string → result (list Byte.byte);
  now : string
}.

(** [f"{n:0{width}d}"]: zeros go between the sign and the digits. *)
Definition pad (width : nat) (n : Z) : string :=
  let digits := chars (pretty (Z.abs n)) in
  let sign := if (n <? 0)%Z then ["-"%char] else [] in
  of_chars (sign ++ replicate (width - length sign - length digits) "0"%char
            ++ digits).

(** [x // y] and [x % y] on floats, for [y > 0]. *)
Definition floor_div (x y : Q) : Z := Qfloor (x / y).

Definition float_mod (x y : Q) : Q := (x - inject_Z (Qfloor (x / y)) * y)%Q.

(** [_seconds_to_srt_time_string].  The floor divisions, the remainders
    and the difference [seconds - int(seconds)] are exact on floats for
    times below one hundred hours, so the hour, minute and second fields
    are those of the code.  The product by 1000 is computed here exactly,
    whereas the code rounds it to a float before truncating, and a
    decimal such as 7.3 reaches the code as the nearest float, which is
    below it.  The millisecond field of the code can therefore differ by
    one from the one computed here: the code prints [,299] for 7.3, where
    73/10 gives 300 here, and [,300] for the float nearest to 0.3, whose
    exact product is below 300.  The theorems below state of the
    millisecond field only what holds of both values. *)
Definition _seconds_to_srt_time_string (seconds : Q) : string :=
  let hours := floor_div seconds 3600 in
  let minutes := floor_div (float_mod seconds 3600) 60 in
  let secs := py_int (float_mod seconds 60) in
  let milliseconds := py_int ((seconds - inject_Z (py_int seconds)) * 1000)%Q in
  pad 2 hours +:+ ":" +:+ pad 2 minutes +:+ ":" +:+ pad 2 secs +:+ ","
  +:+ pad 3 milliseconds.

Definition srt_lines (optimized_segments : list TranscriptionSegment)
  : list string :=
  concat (imap (λ i segment,
                  [pretty (S i);
                   _seconds_to_srt_time_string (start segment) +:+ " --> "
                   +:+ _seconds_to_srt_time_string (end_ segment);
                   text segment;
                   ""]) optimized_segments).

(** [generate_srt_content] on a result whose segments are objects of their
    own. *)
Definition generate_srt_content (transcription_result : TranscriptionResult)
  : result string :=
  match normalize (tr_segments transcription_result) with
  | Some optimized_segments => inr (join nl (srt_lines optimized_segments))
  | None => inl (Exception "SRT generation failed: ")
  end.

(** [not source_language] and [x or default] *)
Definition truthy (s : option string) : bool :=
  match s with
  | Some v => negb (bool_decide (v = ""))
  | None => false
  end.

Definition or_default (s : option string) (d : string) : string :=
  match s with
  | Some v => if bool_decide (v = "") then d else v
  | None => d
  end.

(** The [try] block of [process_video_background]. *)
Definition process_video_body (c : Collaborators) (job_id : string)
    (video_data : list Byte.byte) (target_language : string)
    (source_language : option string) : J unit :=
  do* job := get_job job_id in
  update_job job_id (set_progress 20) >>>
  update_job job_id (set_status "extracting_audio") >>>
  lift (temporary_video_file c video_data) >>>
  lift (temporary_audio_file c) >>>
  do* audio := lift (extract_audio c video_data) in
  update_job job_id (set_progress 50) >>>
  update_job job_id (set_status "transcribing") >>>
  do* transcription_result := lift (transcribe_audio c audio source_language) in
  let source_language :=
    if truthy source_language then default "" source_language
    else or_default (tr_detected_language transcription_result) "en" in
  update_job job_id (set_transcription_result (Some transcription_result)) >>>
  update_job job_id (set_source_language source_language) >>>
  update_job job_id (set_status "transcription_complete") >>>
  update_job job_id (set_progress 60).

(** The [except Exception as e] block of both background tasks. *)
Definition record_failure (job_id : string) (e : exn) : J unit :=
  do* present := job_exists job_id in
  if present : bool
  then
    update_job job_id (set_status "failed") >>>
    update_job job_id (set_error (str_exn e)) >>>
    update_job job_id (set_progress 0)
  else jret tt.

Definition process_video_background (c : Collaborators) (job_id : string)
    (video_data : list Byte.byte) (target_language : string)
    (source_language : option string) : J unit :=
  try_except
    (process_video_body c job_id video_data target_language source_language)
    (record_failure job_id).

(** [TranscriptionSegment(start=seg["start"], ...)] for each [seg]. *)
Fixpoint segments_of_dicts (l : list SegmentDict)
  : J (list TranscriptionSegment) :=
  match l with
  | [] => jret []
  | seg :: l' =>
      do* s := require "start" (sd_start seg) in
      do* e := require "end" (sd_end seg) in
      do* t := require "text" (sd_text seg) in
      do* cf := require "confidence" (sd_confidence seg) in
      do* rest := segments_of_dicts l' in
      jret (mkSegment s e t cf :: rest)
  end.

(** The [try] block of [continue_processing_after_transcription]. *)
Definition continue_processing_body (c : Collaborators) (job_id : string)
    (edited_transcription : TranscriptionDict) : J unit :=
  do* job := get_job job_id in
  do* dicts := require "segments" (td_segments edited_transcription) in
  do* segments := segments_of_dicts dicts in
  do* full_text := require "text" (td_text edited_transcription) in
  do* detected_language :=
    require "detected_language" (td_detected_language edited_transcription) in
  do* cf := require "confidence" (td_confidence edited_transcription) in
  let transcription_result :=
    mkResult full_text segments detected_language cf in
  update_job job_id (set_status "translating") >>>
  update_job job_id (set_progress 70) >>>
  do* job := get_job job_id in
  do* source_language := require "source_language" (job_source_language job) in
  do* target_language := require "target_language" (job_target_language job) in
  do* final_transcription :=
    (if bool_decide (source_language ≠ target_language)
     then
       do* translated_segments :=
         lift (translate_segments (translation_engine c)
                 (tr_segments transcription_result)
                 source_language target_language) in
       jret (mkResult (join " " (text <$> translated_segments))
               translated_segments (Some source_language)
               (tr_confidence transcription_result))
     else jret transcription_result) in
  update_job job_id (set_status "generating_subtitles") >>>
  update_job job_id (set_progress 80) >>>
  do* srt_content := lift (generate_srt_content final_transcription) in
  do* job := get_job job_id in
  do* video_data := require "video_data" (job_video_data job) in
  lift (temporary_video_file c video_data) >>>
  lift (temporary_subtitle_file c srt_content) >>>
  update_job job_id (set_status "rendering_video") >>>
  update_job job_id (set_progress 90) >>>
  do* result_video_bytes :=
    lift (render_video_to_bytes c video_data srt_content) in
  update_job job_id (set_status "completed") >>>
  update_job job_id (set_progress 100) >>>
  update_job job_id (set_result_video result_video_bytes) >>>
  update_job job_id (set_completed_at (now c)) >>>
  do* job := get_job job_id in
  require "video_data" (job_video_data job) >>>
  update_job job_id (set_video_data None) >>>
  do* job := get_job job_id in
  require "transcription_result" (job_transcription_result job) >>>
  update_job job_id (set_transcription_result None).

Definition continue_processing_after_transcription (c : Collaborators)
    (job_id : string) (edited_transcription : TranscriptionDict) : J unit :=
  try_except (continue_processing_body c job_id edited_transcription)
    (record_failure job_id).


(** *** The endpoints

    Each endpoint runs in [try: ... except Exception as e: raise
    HTTPException(status_code=500, detail=str(e))]; [HTTPException] is an
    [Exception], so the handler also catches the ones the body raises. *)
Definition http_guard {A} (body : J A) : J A :=
  try_except body (λ e, jraise (HTTPException 500 (str_exn e))).

(** A task handed to [background_tasks.add_task]; it runs after the
    response is sent. *)
Inductive BackgroundTask :=
  | ProcessVideo (job_id : string) (video_data : list Byte.byte)
      (target_language : string) (source_language : option string)
  | ContinueProcessing (job_id : string)
      (edited_transcription : TranscriptionDict).

Definition run_task (c : Collaborators) (t : BackgroundTask) : J unit :=
  match t with
  | ProcessVideo job_id video_data target_language source_language =>
      process_video_background c job_id video_data target_language
        source_language
  | ContinueProcessing job_id edited_transcription =>
      continue_processing_after_transcription c job_id edited_transcription
  end.

Definition set_target_language (v : string) (j : Job) : Job :=
  mkJob (job_status j) (job_filename j) (job_video_data j) (job_created_at j)
    (job_progress j) (Some v) (job_source_language j)
    (job_transcription_result j) (job_error j) (job_result_video j)
    (job_completed_at j).

(** [f"{x:.0f}"]: rounding to the nearest integer, ties to even. *)
Definition round_half_even (x : Q) : Z :=
  let f := Qfloor x in
  let r := (x - inject_Z f)%Q in
  if Qltb r (1 # 2) then f
  else if Qltb (1 # 2) r then (f + 1)%Z
  else if Z.even f then f else (f + 1)%Z.

(** [upload_video]; [job_id] is the new UUID. *)
Definition upload_video (max_file_size : Z) (created_at job_id : string)
    (content_type filename : string) (video_data : list Byte.byte)
  : J (string * string * Z * string) :=
  http_guard
    (if negb (startswith content_type "video/")
     then jraise (HTTPException 400 "File must be a video")
     else if (max_file_size <? len video_data)%Z
     then jraise (HTTPException 400
                    ("File size exceeds "
                     +:+ pretty (round_half_even
                                   (inject_Z max_file_size / (1024 * 1024))%Q)
                     +:+ "MB limit"))
     else
       (λ reg, (inr tt,
                <[job_id := mkJob "uploaded" filename (Some video_data)
                              created_at 0 None None None None None None]>
                  reg)) >>>
       jret (job_id, filename, len video_data, "uploaded")).

(** [process_video] *)
Definition process_video (job_id target_language : string)
    (source_language : option string)
  : J (string * string * string * BackgroundTask) :=
  http_guard
    (do* present := job_exists job_id in
     if negb present then jraise (HTTPException 404 "Job not found")
     else
       do* job := get_job job_id in
       if negb (bool_decide (job_status job = "uploaded"))
       then jraise (HTTPException 400 "Job not ready for processing")
       else
         update_job job_id (set_target_language target_language) >>>
         do* video_data := require "video_data" (job_video_data job) in
         jret (job_id, "processing_started", "Video processing started",
               ProcessVideo job_id video_data target_language source_language)).

(** [get_job_status]: job id, status, progress, message, file name. *)
Definition get_job_status (job_id : string)
  : J (string * string * Z * string * string) :=
  http_guard
    (do* present := job_exists job_id in
     if negb present then jraise (HTTPException 404 "Job not found")
     else
       do* job := get_job job_id in
       jret (job_id, job_status job, job_progress job,
             default "" (job_error job), job_filename job)).

(** [get_transcription] *)
Definition get_transcription (job_id : string)
  : J (string * TranscriptionResult * string * string * string) :=
  http_guard
    (do* present := job_exists job_id in
     if negb present then jraise (HTTPException 404 "Job not found")
     else
       do* job := get_job job_id in
       if negb (bool_decide (job_status job = "transcription_complete"))
       then jraise (HTTPException 400 "Transcription not ready for review")
       else
         do* transcription :=
           require "transcription_result" (job_transcription_result job) in
         do* source_language :=
           require "source_language" (job_source_language job) in
         do* target_language :=
           require "target_language" (job_target_language job) in
         jret (job_id, transcription, source_language, target_language,
               job_filename job)).

(** [continue_with_transcription] *)
Definition continue_with_transcription (job_id : string)
    (transcription : TranscriptionDict)
  : J (string * string * string * BackgroundTask) :=
  http_guard
    (do* present := job_exists job_id in
     if negb present then jraise (HTTPException 404 "Job not found")
     else
       do* job := get_job job_id in
       if negb (bool_decide (job_status job = "transcription_complete"))
       then jraise (HTTPException 400
                      "Job not ready for transcription continuation")
       else
         jret (job_id, "processing_continued",
               "Processing continued with edited transcription",
               ContinueProcessing job_id transcription)).

(** [original_filename.rsplit('.', 1)]: the parts around the last dot. *)
Fixpoint rsplit_dot_rev (after : list ascii) (l : list ascii)
  : option (string * string) :=
  match l with
  | [] => None
  | c :: l' =>
      if bool_decide (c = "."%char)
      then Some (of_chars (rev l'), of_chars after)
      else rsplit_dot_rev (c :: after) l'
  end.

Definition rsplit_dot (s : string) : option (string * string) :=
  rsplit_dot_rev [] (rev (chars s)).

(** A [StreamingResponse]: its content, its [Content-Disposition] file
    name, and whether its generator cleans the job up once read. *)
Record StreamingResponse := mkStreaming {
  sr_content : list Byte.byte;
  sr_filename : option string;
  sr_content_length : Z;
  sr_cleanup : option string
}.

(** [download_video] *)
Definition download_video (job_id : string) : J StreamingResponse :=
  http_guard
    (do* present := job_exists job_id in
     if negb present then jraise (HTTPException 404 "Job not found")
     else
       do* job := get_job job_id in
       if negb (bool_decide (job_status job = "completed"))
       then jraise (HTTPException 400 "Job not completed yet")
       else
         match job_result_video job with
         | None => jraise (HTTPException 404 "Processed video not found")
         | Some video_bytes =>
             match rsplit_dot (job_filename job) with
             | None =>
                 jraise (ValueError
                           "not enough values to unpack (expected 2, got 1)")
             | Some (name, ext) =>
                 jret (mkStreaming video_bytes
                         (Some (name +:+ "_subtitled." +:+ ext))
                         (len video_bytes) (Some job_id))
             end
         end).

(** [preview_video] *)
Definition preview_video (job_id : string) : J StreamingResponse :=
  http_guard
    (do* present := job_exists job_id in
     if negb present then jraise (HTTPException 404 "Job not found")
     else
       do* job := get_job job_id in
       if negb (bool_decide (job_status job = "completed"))
       then jraise (HTTPException 400 "Job not completed yet")
       else
         match job_result_video job with
         | None => jraise (HTTPException 404 "Processed video not found")
         | Some video_bytes =>
             jret (mkStreaming video_bytes None (len video_bytes) None)
         end).

(** Sending a response reads its generator to the end: [generate] yields
    the bytes and then calls [cleanup_job]. *)
Definition send_response (r : StreamingResponse) : J (list Byte.byte) :=
  match sr_cleanup r with
  | Some job_id =>
      do* present := job_exists job_id in
      (if present : bool then delete_job job_id else jret tt) >>>
      jret (sr_content r)
  | None => jret (sr_content r)
  end.


(** *** Reasoning about the registry *)

(** A computation that never removes the job [job_id]. *)
Definition keeps (job_id : string) {A} (m : J A) : Prop :=
  ∀ reg, is_Some (reg !! job_id) → is_Some ((m reg).2 !! job_id).

Lemma keeps_jret job_id {A} (a : A) : keeps job_id (jret a).
Proof. by intros reg H. Qed.

Lemma keeps_jraise job_id {A} e : keeps job_id (@jraise A e).
Proof. by intros reg H. Qed.

Lemma keeps_lift job_id {A} (r : result A) : keeps job_id (lift r).
Proof. by intros reg H. Qed.

Lemma keeps_require job_id {A} key (v : option A) : keeps job_id (require key v).
Proof. destruct v; [apply keeps_jret|apply keeps_jraise]. Qed.

Lemma keeps_get_job job_id id : keeps job_id (get_job id).
Proof. intros reg H. unfold get_job. by destruct (reg !! id). Qed.

Lemma keeps_job_exists job_id id : keeps job_id (job_exists id).
Proof. by intros reg H. Qed.

Lemma keeps_update_job job_id id f : keeps job_id (update_job id f).
Proof.
  intros reg [j Hj]. unfold update_job. simpl.
  destruct (decide (id = job_id)) as [->|Hne].
  - rewrite lookup_alter_eq, Hj. by eexists.
  - rewrite lookup_alter_ne by done. by eexists.
Qed.

Lemma keeps_jbind job_id {A B} (m : J A) (f : A → J B) :
  keeps job_id m → (∀ a, keeps job_id (f a)) → keeps job_id (jbind m f).
Proof.
  intros Hm Hf reg H. unfold jbind. specialize (Hm reg H).
  destruct (m reg) as [[e|a] reg']; [done|]. by apply Hf.
Qed.

Lemma keeps_if job_id {A} (b : bool) (m1 m2 : J A) :
  keeps job_id m1 → keeps job_id m2 → keeps job_id (if b then m1 else m2).
Proof. by destruct b. Qed.

Lemma keeps_segments_of_dicts job_id l : keeps job_id (segments_of_dicts l).
Proof.
  induction l as [|seg l IH]; simpl; [apply keeps_jret|].
  repeat (apply keeps_jbind; [apply keeps_require|intros ?]).
  apply keeps_jbind; [apply IH|intros ?]. apply keeps_jret.
Qed.

Ltac keeps_tac :=
  repeat first
    [ apply keeps_jret | apply keeps_jraise | apply keeps_lift
    | apply keeps_require | apply keeps_get_job | apply keeps_job_exists
    | apply keeps_update_job | apply keeps_segments_of_dicts
    | apply keeps_if
    | apply keeps_jbind; [|intros ?] ].

Lemma keeps_process_video_body c job_id video_data tgt src :
  keeps job_id (process_video_body c job_id video_data tgt src).
Proof. unfold process_video_body. keeps_tac. Qed.

Lemma keeps_continue_processing_body c job_id edited :
  keeps job_id (continue_processing_body c job_id edited).
Proof. unfold continue_processing_body. keeps_tac. Qed.

Lemma record_failure_spec job_id e reg j :
  reg !! job_id = Some j →
  record_failure job_id e reg
  = (inr tt,
     <[job_id := set_progress 0 (set_error (str_exn e) (set_status "failed" j))]>
       reg).
Proof.
  intros Hj. unfold record_failure, jbind, job_exists, update_job. simpl.
  rewrite bool_decide_eq_true_2 by by eexists. simpl. f_equal.
  apply map_eq. intros k. destruct (decide (k = job_id)) as [->|Hne].
  - by rewrite !lookup_alter_eq, Hj, lookup_insert_eq.
  - by rewrite !lookup_alter_ne, lookup_insert_ne.
Qed.

Lemma try_record_failure (body : J unit) job_id reg j :
  keeps job_id body → reg !! job_id = Some j →
  ∃ reg', try_except body (record_failure job_id) reg = (inr tt, reg') ∧
    match (body reg).1 with
    | inl e =>
        ∃ j', reg' !! job_id = Some j' ∧ job_status j' = "failed" ∧
              job_error j' = Some (str_exn e) ∧ job_progress j' = 0%Z
    | inr _ => reg' = (body reg).2
    end.
Proof.
  intros Hk Hj. unfold try_except.
  specialize (Hk reg (ltac:(by eexists))).
  destruct (body reg) as [[e|[]] reg1]; simpl in *.
  - destruct Hk as [j1 Hj1]. rewrite (record_failure_spec _ _ _ _ Hj1).
    eexists. split; [done|]. eexists. rewrite lookup_insert_eq. done.
  - by eexists.
Qed.

(** What holds of the result and the registry when a computation returns. *)
Definition post {A} (m : J A) (reg : registry) (Q : A → registry → Prop)
  : Prop :=
  match m reg with
  | (inr a, reg') => Q a reg'
  | (inl _, _) => True
  end.

Lemma post_jret {A} (a : A) reg (Q : A → registry → Prop) :
  Q a reg → post (jret a) reg Q.
Proof. done. Qed.

Lemma post_jraise {A} e reg (Q : A → registry → Prop) :
  post (jraise e) reg Q.
Proof. done. Qed.

Lemma post_jbind {A B} (m : J A) (f : A → J B) reg (Q : B → registry → Prop) :
  post m reg (λ a reg', post (f a) reg' Q) → post (jbind m f) reg Q.
Proof. unfold post, jbind. by destruct (m reg) as [[e|a] reg']. Qed.

Lemma post_lift {A} (r : result A) reg (Q : A → registry → Prop) :
  (∀ a, r = inr a → Q a reg) → post (lift r) reg Q.
Proof. unfold post, lift. destruct r; auto. Qed.

Lemma post_require {A} key (v : option A) reg (Q : A → registry → Prop) :
  (∀ a, v = Some a → Q a reg) → post (require key v) reg Q.
Proof. unfold post, require. destruct v; simpl; auto. Qed.

Lemma post_get_job job_id reg (Q : Job → registry → Prop) :
  (∀ j, reg !! job_id = Some j → Q j reg) → post (get_job job_id) reg Q.
Proof. unfold post, get_job. destruct (reg !! job_id); auto. Qed.

Lemma post_update_job job_id f reg (Q : unit → registry → Prop) :
  Q tt (alter f job_id reg) → post (update_job job_id f) reg Q.
Proof. done. Qed.

Lemma post_segments_of_dicts l reg (Q : list TranscriptionSegment → registry → Prop) :
  (∀ segments, Q segments reg) → post (segments_of_dicts l) reg Q.
Proof.
  revert Q. induction l as [|seg l IH]; intros Q HQ; simpl.
  - by apply post_jret.
  - repeat (apply post_jbind, post_require; intros ? _).
    apply post_jbind, IH. intros segments. by apply post_jret.
Qed.

Lemma post_mono {A} (m : J A) reg (Q Q' : A → registry → Prop) :
  post m reg Q → (∀ a reg', Q a reg' → Q' a reg') → post m reg Q'.
Proof. unfold post. destruct (m reg) as [[e|a] reg']; auto. Qed.

Lemma post_returns {A} (m : J A) reg a reg' (Q : A → registry → Prop) :
  post m reg Q → m reg = (inr a, reg') → Q a reg'.
Proof. unfold post. intros H E. by rewrite E in H. Qed.

Ltac post_step :=
  first
    [ apply post_jbind
    | apply post_update_job
    | apply post_get_job; intros ? ?
    | apply post_require; intros ? ?
    | apply post_lift; intros ? ?
    | apply post_segments_of_dicts; intros ?
    | apply post_jret
    | match goal with
      | |- post (if ?b then _ else _) _ _ => destruct b
      end ].

Ltac post_run := repeat post_step.

Lemma continue_processing_body_post c job_id edited reg j :
  reg !! job_id = Some j →
  post (continue_processing_body c job_id edited) reg
    (λ _ reg',
       ∃ j', reg' !! job_id = Some j' ∧
             job_status j' = "completed" ∧ job_progress j' = 100%Z ∧
             is_Some (job_result_video j') ∧
             job_video_data j' = None ∧ job_transcription_result j' = None ∧
             job_completed_at j' = Some (now c) ∧
             job_filename j' = job_filename j).
Proof.
  intros Hj. unfold continue_processing_body. post_run.
  all: rewrite !lookup_alter_eq, Hj; simpl.
  all: eexists; split; [done|]; simpl; split_and!; by eauto.
Qed.

Lemma process_video_body_post c job_id video_data tgt src reg j :
  reg !! job_id = Some j →
  post (process_video_body c job_id video_data tgt src) reg
    (λ _ reg',
       ∃ j' tr, reg' !! job_id = Some j' ∧
             job_status j' = "transcription_complete" ∧
             job_progress j' = 60%Z ∧
             job_transcription_result j' = Some tr ∧
             is_Some (job_source_language j') ∧
             job_video_data j' = job_video_data j ∧
             job_filename j' = job_filename j ∧
             job_target_language j' = job_target_language j).
Proof.
  intros Hj. unfold process_video_body. post_run.
  rewrite !lookup_alter_eq, Hj; simpl.
  eexists _, _; split; [done|]; simpl; split_and!; by eauto.
Qed.

Lemma background_task_outcome (body : J unit) job_id reg j
    (Q : registry → Prop) :
  keeps job_id body → reg !! job_id = Some j →
  post body reg (λ _ reg', Q reg') →
  ∃ reg' j',
    try_except body (record_failure job_id) reg = (inr tt, reg') ∧
    reg' !! job_id = Some j' ∧
    match (body reg).1 with
    | inl e => job_status j' = "failed" ∧ job_error j' = Some (str_exn e) ∧
               job_progress j' = 0%Z
    | inr _ => Q reg'
    end.
Proof.
  intros Hk Hj HQ.
  destruct (try_record_failure body job_id reg j Hk Hj) as (reg' & Hrun & H).
  specialize (Hk reg (ltac:(by eexists))).
  unfold post in HQ.
  destruct (body reg) as [[e|[]] reg1]; simpl in *.
  - destruct H as (j' & ? & ?). by exists reg', j'.
  - subst reg1. destruct Hk as [j' Hj']. by exists reg', j'.
Qed.

(** C8: failures of the background tasks.  For a job of the registry, each
    background task returns without raising, and when its body raises an
    exception [e] at any stage the job is left with status [failed], error
    [str(e)] and progress 0; when the body returns, the job has reached
    the next checkpoint ([transcription_complete] at 60, or [completed] at
    100), so it is never left at an intermediate status. *)
Theorem background_tasks_record_failure (c : Collaborators)
    (job_id : string) (reg : registry) (job : Job) :
  reg !! job_id = Some job →
  (∀ video_data target_language source_language,
     ∃ reg' j',
       process_video_background c job_id video_data target_language
         source_language reg = (inr tt, reg') ∧
       reg' !! job_id = Some j' ∧
       match (process_video_body c job_id video_data target_language
                source_language reg).1 with
       | inl e => job_status j' = "failed" ∧
                  job_error j' = Some (str_exn e) ∧ job_progress j' = 0%Z
       | inr _ => job_status j' = "transcription_complete" ∧
                  job_progress j' = 60%Z
       end) ∧
  (∀ edited_transcription,
     ∃ reg' j',
       continue_processing_after_transcription c job_id edited_transcription
         reg = (inr tt, reg') ∧
       reg' !! job_id = Some j' ∧
       match (continue_processing_body c job_id edited_transcription reg).1 with
       | inl e => job_status j' = "failed" ∧
                  job_error j' = Some (str_exn e) ∧ job_progress j' = 0%Z
       | inr _ => job_status j' = "completed" ∧ job_progress j' = 100%Z
       end).
Proof.
  intros Hj. split.
  - intros video_data tgt src.
    destruct (background_task_outcome
                (process_video_body c job_id video_data tgt src) job_id reg job
                (λ reg', ∃ j', reg' !! job_id = Some j' ∧
                   job_status j' = "transcription_complete" ∧
                   job_progress j' = 60%Z))
      as (reg' & j' & Hrun & Hj' & H).
    + apply keeps_process_video_body.
    + done.
    + eapply post_mono; [by apply process_video_body_post|].
      intros _ reg0 (j0 & tr & ? & ? & ? & _). by exists j0.
    + exists reg', j'. split_and!; [done..|].
      destruct (process_video_body _ _ _ _ _ _).1; [done|].
      destruct H as (j'' & Hj'' & ?). by simplify_eq.
  - intros edited.
    destruct (background_task_outcome
                (continue_processing_body c job_id edited) job_id reg job
                (λ reg', ∃ j', reg' !! job_id = Some j' ∧
                   job_status j' = "completed" ∧ job_progress j' = 100%Z))
      as (reg' & j' & Hrun & Hj' & H).
    + apply keeps_continue_processing_body.
    + done.
    + eapply post_mono; [by apply continue_processing_body_post|].
      intros _ reg0 (j0 & ? & ? & ? & _). by exists j0.
    + exists reg', j'. split_and!; [done..|].
      destruct (continue_processing_body _ _ _ _).1; [done|].
      destruct H as (j'' & Hj'' & ?). by simplify_eq.
Qed.

Definition failing_collaborators : Collaborators :=
  mkCollaborators (λ _, inr tt) (inr tt)
    (λ _, inl (Exception "Audio extraction failed: no audio stream"))
    (λ _ _, inr (mkResult "" [] None None))
    sample_engine (λ _, inr tt) (λ video _, inr video) "2026-01-01T00:00:00".

Definition uploaded_job : Job :=
  mkJob "uploaded" "clip.mp4" (Some []) "2026-01-01T00:00:00" 0
    None None None None None None.

Definition one_job : registry := {["job-1" := uploaded_job]}.

Lemma background_tasks_record_failure_witness :
  (∀ video_data target_language source_language,
     ∃ reg' j',
       process_video_background failing_collaborators "job-1" video_data
         target_language source_language one_job = (inr tt, reg') ∧
       reg' !! "job-1" = Some j' ∧
       match (process_video_body failing_collaborators "job-1" video_data
                target_language source_language one_job).1 with
       | inl e => job_status j' = "failed" ∧
                  job_error j' = Some (str_exn e) ∧ job_progress j' = 0%Z
       | inr _ => job_status j' = "transcription_complete" ∧
                  job_progress j' = 60%Z
       end) ∧
  (∀ edited_transcription,
     ∃ reg' j',
       continue_processing_after_transcription failing_collaborators "job-1"
         edited_transcription one_job = (inr tt, reg') ∧
       reg' !! "job-1" = Some j' ∧
       match (continue_processing_body failing_collaborators "job-1"
                edited_transcription one_job).1 with
       | inl e => job_status j' = "failed" ∧
                  job_error j' = Some (str_exn e) ∧ job_progress j' = 0%Z
       | inr _ => job_status j' = "completed" ∧ job_progress j' = 100%Z
       end).
Proof.
  apply (background_tasks_record_failure failing_collaborators "job-1"
           one_job uploaded_job).
  reflexivity.
Defined.

(** The failing stage of [failing_collaborators] is recorded in the job. *)
Lemma extract_audio_failure_recorded :
  ∃ reg',
    process_video_background failing_collaborators "job-1" [] "es" None one_job
    = (inr tt, reg') ∧
    reg' !! "job-1"
    = Some (mkJob "failed" "clip.mp4" (Some []) "2026-01-01T00:00:00" 0
              None None None
              (Some "Audio extraction failed: no audio stream") None None).
Proof. eexists. split; [reflexivity|]. by vm_compute. Qed.

Lemma split_long_segment_parts_witness :
  let seg := mkSegment 0 15 "one two three four five six" (Some 1%Q) in
  let h := fresh_result [seg] in
  ∃ r h' locs parts,
    _split_long_segment 0 7 h = Some (r, h') ∧
    lsts h' !! r = Some locs ∧
    deref h' locs = Some parts ∧
    len parts = (Qfloor ((end_ seg - start seg) / 7) + 1)%Z ∧
    (total_duration parts == end_ seg - start seg)%Q ∧
    Forall (λ p, confidence p = confidence seg) parts ∧
    join " " (text <$> parts) = join " " (split (text seg)) ∧
    join " " (text <$> parts) = "one two three four five six".
Proof.
  intros seg h.
  destruct (split_long_segment_parts h 0 seg)
    as (r & h' & locs & parts & Hrun & Hl & Hd & Hlen & Htot & Hconf & Htext);
    [reflexivity|reflexivity|reflexivity|].
  destruct Htext as [Hjoin Horig].
  { rewrite Hlen. vm_compute. discriminate. }
  exists r, h', locs, parts.
  do 6 (split; [assumption|]). split; [exact Hjoin|].
  apply Horig. exists ["one"; "two"; "three"; "four"; "five"; "six"].
  split; [|reflexivity].
  repeat constructor; discriminate.
Defined.

Definition empty_transcription : TranscriptionDict :=
  mkTranscriptionDict (Some "") (Some []) (Some None) (Some None).

Definition completed_job (filename : string) : Job :=
  mkJob "completed" filename None "2026-01-01T00:00:00" 100
    (Some "es") (Some "en") None None (Some [Byte.x78; Byte.x79])
    (Some "2026-01-01T00:05:00").

(** C9, the code at the failing inputs.  The status codes 400 and 404 that
    the endpoints raise are caught by their own [except Exception] and
    leave as status 500, with the original code only in the detail text:
    for [continue_with_transcription] on a job that is still [uploaded],
    and for the second [download_video] after the first one purged the
    job.  A completed job whose file name has no dot cannot be downloaded
    at all, and stays in the registry. *)
Theorem continue_and_download_errors_are_http_500 :
  continue_with_transcription "job-1" empty_transcription one_job
  = (inl (HTTPException 500
            "400: Job not ready for transcription continuation"), one_job) ∧
  (let reg : registry := {["job-2" := completed_job "clip.mp4"]} in
   ∃ response,
     download_video "job-2" reg = (inr response, reg) ∧
     sr_content response = [Byte.x78; Byte.x79] ∧
     sr_filename response = Some "clip_subtitled.mp4" ∧
     send_response response reg = (inr [Byte.x78; Byte.x79], ∅) ∧
     download_video "job-2" ∅
     = (inl (HTTPException 500 "404: Job not found"), ∅)) ∧
  (let reg : registry := {["job-3" := completed_job "clip"]} in
   download_video "job-3" reg
   = (inl (HTTPException 500
             "not enough values to unpack (expected 2, got 1)"), reg)).
Proof.
  split_and!.
  - by vm_compute.
  - eexists. split_and!; by vm_compute.
  - by vm_compute.
Qed.
(** * Further properties *)

(** ** services/subtitle_service.py *)

Lemma split_parts_chain words d N wpp conf idxs : ∀ cs,
  let parts := split_parts words d N wpp conf cs idxs in
  (∀ p, parts !! 0%nat = Some p → start p = cs) ∧
  (∀ i p q, parts !! i = Some p → parts !! S i = Some q → start q = end_ p).
Proof.
  induction idxs as [|i idxs IH]; intros cs; simpl.
  { split; [intros p H|intros j p q H _]; try rewrite lookup_nil in H; done. }
  destruct (len words <=? Z.of_nat i * wpp)%Z.
  { split; [intros p H|intros j p q H _]; try rewrite lookup_nil in H; done. }
  destruct (IH (cs + d / inject_Z N)%Q) as [IH0 IHS]. split.
  - by intros p [= <-].
  - intros [|j] p q Hp Hq.
    + injection Hp as <-. simpl. by apply IH0.
    + by apply (IHS j).
Qed.

Lemma split_parts_last_end words d N wpp conf idxs : ∀ cs p,
  let parts := split_parts words d N wpp conf cs idxs in
  last parts = Some p →
  (end_ p == cs + inject_Z (len parts) * (d / inject_Z N))%Q.
Proof.
  unfold len.
  induction idxs as [|i idxs IH]; intros cs p; simpl; [done|].
  destruct (len words <=? Z.of_nat i * wpp)%Z; [done|].
  specialize (IH (cs + d / inject_Z N)%Q p). simpl in IH.
  destruct (split_parts words d N wpp conf (cs + d / inject_Z N) idxs)
    as [|p' ps] eqn:E.
  - intros [= <-]. simpl. generalize (d / inject_Z N)%Q. intros x.
    change (inject_Z (Z.of_nat 1)) with 1%Q. lra.
  - intros Hl. rewrite IH by done.
    rewrite !length_cons, !Nat2Z.inj_succ. unfold Z.succ.
    rewrite !inject_Z_plus. generalize (d / inject_Z N)%Q. intros x.
    change (inject_Z 1) with 1%Q. lra.
Qed.

(** X1: a segment of at most one word is never split, whatever its
    duration and the maximum duration: [_split_long_segment] returns a
    list holding the segment object itself, creates no segment and
    modifies none. *)
Theorem split_long_segment_single_word h a seg max_duration :
  objs h !! a = Some seg →
  (len (split (text seg)) <= 1)%Z →
  ∃ r h',
    _split_long_segment a max_duration h = Some (r, h') ∧
    lsts h' !! r = Some [a] ∧
    objs h' = objs h.
Proof.
  intros Ha Hw. eexists _, _.
  split; [by apply (split_long_segment_one a max_duration seg h)|].
  split; [|done]. simpl.
  rewrite lookup_app_r by lia.
  by replace (S (length (lsts h)) - length (lsts h))%nat with 1%nat by lia.
Qed.

Lemma split_long_segment_single_word_witness :
  ∃ r h',
    _split_long_segment 0 7 (fresh_result [mkSegment 0 30 "Aaaaaaaah" None])
    = Some (r, h') ∧
    lsts h' !! r = Some [0%nat] ∧
    objs h' = objs (fresh_result [mkSegment 0 30 "Aaaaaaaah" None]).
Proof.
  apply (split_long_segment_single_word
           (fresh_result [mkSegment 0 30 "Aaaaaaaah" None]) 0
           (mkSegment 0 30 "Aaaaaaaah" None) 7).
  - reflexivity.
  - vm_compute. discriminate.
Defined.

(** X2: the parts of a split segment tile its interval.  For a segment
    longer than 7 s with more than one word, the returned parts are new
    objects; the first starts where the segment starts, each next part
    starts exactly where the previous one ends, the last ends where the
    segment ends, and the segment object itself is left as it was. *)
Theorem split_long_segment_tiles h a seg :
  objs h !! a = Some seg →
  (7 < end_ seg - start seg)%Q → (1 < len (split (text seg)))%Z →
  ∃ r h' locs parts,
    _split_long_segment a 7 h = Some (r, h') ∧
    lsts h' !! r = Some locs ∧
    deref h' locs = Some parts ∧
    Forall (λ b, length (objs h) ≤ b)%nat locs ∧
    objs h' !! a = Some seg ∧
    (∃ p, parts !! 0%nat = Some p ∧ start p = start seg) ∧
    (∀ i p q, parts !! i = Some p → parts !! S i = Some q →
       start q = end_ p) ∧
    (∃ q, last parts = Some q ∧ (end_ q == end_ seg)%Q).
Proof.
  intros Ha HD Hw.
  set (words := split (text seg)) in *.
  set (D := (end_ seg - start seg)%Q) in *.
  pose proof (num_parts_ge_2 D HD) as HN.
  set (N := (py_int (D / 7) + 1)%Z) in *.
  set (wpp := (len words / N)%Z).
  set (parts := split_parts words D N wpp (confidence seg) (start seg)
                  (seq 0 (Z.to_nat N))).
  assert (0 <= wpp)%Z as Hwpp by (apply Z.div_pos; unfold len; lia).
  assert (wpp * N <= len words)%Z as Hfit
    by (rewrite Z.mul_comm; apply Z.mul_div_le; lia).
  assert (length parts = Z.to_nat N) as Hlen
    by (apply split_parts_length; lia).
  destruct (split_parts_chain words D N wpp (confidence seg)
              (seq 0 (Z.to_nat N)) (start seg)) as [Hhead Hchain].
  fold parts in Hhead, Hchain.
  exists (length (lsts h)), (mkHeap (objs h ++ parts)
            (lsts h ++ [seq (length (objs h)) (length parts)])),
    (seq (length (objs h)) (length parts)), parts.
  split_and!.
  - apply (split_long_segment_many a 7 seg h Ha); [done|fold D N; lia].
  - simpl. by rewrite lookup_app_r, Nat.sub_diag.
  - apply deref_fresh.
  - apply Forall_forall. intros b Hb. apply elem_of_seq in Hb. lia.
  - simpl. apply lookup_app_l_Some. done.
  - destruct parts as [|p ps] eqn:E; [simpl in Hlen; lia|].
    exists p. split; [done|]. by apply Hhead.
  - done.
  - destruct (last parts) as [q|] eqn:El.
    + exists q. split; [done|].
      rewrite (split_parts_last_end words D N wpp (confidence seg)
                 (seq 0 (Z.to_nat N)) (start seg) q El).
      fold parts. unfold len. rewrite Hlen, Z2Nat.id by lia.
      unfold D. field.
      intros E. assert (inject_Z 2 <= inject_Z N)%Q as H2
        by (rewrite <- Zle_Qle; lia).
      rewrite E in H2. compute in H2. by apply H2.
    + apply last_None in El. rewrite El in Hlen. simpl in Hlen. lia.
Qed.

Lemma split_long_segment_tiles_witness :
  ∃ r h' locs parts,
    _split_long_segment 0 7
      (fresh_result [mkSegment 2 12 "one two three four" None])
    = Some (r, h') ∧
    lsts h' !! r = Some locs ∧
    deref h' locs = Some parts ∧
    Forall (λ b, 1 ≤ b)%nat locs ∧
    objs h' !! 0%nat = Some (mkSegment 2 12 "one two three four" None) ∧
    (∃ p, parts !! 0%nat = Some p ∧ start p = 2%Q) ∧
    (∀ i p q, parts !! i = Some p → parts !! S i = Some q →
       start q = end_ p) ∧
    (∃ q, last parts = Some q ∧ (end_ q == 12)%Q).
Proof.
  apply (split_long_segment_tiles
           (fresh_result [mkSegment 2 12 "one two three four" None]) 0
           (mkSegment 2 12 "one two three four" None)).
  - reflexivity.
  - reflexivity.
  - reflexivity.
Defined.

(** The references of [l] are in the order of their keys. *)
Fixpoint sorted_by (k : loc → Q) (l : list loc) : Prop :=
  match l with
  | [] => True
  | a :: l' =>
      match l' with
      | [] => True
      | b :: _ => (k a <= k b)%Q
      end ∧ sorted_by k l'
  end.

Lemma sort_by_sorted k l : sorted_by k l → sort_by k l = l.
Proof.
  induction l as [|a l IH]; intros Hs; [done|].
  simpl in *. destruct Hs as [Hab Hs]. rewrite IH by done.
  destruct l as [|b l]; [done|]. simpl.
  destruct (Qltb (k b) (k a)) eqn:E; [|done].
  apply Qltb_lt in E. lra.
Qed.

Lemma insert_by_sorted k a l : sorted_by k l → sorted_by k (insert_by k a l).
Proof.
  induction l as [|b l IH]; intros Hs; [done|].
  simpl. destruct (Qltb (k b) (k a)) eqn:E.
  - apply Qltb_lt in E. destruct Hs as [Hb Hs]. specialize (IH Hs).
    split; [|done]. destruct l as [|c l]; simpl in *; [lra|].
    destruct (Qltb (k c) (k a)); [done|lra].
  - apply Qltb_ge in E. by split.
Qed.

Lemma sort_by_is_sorted k l : sorted_by k (sort_by k l).
Proof.
  induction l as [|a l IH]; [done|]. simpl. by apply insert_by_sorted.
Qed.

Lemma chain_sorted h l :
  Forall (good_at h) l → chain_in h l → sorted_by (key_start h) l.
Proof.
  induction l as [|a l IH]; intros Hg Hc; [done|].
  apply Forall_cons in Hg as [(sa & Hsa & Hga) Hg]. split.
  - destruct l as [|b l]; [done|].
    apply Forall_cons in Hg as [(sb & Hsb & Hgb) _].
    pose proof (Hc 0%nat a b sa sb eq_refl eq_refl Hsa Hsb) as Hle.
    unfold key_start. rewrite Hsa, Hsb. unfold good in *. lra.
  - apply IH; [done|]. intros i x y sx sy Hx Hy. by apply (Hc (S i)).
Qed.

Lemma overlaps_loop_clean cl l : ∀ h c,
  lsts h !! cl = Some c →
  Forall (λ a, is_Some (objs h !! a)) (c ++ l) →
  chain_in h (c ++ l) →
  overlaps_loop cl l h
  = Some (tt, mkHeap (objs h) (<[cl := c ++ l]> (lsts h))).
Proof.
  induction l as [|a l IH]; intros h c Hc Hval Hchain.
  { simpl. unfold ret. destruct h as [ob ls]; simpl in *.
    by rewrite app_nil_r, list_insert_id. }
  assert (is_Some (objs h !! a)) as [sa Ha].
  { rewrite Forall_app, Forall_cons in Hval. tauto. }
  assert (overlaps_body cl a h
          = Some (tt, mkHeap (objs h) (<[cl := c ++ [a]]> (lsts h)))) as Hbody.
  { unfold overlaps_body.
    erewrite bind_Some; last by apply get_list_Some.
    destruct (last c) as [b|] eqn:Eb; [|by apply list_append_Some].
    assert (is_Some (objs h !! b)) as [sb Hb].
    { rewrite Forall_app, Forall_forall in Hval. apply Hval.
      apply last_Some in Eb as [c' ->].
      apply elem_of_app. right. by apply list_elem_of_singleton. }
    erewrite bind_Some; last by apply get_segment_Some.
    erewrite bind_Some; last by apply get_segment_Some.
    assert (end_ sb <= start sa)%Q as Hle.
    { apply last_Some in Eb as [c' ->].
      apply (Hchain (length c') b a sb sa); [| |done|done].
      - rewrite <- app_assoc. simpl. by apply list_lookup_middle.
      - apply list_lookup_middle. rewrite length_app. simpl. lia. }
    destruct (Qltb (start sa) (end_ sb)) eqn:E.
    { apply Qltb_lt in E. lra. }
    erewrite bind_Some; last done.
    by apply list_append_Some. }
  simpl. erewrite bind_Some; last apply Hbody.
  rewrite (IH _ (c ++ [a])); simpl.
  - by rewrite list_insert_insert_eq, <- app_assoc.
  - apply list_lookup_insert_eq. by eapply lookup_lt_Some.
  - by rewrite <- app_assoc.
  - by rewrite <- app_assoc.
Qed.

(** X3: [_remove_overlaps] leaves a clean list alone.  When every segment
    of the list ends after it starts and no segment starts before its
    predecessor ends, the call returns a list with the same references in
    the same order and changes no segment. *)
Theorem remove_overlaps_clean_unchanged h r l :
  lsts h !! r = Some l →
  Forall (good_at h) l →
  chain_in h l →
  ∃ r' h',
    _remove_overlaps r h = Some (r', h') ∧
    lsts h' !! r' = Some l ∧
    objs h' = objs h.
Proof.
  intros Hr Hgood Hchain. unfold _remove_overlaps.
  erewrite bind_Some; last by apply get_list_Some.
  destruct l as [|a0 l0]; [by exists r, h|].
  set (l := a0 :: l0) in *.
  assert (Forall (λ a, is_Some (objs h !! a)) l) as Hval.
  { eapply Forall_impl; [apply Hgood|]. intros b (s & -> & _). by eexists. }
  assert (r < length (lsts h))%nat as Hrlt by by eapply lookup_lt_Some.
  assert (sort_by_start r h = Some (tt, h)) as Hsort.
  { unfold sort_by_start. erewrite bind_Some; last by apply get_list_Some.
    destruct (proj2 (mapM_is_Some _ _) Hval) as [vs Hvs].
    unfold deref. rewrite Hvs.
    rewrite (sort_by_sorted (key_start h) l) by by apply chain_sorted.
    erewrite set_list_Some; last done.
    destruct h as [ob ls]; simpl in *. by rewrite list_insert_id. }
  erewrite bind_Some; last apply Hsort.
  erewrite bind_Some; last by apply get_list_Some.
  unfold bind at 1. unfold new_list.
  set (h2 := mkHeap (objs h) (lsts h ++ [[]])).
  erewrite bind_Some; last first.
  { apply (overlaps_loop_clean (length (lsts h)) l h2 []); try done.
    simpl. by rewrite lookup_app_r, Nat.sub_diag. }
  eexists _, _. split; [done|]. simpl. split; [|done].
  apply list_lookup_insert_eq. rewrite length_app. simpl. lia.
Qed.

Lemma remove_overlaps_clean_unchanged_witness :
  ∃ r' h',
    _remove_overlaps 0
      (fresh_result [mkSegment 0 2 "a" None; mkSegment 2 3 "b" None])
    = Some (r', h') ∧
    lsts h' !! r' = Some [0%nat; 1%nat] ∧
    objs h' = [mkSegment 0 2 "a" None; mkSegment 2 3 "b" None].
Proof.
  apply (remove_overlaps_clean_unchanged
           (fresh_result [mkSegment 0 2 "a" None; mkSegment 2 3 "b" None])
           0 [0%nat; 1%nat]).
  - reflexivity.
  - repeat constructor; eexists; (split; [reflexivity|reflexivity]).
  - intros [|[|i]] a b sa sb Ha Hb Hsa Hsb; simpl in *; simplify_eq.
    injection Hsa as <-. injection Hsb as <-. vm_compute. discriminate.
Defined.

Lemma remove_overlaps_perm h r l :
  lsts h !! r = Some l →
  Forall (λ a, a < length (objs h))%nat l →
  ∃ r' h' out,
    _remove_overlaps r h = Some (r', h') ∧
    lsts h' !! r' = Some out ∧
    lsts h' !! r = Some out ∧
    out ≡ₚ l ∧
    sorted_by (key_start h) out ∧
    (l = [] → r' = r ∧ h' = h) ∧
    (l ≠ [] → r' ≠ r) ∧
    grows h h' ∧
    length (objs h') = length (objs h).
Proof.
  intros Hr Hval. unfold _remove_overlaps.
  erewrite bind_Some; last by apply get_list_Some.
  destruct l as [|a0 l0].
  { exists r, h, []. split_and!; try done. apply grows_refl. }
  set (l := a0 :: l0) in *.
  set (sorted := sort_by (key_start h) l).
  assert (r < length (lsts h))%nat as Hrlt by by eapply lookup_lt_Some.
  set (h1 := mkHeap (objs h) (<[r := sorted]> (lsts h))).
  set (h2 := mkHeap (objs h) (<[r := sorted]> (lsts h) ++ [[]])).
  assert (sorted ≡ₚ l) as Hperm by apply sort_by_perm.
  destruct (overlaps_loop_spec (length (lsts h)) sorted h2 [])
    as (h' & Hrun & Hl' & Hlen' & Hg' & _).
  { simpl. rewrite lookup_app_r by by rewrite length_insert.
    by rewrite length_insert, Nat.sub_diag. }
  { simpl. by rewrite Hperm. }
  exists (length (lsts h)), h', sorted. split_and!.
  - erewrite bind_Some; last first.
    { unfold sort_by_start. erewrite bind_Some; last by apply get_list_Some.
      destruct (deref_valid h l Hval) as [vs ->].
      by apply set_list_Some with l. }
    fold sorted h1.
    erewrite bind_Some; last first.
    { apply get_list_Some. simpl. by apply list_lookup_insert_eq. }
    unfold bind at 1. unfold new_list. simpl. rewrite length_insert.
    fold h2. erewrite bind_Some; last apply Hrun. done.
  - rewrite Hl'. simpl. apply list_lookup_insert_eq.
    rewrite length_app, length_insert. simpl. lia.
  - rewrite Hl'. simpl. rewrite list_lookup_insert_ne by lia.
    rewrite lookup_app_l by by rewrite length_insert.
    by apply list_lookup_insert_eq.
  - done.
  - apply sort_by_is_sorted.
  - done.
  - intros _. lia.
  - apply (grows_trans h h2 h'); [|done]. intros b s Hb. exists s.
    split_and!; auto; lra.
  - by rewrite Hlen'.
Qed.


(** X4: [_remove_overlaps] keeps every segment and sorts in place.  The
    returned list holds exactly the references of the argument, none
    dropped and none repeated, in the order of the start times at the
    call; the argument list object itself has been put into that same
    order.  An empty argument is returned as it is; otherwise the returned
    list is a new object. *)
Theorem remove_overlaps_reorders h r l :
  lsts h !! r = Some l →
  Forall (λ a, a < length (objs h))%nat l →
  ∃ r' h' out,
    _remove_overlaps r h = Some (r', h') ∧
    lsts h' !! r' = Some out ∧
    lsts h' !! r = Some out ∧
    out ≡ₚ l ∧
    sorted_by (key_start h) out ∧
    (l = [] → r' = r ∧ h' = h) ∧
    (l ≠ [] → r' ≠ r).
Proof.
  intros Hr Hval.
  destruct (remove_overlaps_perm h r l Hr Hval)
    as (r' & h' & out & ? & ? & ? & ? & ? & ? & ? & _).
  by exists r', h', out.
Qed.

Lemma remove_overlaps_reorders_witness :
  ∃ r' h' out,
    _remove_overlaps 0
      (fresh_result [mkSegment 5 7 "b" None; mkSegment 0 2 "a" None])
    = Some (r', h') ∧
    lsts h' !! r' = Some out ∧
    lsts h' !! 0%nat = Some out ∧
    out ≡ₚ [0%nat; 1%nat] ∧
    sorted_by
      (key_start (fresh_result [mkSegment 5 7 "b" None; mkSegment 0 2 "a" None]))
      out ∧
    ([0%nat; 1%nat] = [] → r' = 0%nat ∧
       h' = fresh_result [mkSegment 5 7 "b" None; mkSegment 0 2 "a" None]) ∧
    ([0%nat; 1%nat] ≠ [] → r' ≠ 0%nat).
Proof.
  apply (remove_overlaps_reorders
           (fresh_result [mkSegment 5 7 "b" None; mkSegment 0 2 "a" None])
           0 [0%nat; 1%nat]).
  - reflexivity.
  - repeat constructor.
Defined.

(** X5: normalisation only delays.  Whatever the list,
    [_optimize_segments_for_subtitles] returns, and every segment object
    that existed before the call still exists after it with the same text
    and confidence, a start that is not earlier and an end that is not
    earlier. *)
Theorem optimize_only_delays h r l :
  lsts h !! r = Some l →
  Forall (λ a, a < length (objs h))%nat l →
  ∃ r' h',
    _optimize_segments_for_subtitles r h = Some (r', h') ∧
    ∀ a s, objs h !! a = Some s →
      ∃ s', objs h' !! a = Some s' ∧
            text s' = text s ∧ confidence s' = confidence s ∧
            (start s <= start s')%Q ∧ (end_ s <= end_ s')%Q.
Proof.
  intros Hr Hval.
  destruct (optimize_spec r h l Hr Hval)
    as (r' & h' & out & Hrun & _ & _ & _ & Hg & _).
  exists r', h'. split; [done|]. intros a s Ha.
  destruct (Hg a s Ha) as (s' & ? & ? & ? & ? & ? & _). by exists s'.
Qed.

Lemma optimize_only_delays_witness :
  ∃ r' h',
    _optimize_segments_for_subtitles 0
      (fresh_result [mkSegment 0 3 "a" None; mkSegment 1 2 "b" None])
    = Some (r', h') ∧
    ∀ a s,
      objs (fresh_result [mkSegment 0 3 "a" None; mkSegment 1 2 "b" None]) !! a
      = Some s →
      ∃ s', objs h' !! a = Some s' ∧
            text s' = text s ∧ confidence s' = confidence s ∧
            (start s <= start s')%Q ∧ (end_ s <= end_ s')%Q.
Proof.
  apply (optimize_only_delays
           (fresh_result [mkSegment 0 3 "a" None; mkSegment 1 2 "b" None])
           0 [0%nat; 1%nat]).
  - reflexivity.
  - repeat constructor.
Defined.

Lemma optimize_loop_blank o l : ∀ h,
  Forall (λ a, ∃ s, objs h !! a = Some s ∧ strip (text s) = "") l →
  optimize_loop o l h = Some (tt, h).
Proof.
  induction l as [|a l IH]; intros h Hl; [done|].
  apply Forall_cons in Hl as [(s & Ha & Hs) Hl]. simpl.
  erewrite bind_Some; [by apply IH|].
  unfold optimize_body. erewrite bind_Some; last by apply get_segment_Some.
  by rewrite bool_decide_eq_true_2.
Qed.

(** X6: blank segments give no subtitles.  When the text of every segment
    is empty or white space, [_optimize_segments_for_subtitles] returns an
    empty list and modifies no segment; [generate_srt_content] then
    returns the empty string. *)
Theorem blank_segments_give_empty_content (segs : list TranscriptionSegment)
    (txt : string) (lang : option string) (conf : option Q) :
  Forall (λ s, strip (text s) = "") segs →
  (∃ r' h',
     _optimize_segments_for_subtitles 0 (fresh_result segs) = Some (r', h') ∧
     lsts h' !! r' = Some [] ∧ objs h' = segs) ∧
  generate_srt_content (mkResult txt segs lang conf) = inr "".
Proof.
  intros Hblank.
  assert (_optimize_segments_for_subtitles 0 (fresh_result segs)
          = Some (1%nat, mkHeap segs [seq 0 (length segs); []])) as Hrun.
  { unfold _optimize_segments_for_subtitles.
    unfold bind at 1. unfold new_list. simpl.
    erewrite bind_Some; last by apply get_list_Some.
    erewrite bind_Some; last first.
    { apply optimize_loop_blank. simpl.
      apply Forall_forall. intros a Ha. apply elem_of_seq in Ha.
      destruct (lookup_lt_is_Some_2 segs a) as [s Hs]; [lia|].
      exists s. split; [done|]. rewrite Forall_forall in Hblank.
      apply Hblank. by eapply list_elem_of_lookup_2. }
    unfold _remove_overlaps. by erewrite bind_Some; last by apply get_list_Some. }
  split.
  - eexists _, _. split; [apply Hrun|]. done.
  - unfold generate_srt_content, normalize, optimized_segments. simpl.
    by rewrite Hrun.
Qed.

Lemma blank_segments_give_empty_content_witness :
  (∃ r' h',
     _optimize_segments_for_subtitles 0
       (fresh_result [mkSegment 0 1 "  " None; mkSegment 1 2 "" None])
     = Some (r', h') ∧
     lsts h' !! r' = Some [] ∧
     objs h' = [mkSegment 0 1 "  " None; mkSegment 1 2 "" None]) ∧
  generate_srt_content
    (mkResult "" [mkSegment 0 1 "  " None; mkSegment 1 2 "" None] None None)
  = inr "".
Proof.
  apply (blank_segments_give_empty_content
           [mkSegment 0 1 "  " None; mkSegment 1 2 "" None] "" None None).
  repeat constructor.
Defined.

(** Whether the segment at [a] has a text that is not blank. *)
Definition is_nonblank (h : heap) (a : loc) : bool :=
  match objs h !! a with
  | Some s => negb (bool_decide (strip (text s) = ""))
  | None => false
  end.

Lemma optimize_body_short o a h s cur :
  objs h !! a = Some s → lsts h !! o = Some cur →
  (end_ s - start s <= 7)%Q →
  ∃ s',
    optimize_body o a h
    = Some (tt, mkHeap (<[a := s']> (objs h))
                  (<[o := cur ++ (if is_nonblank h a then [a] else [])]>
                     (lsts h))) ∧
    text s' = text s ∧ confidence s' = confidence s ∧ start s' = start s ∧
    (end_ s <= end_ s')%Q.
Proof.
  intros Ha Ho Hd. unfold optimize_body, is_nonblank. rewrite Ha.
  erewrite bind_Some; last by apply get_segment_Some.
  case_bool_decide as Hblank; simpl.
  { exists s. split_and!; try done; try lra.
    unfold ret. destruct h as [ob ls]; simpl in *.
    by rewrite app_nil_r, !list_insert_id. }
  assert (Qltb 7 (end_ s - start s) = false) as E7.
  { destruct (Qltb 7 (end_ s - start s)) eqn:E; [|done].
    apply Qltb_lt in E. lra. }
  destruct (Qltb (end_ s - start s) _) eqn:E.
  - apply Qltb_lt in E.
    exists (with_end s (start s + py_max 1 (inject_Z (str_len (text s)) * (5 # 100)))%Q).
    split_and!; try done; [|simpl; lra].
    erewrite bind_Some; last by apply set_end_Some.
    rewrite E7. by erewrite list_append_Some; last by simpl.
  - exists s. split_and!; try done; try lra.
    erewrite bind_Some; last done. rewrite E7.
    erewrite list_append_Some; last done.
    by rewrite (list_insert_id (objs h)).
Qed.

Lemma filter_ext_in {A} (P Q : A → Prop) `{∀ x, Decision (P x)}
    `{∀ x, Decision (Q x)} (l : list A) :
  (∀ x, x ∈ l → P x ↔ Q x) → filter P l = filter Q l.
Proof.
  induction l as [|x l IH]; intros Hext; [done|].
  rewrite !filter_cons.
  rewrite IH by (intros y Hy; apply Hext, elem_of_cons; by right).
  destruct (decide (P x)) as [HP|HP], (decide (Q x)) as [HQ|HQ]; try done.
  - exfalso. apply HQ, Hext; [apply elem_of_cons; by left|done].
  - exfalso. apply HP, Hext; [apply elem_of_cons; by left|done].
Qed.

Lemma optimize_loop_short o l : ∀ h cur,
  NoDup l → lsts h !! o = Some cur →
  Forall (λ a, ∃ s, objs h !! a = Some s ∧ (end_ s - start s <= 7)%Q) l →
  ∃ h',
    optimize_loop o l h = Some (tt, h') ∧
    lsts h' !! o = Some (cur ++ filter (λ a, is_nonblank h a) l) ∧
    length (lsts h') = length (lsts h) ∧
    length (objs h') = length (objs h) ∧
    grows h h'.
Proof.
  induction l as [|a l IH]; intros h cur Hnd Ho Hshort.
  { exists h. split_and!; auto using grows_refl. by rewrite app_nil_r. }
  apply NoDup_cons in Hnd as [Hal Hnd].
  apply Forall_cons in Hshort as [(s & Ha & Hd) Hshort].
  destruct (optimize_body_short o a h s cur Ha Ho Hd)
    as (s' & Hrun & Ht & Hc & Hs & He).
  set (h1 := mkHeap (<[a := s']> (objs h))
               (<[o := cur ++ (if is_nonblank h a then [a] else [])]> (lsts h)))
    in *.
  assert (o < length (lsts h))%nat as Holt by by eapply lookup_lt_Some.
  assert (∀ b, b ≠ a → objs h1 !! b = objs h !! b) as Hframe
    by (intros b Hb; simpl; by apply list_lookup_insert_ne).
  assert (grows h h1) as Hg1.
  { pose proof (grows_update h a s s' [] (lsts h1) Ha Ht Hc) as G.
    rewrite app_nil_r in G. apply G.
    - rewrite Hs. lra.
    - done.
    - unfold good. rewrite Hs. intros. lra. }
  destruct (IH h1 (cur ++ (if is_nonblank h a then [a] else [])))
    as (h' & Hrun2 & Ho2 & Hll & Hlo & Hg2); [done| | |].
  { simpl. by apply list_lookup_insert_eq. }
  { apply Forall_forall. intros b Hb. rewrite Forall_forall in Hshort.
    rewrite Hframe by (intros ->; done). by apply Hshort. }
  exists h'. split_and!.
  - simpl. erewrite bind_Some; last apply Hrun. apply Hrun2.
  - rewrite Ho2, <- app_assoc. do 2 f_equal.
    rewrite filter_cons.
    rewrite (filter_ext_in (λ b, is_nonblank h1 b) (λ b, is_nonblank h b) l).
    + by destruct (is_nonblank h a).
    + intros b Hb. unfold is_nonblank. by rewrite Hframe by (intros ->; done).
  - rewrite Hll. simpl. by rewrite length_insert.
  - rewrite Hlo. simpl. by rewrite length_insert.
  - by apply grows_trans with h1.
Qed.

(** X7: short segments are neither lost nor multiplied.  When the list
    names no segment twice and no segment is longer than 7 s,
    [_optimize_segments_for_subtitles] returns a list that holds exactly
    the caller's own segment objects with a non-blank text, each once, in
    some order, and creates no segment object; every segment keeps its
    text and confidence. *)
Theorem optimize_short_segments_kept h r l :
  lsts h !! r = Some l →
  NoDup l →
  Forall (λ a, ∃ s, objs h !! a = Some s ∧ (end_ s - start s <= 7)%Q) l →
  ∃ r' h' out,
    _optimize_segments_for_subtitles r h = Some (r', h') ∧
    lsts h' !! r' = Some out ∧
    out ≡ₚ filter (λ a, is_nonblank h a) l ∧
    length (objs h') = length (objs h) ∧
    ∀ a s, objs h !! a = Some s →
      ∃ s', objs h' !! a = Some s' ∧
            text s' = text s ∧ confidence s' = confidence s.
Proof.
  intros Hr Hnd Hshort. unfold _optimize_segments_for_subtitles.
  assert (r < length (lsts h))%nat as Hrlt by by eapply lookup_lt_Some.
  set (o := length (lsts h)).
  set (h0 := mkHeap (objs h) (lsts h ++ [[]])).
  destruct (optimize_loop_short o l h0 []) as (h1 & Hrun1 & Ho1 & _ & Hlo1 & Hg1);
    [done| |done|].
  { simpl. by rewrite lookup_app_r, Nat.sub_diag. }
  simpl in Ho1.
  change (filter (λ a, is_nonblank h0 a) l)
    with (filter (λ a, is_nonblank h a) l) in Ho1.
  set (added := filter (λ a, is_nonblank h a) l) in *.
  destruct (remove_overlaps_perm h1 o added Ho1)
    as (r' & h' & out & Hrun2 & Hout & _ & Hperm & _ & _ & _ & Hg2 & Hlo2).
  { apply Forall_forall. intros a Ha. unfold added in Ha.
    apply list_elem_of_filter in Ha as [_ Ha].
    rewrite Forall_forall in Hshort. destruct (Hshort a Ha) as (s & Hs & _).
    rewrite Hlo1. simpl. by eapply lookup_lt_Some. }
  exists r', h', out. split_and!; try done.
  - unfold bind at 1. unfold new_list. fold o h0.
    erewrite bind_Some; last first.
    { apply get_list_Some. simpl. by rewrite lookup_app_l. }
    erewrite bind_Some; last apply Hrun1. apply Hrun2.
  - by rewrite Hlo2, Hlo1.
  - intros a s Ha.
    destruct (grows_trans h0 h1 h' Hg1 Hg2 a s Ha) as (s' & ? & ? & ? & _).
    by exists s'.
Qed.

Lemma optimize_short_segments_kept_witness :
  let h := fresh_result [mkSegment 3 4 "b" None; mkSegment 0 1 " " None;
                         mkSegment 1 2 "a" None] in
  ∃ r' h' out,
    _optimize_segments_for_subtitles 0 h = Some (r', h') ∧
    lsts h' !! r' = Some out ∧
    out ≡ₚ filter (λ a, is_nonblank h a) [0; 1; 2]%nat ∧
    length (objs h') = length (objs h) ∧
    ∀ a s, objs h !! a = Some s →
      ∃ s', objs h' !! a = Some s' ∧
            text s' = text s ∧ confidence s' = confidence s.
Proof.
  intros h.
  apply (optimize_short_segments_kept h 0 [0; 1; 2]%nat).
  - reflexivity.
  - apply (NoDup_seq 0 3).
  - repeat constructor; eexists; (split; [reflexivity|]); vm_compute;
      discriminate.
Defined.

(** *** Sharing with the caller *)







(** The overlap step at work: the caller's second segment, 1-2 s inside
    the first one, is moved to 3.1-4.1 s; the caller's list still names
    the two objects in the order given. *)
Lemma optimize_moves_overlapping_segment :
  ∃ r' h',
    _optimize_segments_for_subtitles 0
      (fresh_result [mkSegment 0 3 "a" None; mkSegment 1 2 "b" None])
    = Some (r', h') ∧
    ∃ moved,
      (lsts h' !! 0%nat ≫= deref h') = Some [mkSegment 0 3 "a" None; moved] ∧
      text moved = "b" ∧
      (start moved == 31 # 10)%Q ∧ (end_ moved == 41 # 10)%Q.
Proof.
  eexists _, _. split; [vm_compute; reflexivity|].
  eexists. split; [reflexivity|]. split_and!; reflexivity.
Qed.

Lemma Qfloor_unique (x : Q) (z : Z) :
  (inject_Z z <= x)%Q → (x < inject_Z (z + 1))%Q → Qfloor x = z.
Proof.
  intros Hl Hu.
  pose proof (Qfloor_le x) as Hfl. pose proof (Qlt_floor x) as Hfu.
  assert (inject_Z z < inject_Z (Qfloor x + 1))%Q as H1 by lra.
  assert (inject_Z (Qfloor x) < inject_Z (z + 1))%Q as H2 by lra.
  rewrite <- Zlt_Qlt in H1, H2. lia.
Qed.

Lemma Qfloor_div_pos (x : Q) (k : Z) :
  (0 < k)%Z → Qfloor (x / inject_Z k) = (Qfloor x / k)%Z.
Proof.
  intros Hk.
  pose proof (Qfloor_le x) as Hfl. pose proof (Qlt_floor x) as Hfu.
  set (n := Qfloor x) in *. set (q := (n / k)%Z).
  assert (0 < inject_Z k)%Q as HkQ
    by (change 0%Q with (inject_Z 0); by rewrite <- Zlt_Qlt).
  assert (q * k <= n)%Z as H1 by (subst q; rewrite Z.mul_comm; apply Z.mul_div_le; lia).
  assert (n + 1 <= (q + 1) * k)%Z as H2.
  { subst q. pose proof (Z.mod_pos_bound n k Hk). pose proof (Z.div_mod n k). lia. }
  rewrite Zle_Qle, inject_Z_mult in H1. rewrite Zle_Qle, inject_Z_mult in H2.
  apply Qfloor_unique.
  - apply Qle_shift_div_l; [done|]. lra.
  - apply Qlt_shift_div_r; [done|]. lra.
Qed.

Lemma Qfloor_sub_Z (x : Q) (z : Z) :
  Qfloor (x - inject_Z z) = (Qfloor x - z)%Z.
Proof.
  pose proof (Qfloor_le x) as Hfl. pose proof (Qlt_floor x) as Hfu.
  apply Qfloor_unique.
  - unfold Z.sub. rewrite inject_Z_plus, inject_Z_opp. lra.
  - replace (Qfloor x - z + 1)%Z with (Qfloor x + 1 + - z)%Z by lia.
    rewrite inject_Z_plus, inject_Z_opp. lra.
Qed.

Lemma str_len_app (s t : string) : str_len (s +:+ t) = (str_len s + str_len t)%Z.
Proof. unfold str_len, len. rewrite chars_app, length_app. lia. Qed.

Lemma pad_width (w : nat) (bound : Z) :
  forallb (λ n, str_len (pad w n) =? Z.of_nat w)%Z (seqZ 0 bound) = true →
  ∀ n, (0 <= n < bound)%Z → str_len (pad w n) = Z.of_nat w.
Proof.
  intros H n Hn. rewrite forallb_forall in H.
  apply Z.eqb_eq, H, list_elem_of_In, elem_of_seqZ. lia.
Qed.

(** X8: the fields of the SRT time stamp.  For a time of at least zero
    seconds, [_seconds_to_srt_time_string] prints hours, minutes, seconds
    and milliseconds with minutes and seconds below 60 and milliseconds
    below 1000.  Below one hundred hours the hours, minutes and seconds
    printed are those of the time truncated to whole seconds, and the
    stamp has exactly twelve characters. *)
Theorem seconds_to_srt_time_string_fields (seconds : Q) :
  (0 <= seconds)%Q →
  ∃ h m s ms : Z,
    _seconds_to_srt_time_string seconds
    = pad 2 h +:+ ":" +:+ pad 2 m +:+ ":" +:+ pad 2 s +:+ "," +:+ pad 3 ms ∧
    (0 <= h)%Z ∧ (0 <= m < 60)%Z ∧ (0 <= s < 60)%Z ∧ (0 <= ms < 1000)%Z ∧
    ((seconds < 360000)%Q →
     (3600 * h + 60 * m + s = Qfloor seconds)%Z ∧
     str_len (_seconds_to_srt_time_string seconds) = 12%Z).
Proof.
  intros H0.
  pose proof (Qfloor_le seconds) as Hfl. pose proof (Qlt_floor seconds) as Hfu.
  set (n := Qfloor seconds) in *.
  assert (0 <= n)%Z as Hn.
  { change 0%Z with (Qfloor 0). by apply Qfloor_resp_le. }
  assert (floor_div seconds 3600 = (n / 3600)%Z) as Hh
    by apply (Qfloor_div_pos seconds 3600 eq_refl).
  assert (floor_div (float_mod seconds 3600) 60 = ((n mod 3600) / 60)%Z) as Hm.
  { unfold floor_div, float_mod.
    rewrite (Qfloor_div_pos _ 60 eq_refl).
    fold (floor_div seconds 3600). rewrite Hh.
    change 3600%Q with (inject_Z 3600). rewrite <- inject_Z_mult.
    rewrite Qfloor_sub_Z. fold n. f_equal. rewrite Z.mod_eq by done. lia. }
  assert (py_int (float_mod seconds 60) = (n mod 60)%Z) as Hs.
  { unfold float_mod.
    rewrite (Qfloor_div_pos _ 60 eq_refl). fold n.
    change 60%Q with (inject_Z 60) at 1. rewrite <- inject_Z_mult.
    rewrite py_int_floor.
    - rewrite Qfloor_sub_Z. fold n. rewrite Z.mod_eq by done. lia.
    - assert (n / 60 * 60 <= n)%Z as Hle
        by (rewrite Z.mul_comm; apply Z.mul_div_le; lia).
      rewrite Zle_Qle in Hle. lra. }
  assert (py_int seconds = n) as Hi by by apply py_int_floor.
  set (frac := ((seconds - inject_Z n) * 1000)%Q).
  assert (0 <= frac)%Q as Hf0 by (unfold frac; lra).
  assert (frac < 1000)%Q as Hf1.
  { unfold frac. rewrite inject_Z_plus in Hfu.
    change (inject_Z 1) with 1%Q in Hfu. lra. }
  assert (py_int frac = Qfloor frac) as Hms by by apply py_int_floor.
  pose proof (Qfloor_le frac) as Hml. pose proof (Qlt_floor frac) as Hmu.
  set (ms := Qfloor frac) in *.
  assert (0 <= ms < 1000)%Z as Hmsb.
  { split.
    - change 0%Z with (Qfloor 0). by apply Qfloor_resp_le.
    - assert (inject_Z ms < inject_Z 1000)%Q as H
        by (change (inject_Z 1000) with 1000%Q; lra).
      by rewrite <- Zlt_Qlt in H. }
  assert (3600 * (n / 3600) + 60 * (n mod 3600 / 60) + n mod 60 = n)%Z as Hsum.
  { pose proof (Z.div_mod n 3600). pose proof (Z.div_mod (n mod 3600) 60).
    assert ((n mod 3600) mod 60 = n mod 60)%Z as <-; [|lia].
    apply Z.mod_mod_divide. exists 60%Z. lia. }
  assert (_seconds_to_srt_time_string seconds
          = pad 2 (n / 3600) +:+ ":" +:+ pad 2 (n mod 3600 / 60) +:+ ":"
            +:+ pad 2 (n mod 60) +:+ "," +:+ pad 3 ms) as Hstr.
  { unfold _seconds_to_srt_time_string. rewrite Hh, Hm, Hs, Hi.
    fold frac. by rewrite Hms. }
  exists (n / 3600)%Z, (n mod 3600 / 60)%Z, (n mod 60)%Z, ms.
  split_and!.
  - done.
  - apply Z.div_pos; lia.
  - apply Z.div_pos; [|lia]. apply Z.mod_pos_bound. lia.
  - apply Z.div_lt_upper_bound; [lia|]. apply Z.mod_pos_bound. lia.
  - apply Z.mod_pos_bound. lia.
  - apply Z.mod_pos_bound. lia.
  - lia.
  - lia.
  - intros Hlt. split; [exact Hsum|]. rewrite Hstr, !str_len_app.
    assert (n < 360000)%Z as Hn2.
    { assert (inject_Z n < inject_Z 360000)%Q as H
        by (change (inject_Z 360000) with 360000%Q; lra).
      by rewrite <- Zlt_Qlt in H. }
    assert (forallb (λ k, str_len (pad 2 k) =? 2)%Z (seqZ 0 100) = true) as P2
      by (vm_compute; reflexivity).
    assert (forallb (λ k, str_len (pad 3 k) =? 3)%Z (seqZ 0 1000) = true) as P3
      by (vm_compute; reflexivity).
    assert (0 <= n / 3600 < 100)%Z as B1
      by (split; [apply Z.div_pos; lia|apply Z.div_lt_upper_bound; lia]).
    pose proof (Z.mod_pos_bound n 3600 eq_refl) as B0.
    assert (0 <= n mod 3600 / 60 < 100)%Z as B2
      by (split; [apply Z.div_pos; lia|apply Z.div_lt_upper_bound; lia]).
    pose proof (Z.mod_pos_bound n 60 eq_refl) as B3.
    rewrite (pad_width 2 100 P2 _ B1), (pad_width 2 100 P2 _ B2).
    rewrite (pad_width 2 100 P2 (n mod 60)%Z) by lia.
    rewrite (pad_width 3 1000 P3 ms) by lia.
    reflexivity.
Qed.

Lemma seconds_to_srt_time_string_fields_witness :
  ∃ h m s ms : Z,
    _seconds_to_srt_time_string (3725 + (1 # 2))
    = pad 2 h +:+ ":" +:+ pad 2 m +:+ ":" +:+ pad 2 s +:+ "," +:+ pad 3 ms ∧
    (0 <= h)%Z ∧ (0 <= m < 60)%Z ∧ (0 <= s < 60)%Z ∧ (0 <= ms < 1000)%Z ∧
    (3600 * h + 60 * m + s = 3725)%Z ∧
    str_len (_seconds_to_srt_time_string (3725 + (1 # 2))) = 12%Z.
Proof.
  destruct (seconds_to_srt_time_string_fields (3725 + (1 # 2)))
    as (h & m & s & ms & Hstr & Hh & Hm & Hs & Hms & Hlt).
  { vm_compute. discriminate. }
  exists h, m, s, ms. do 5 (split; [assumption|]).
  apply Hlt. reflexivity.
Defined.

Lemma blocks_lookup {A B} (l : list A) : ∀ (f : nat → A → list B) i a j,
  (∀ k x, length (f k x) = 4%nat) →
  l !! i = Some a → (j < 4)%nat →
  concat (imap f l) !! (4 * i + j)%nat = f i a !! j.
Proof.
  induction l as [|x l IH]; intros f i a j Hf Hi Hj; [done|].
  rewrite imap_cons.
  change (concat (f 0%nat x :: imap (f ∘ S) l))
    with (f 0%nat x ++ concat (imap (f ∘ S) l)).
  destruct i as [|i].
  - injection Hi as ->. rewrite lookup_app_l by (rewrite Hf; lia).
    by replace (4 * 0 + j)%nat with j by lia.
  - rewrite lookup_app_r by (rewrite Hf; lia). rewrite Hf.
    replace (4 * S i + j - 4)%nat with (4 * i + j)%nat by lia.
    apply (IH (f ∘ S) i a j); [intros; apply Hf|done|done].
Qed.

Lemma blocks_length {A B} (l : list A) : ∀ (f : nat → A → list B),
  (∀ k x, length (f k x) = 4%nat) →
  length (concat (imap f l)) = (4 * length l)%nat.
Proof.
  induction l as [|x l IH]; intros f Hf; [done|].
  rewrite imap_cons.
  change (concat (f 0%nat x :: imap (f ∘ S) l))
    with (f 0%nat x ++ concat (imap (f ∘ S) l)).
  rewrite length_app, Hf, (IH (f ∘ S)) by (intros; apply Hf). simpl. lia.
Qed.

(** X9: [generate_srt_content] always produces content, in blocks of four
    lines.  For every transcription result the call returns without
    raising; the content is the lines joined by newlines, four lines for
    each normalised segment: its number counted from 1, the two time
    stamps separated by an arrow, its text, and an empty line. *)
Theorem generate_srt_content_blocks (res : TranscriptionResult) :
  ∃ out,
    normalize (tr_segments res) = Some out ∧
    generate_srt_content res = inr (join nl (srt_lines out)) ∧
    length (srt_lines out) = (4 * length out)%nat ∧
    ∀ i s, out !! i = Some s →
      srt_lines out !! (4 * i)%nat = Some (pretty (S i)) ∧
      srt_lines out !! (4 * i + 1)%nat
      = Some (_seconds_to_srt_time_string (start s) +:+ " --> "
              +:+ _seconds_to_srt_time_string (end_ s)) ∧
      srt_lines out !! (4 * i + 2)%nat = Some (text s) ∧
      srt_lines out !! (4 * i + 3)%nat = Some "".
Proof.
  destruct (optimize_spec 0 (fresh_result (tr_segments res))
              (seq 0 (length (tr_segments res))))
    as (r' & h' & out & Hrun & Hout & _ & _ & _ & _ & Hinv); [done| |].
  { apply Forall_forall. intros a Ha. apply elem_of_seq in Ha. simpl. lia. }
  destruct (Hinv (NoDup_seq _ _)) as [Hgood _].
  destruct (good_at_deref h' out Hgood) as (vs & Hvs & _).
  assert (normalize (tr_segments res) = Some vs) as Hn.
  { unfold normalize, optimized_segments. by rewrite Hrun, Hout, Hvs. }
  exists vs. split_and!.
  - done.
  - unfold generate_srt_content. by rewrite Hn.
  - by apply blocks_length.
  - intros i s Hi. unfold srt_lines.
    replace (4 * i)%nat with (4 * i + 0)%nat at 1 by lia.
    by rewrite !(blocks_lookup vs _ i s) by (done || lia).
Qed.

(** ** services/transcription_service.py *)

(** [re.sub(r'\s+', ' ', text)] on the characters: every maximal run of
    white space becomes one space.  [in_run] tells that the previous
    character was white space. *)
Fixpoint collapse_ws (in_run : bool) (l : list ascii) : list ascii :=
  match l with
  | [] => []
  | c :: l' =>
      if isspace c
      then if in_run then collapse_ws true l' else " "%char :: collapse_ws true l'
      else c :: collapse_ws false l'
  end.

Definition _clean_transcription_text (text : string) : string :=
  if bool_decide (text = "") then ""
  else strip (of_chars (collapse_ws false (chars text))).

(** [re.split(r'[.!?]+', text)]: the pieces between the maximal runs of
    sentence-ending characters; a run at either end leaves an empty
    piece there. *)
Definition sentence_end (c : ascii) : bool :=
  bool_decide (c = "."%char) || bool_decide (c = "!"%char)
  || bool_decide (c = "?"%char).

Fixpoint re_split_runs (sep : ascii → bool) (cur : list ascii) (in_run : bool)
    (l : list ascii) : list string :=
  match l with
  | [] => [of_chars (rev cur)]
  | c :: l' =>
      if sep c
      then if in_run then re_split_runs sep [] true l'
           else of_chars (rev cur) :: re_split_runs sep [] true l'
      else re_split_runs sep (c :: cur) false l'
  end.

Definition _split_text_into_sentences (text : string) : list string :=
  let sentences := re_split_runs sentence_end [] false (chars text) in
  let cleaned_sentences :=
    omap (λ sentence,
            let sentence := strip sentence in
            if negb (bool_decide (sentence = "")) && (3 <? str_len sentence)%Z
            then Some sentence else None) sentences in
  let cleaned_sentences :=
    match cleaned_sentences with
    | [] =>
        if bool_decide (","%char ∈ chars text)
        then
          let parts := split_on ","%char [] (chars text) in
          omap (λ part, if bool_decide (strip part = "") then None
                        else Some (strip part)) parts
        else
          let words := split text in
          let chunk_size := 10%nat in
          omap (λ i, let chunk :=
                       join " " (py_slice words (Z.of_nat i)
                                   (Z.of_nat i + Z.of_nat chunk_size)) in
                     if bool_decide (strip chunk = "") then None
                     else Some (strip chunk))
               (range_step (length words) chunk_size)
    | _ => cleaned_sentences
    end in
  match cleaned_sentences with
  | [] => [text]
  | _ => cleaned_sentences
  end.

(** The response of the transcription engine: a dictionary whose keys may
    be absent. *)
Record GroqResult := mkGroq {
  groq_segments : option (list RawSegment);
  groq_text : option string;
  groq_language : option string
}.

(** The loop of the text-only branch of [_convert_groq_result]. *)
Fixpoint text_loop (segments : list TranscriptionSegment) (current_time : Q)
    (sentences : list string) : list TranscriptionSegment :=
  match sentences with
  | [] => segments
  | sentence :: sentences' =>
      let sentence_words := len (split sentence) in
      let sentence_duration :=
        py_max 1 (inject_Z sentence_words / (25 # 10))%Q in
      text_loop
        (segments ++ [mkSegment current_time
                        (current_time + sentence_duration)%Q sentence
                        (Some (8 # 10)%Q)])
        (current_time + sentence_duration)%Q sentences'
  end.

(** [sum(l)] *)
Definition py_sum (l : list Q) : Q := foldl Qplus 0%Q l.

(** [_convert_groq_result].  With the fields typed as above, the one
    operation of the body that can raise is the sum over confidences, on a
    segment without one; the handler then returns the empty result.  The
    overall confidence is the exact mean here; the code's float sum and
    division can differ from it in the last place (six confidences of 0.1
    average to 0.09999999999999999), so only bounds that rounding to
    nearest preserves are stated of it below. *)
Definition _convert_groq_result (result : GroqResult)
    (expected_language : option string) : TranscriptionResult :=
  let segments :=
    match groq_segments result with
    | Some (_ :: _ as raws) => convert_loop [] raws
    | _ =>
        match groq_text result with
        | Some t =>
            if bool_decide (strip t = "") then []
            else
              let full_text := strip t in
              let sentences := _split_text_into_sentences full_text in
              text_loop [] 0%Q sentences
        | None => []
        end
    end in
  match mapM confidence segments with
  | Some confidences =>
      let overall_confidence :=
        match segments with
        | [] => 0%Q
        | _ => (py_sum confidences / inject_Z (len segments))%Q
        end in
      let final_text :=
        _clean_transcription_text (strip (default "" (groq_text result))) in
      let detected_language :=
        default (or_default expected_language "en") (groq_language result) in
      mkResult final_text segments (Some detected_language)
        (Some overall_confidence)
  | None => mkResult (default "" (groq_text result)) [] (Some "en") (Some 0%Q)
  end.

(** *** [_clean_transcription_text] *)

Definition rstrip_chars (l : list ascii) : list ascii :=
  rev (lstrip_chars (rev l)).

Lemma rstrip_snoc_space l c : isspace c = true →
  rstrip_chars (l ++ [c]) = rstrip_chars l.
Proof. intros H. unfold rstrip_chars. rewrite rev_app_distr. simpl. by rewrite H. Qed.

Lemma rstrip_snoc_word l c : isspace c = false →
  rstrip_chars (l ++ [c]) = l ++ [c].
Proof.
  intros H. unfold rstrip_chars. rewrite rev_app_distr. simpl. rewrite H.
  simpl. by rewrite rev_involutive.
Qed.

Lemma rstrip_app l1 l2 :
  rstrip_chars l2 ≠ [] → rstrip_chars (l1 ++ l2) = l1 ++ rstrip_chars l2.
Proof.
  induction l2 as [|c l2 IH] using rev_ind; [done|].
  intros Hne. rewrite app_assoc. destruct (isspace c) eqn:E.
  - rewrite !rstrip_snoc_space in * by done. by apply IH.
  - rewrite !rstrip_snoc_word by done. by rewrite app_assoc.
Qed.

Lemma lstrip_collapse b l : lstrip_chars (collapse_ws b l) = collapse_ws true l.
Proof.
  revert b. induction l as [|c l IH]; intros b; [done|].
  simpl. destruct (isspace c) eqn:E.
  - destruct b; [apply IH|]. simpl.
    change (isspace " ") with true. simpl. apply IH.
  - simpl. by rewrite E.
Qed.

Lemma chars_join_cons sep w ws :
  ws ≠ [] →
  chars (join sep (w :: ws)) = chars w ++ chars sep ++ chars (join sep ws).
Proof.
  intros H. unfold join. rewrite string_concat_cons by done.
  by rewrite !chars_app.
Qed.

Lemma rstrip_app_blank l1 l2 :
  rstrip_chars l2 = [] → rstrip_chars (l1 ++ l2) = rstrip_chars l1.
Proof.
  induction l2 as [|c l2 IH] using rev_ind; [by rewrite app_nil_r|].
  intros Hb. rewrite app_assoc. destruct (isspace c) eqn:E.
  - rewrite rstrip_snoc_space in * by done. by apply IH.
  - rewrite rstrip_snoc_word in Hb by done. by destruct l2.
Qed.

Lemma of_chars_nonempty l : l ≠ [] → of_chars l ≠ "".
Proof. by destruct l. Qed.

Lemma split_ws_nonempty l : ∀ cur, Forall (λ w, w ≠ "") (split_ws cur l).
Proof.
  induction l as [|c l IH]; intros cur; simpl.
  - destruct cur as [|d cur]; [constructor|].
    constructor; [|constructor]. apply of_chars_nonempty.
    simpl. by destruct (rev cur).
  - destruct (isspace c); [|apply IH].
    destruct cur as [|d cur]; [apply IH|].
    constructor; [|apply IH]. apply of_chars_nonempty.
    simpl. by destruct (rev cur).
Qed.

Lemma chars_join_nonempty sep w ws : w ≠ "" → chars (join sep (w :: ws)) ≠ [].
Proof.
  intros Hw. destruct ws as [|w' ws].
  - simpl. by destruct w.
  - rewrite chars_join_cons by done. by destruct w.
Qed.

Lemma collapse_split l :
  (∀ cur, cur ≠ [] → Forall (λ c, isspace c = false) cur →
     rstrip_chars (rev cur ++ collapse_ws false l)
     = chars (join " " (split_ws cur l))) ∧
  rstrip_chars (collapse_ws true l) = chars (join " " (split_ws [] l)).
Proof.
  induction l as [|c l [IHw IHs]].
  { split; [|done]. intros cur Hne Hcur. simpl. rewrite app_nil_r.
    destruct cur as [|d cur]; [done|]. simpl.
    apply Forall_cons in Hcur as [Hd _].
    rewrite rstrip_snoc_word by done. by rewrite chars_of_chars. }
  split.
  - intros cur Hne Hcur. simpl. destruct (isspace c) eqn:E.
    + destruct cur as [|d cur]; [done|].
      apply Forall_cons in Hcur as [Hd _].
      assert (rstrip_chars (rev (d :: cur)) = rev (d :: cur)) as Hrs
        by (simpl; by apply rstrip_snoc_word).
      pose proof (split_ws_nonempty l []) as Hwords.
      destruct (split_ws [] l) as [|w ws] eqn:Ews.
      * simpl in IHs. simpl join. rewrite chars_of_chars.
        change (" "%char :: collapse_ws true l)
          with ([" "%char] ++ collapse_ws true l).
        rewrite app_assoc, rstrip_app_blank by done.
        by rewrite rstrip_snoc_space.
      * apply Forall_cons in Hwords as [Hw _].
        rewrite chars_join_cons by done. rewrite chars_of_chars.
        change (" "%char :: collapse_ws true l)
          with ([" "%char] ++ collapse_ws true l).
        assert (rstrip_chars (collapse_ws true l) ≠ []) as Hne'
          by (rewrite IHs; by apply chars_join_nonempty).
        rewrite rstrip_app; rewrite rstrip_app by done; [|done].
        by rewrite IHs.
    + rewrite <- (IHw (c :: cur)); [|done|by constructor].
      simpl. by rewrite <- app_assoc.
  - simpl. destruct (isspace c) eqn:E; [done|].
    rewrite <- (IHw [c]); [done|done|by repeat constructor].
Qed.

(** X10: the cleaned text is the words joined by single spaces.
    [_clean_transcription_text] returns exactly [' '.join(text.split())]:
    no white space at either end, and one space for every run of white
    space inside. *)
Theorem clean_transcription_text_joins_words (text : string) :
  _clean_transcription_text text = join " " (split text).
Proof.
  unfold _clean_transcription_text. case_bool_decide as He; [by subst|].
  unfold strip, split. rewrite chars_of_chars, lstrip_collapse.
  fold (rstrip_chars (collapse_ws true (chars text))).
  rewrite (proj2 (collapse_split (chars text))).
  generalize (join " " (split_ws [] (chars text))). intros s.
  induction s as [|c s IH]; simpl; congruence.
Qed.

(** *** [_convert_groq_result] *)

Lemma clamp_bounds x : (1 # 10 <= clamp x)%Q ∧ (clamp x <= 1)%Q.
Proof.
  unfold clamp, py_max, py_min.
  destruct (Qltb x 1) eqn:E1.
  - apply Qltb_lt in E1. destruct (Qltb (1 # 10) x) eqn:E2.
    + apply Qltb_lt in E2. lra.
    + lra.
  - destruct (Qltb (1 # 10) 1) eqn:E2; [lra|]. by vm_compute in E2.
Qed.

Definition well_formed (s : TranscriptionSegment) : Prop :=
  (start s < end_ s)%Q ∧ text s ≠ "" ∧
  ∃ c, confidence s = Some c ∧ (1 # 10 <= c)%Q ∧ (c <= 1)%Q.

Lemma convert_segment_well_formed raw s :
  convert_segment raw = Some s → well_formed s.
Proof.
  unfold convert_segment. case_bool_decide as Ht; [done|].
  destruct (_is_likely_hallucination _); [done|].
  intros [= <-]. split_and!; simpl.
  - destruct (Qleb _ _) eqn:E.
    + pose proof (py_max_ge_l 1
        (inject_Z (len (split (strip (default "" (raw_text raw))))) / (25 # 10))).
      lra.
    + by apply Qleb_gt in E.
  - done.
  - eexists. split; [done|]. apply clamp_bounds.
Qed.

(** The segments of the text-only branch, as values. *)
Fixpoint text_parts (current_time : Q) (sentences : list string)
  : list TranscriptionSegment :=
  match sentences with
  | [] => []
  | sentence :: sentences' =>
      let d := py_max 1 (inject_Z (len (split sentence)) / (25 # 10))%Q in
      mkSegment current_time (current_time + d)%Q sentence (Some (8 # 10)%Q)
      :: text_parts (current_time + d)%Q sentences'
  end.

Lemma text_loop_parts sentences : ∀ acc t,
  text_loop acc t sentences = acc ++ text_parts t sentences.
Proof.
  induction sentences as [|s ss IH]; intros acc t; simpl.
  - by rewrite app_nil_r.
  - by rewrite IH, <- app_assoc.
Qed.

Lemma text_parts_text t sentences : text <$> text_parts t sentences = sentences.
Proof.
  revert t. induction sentences as [|s ss IH]; intros t; [done|].
  simpl. by rewrite IH.
Qed.

Lemma text_parts_span t sentences :
  Forall (λ s, (start s + 1 <= end_ s)%Q ∧ confidence s = Some (8 # 10)%Q)
    (text_parts t sentences).
Proof.
  revert t. induction sentences as [|s ss IH]; intros t; [constructor|].
  simpl. constructor; [|apply IH]. simpl. split; [|done].
  pose proof (py_max_ge_l 1 (inject_Z (len (split s)) / (25 # 10))). lra.
Qed.


Lemma omap_nonempty {A} (f : A → option string) (l : list A) :
  (∀ a s, f a = Some s → s ≠ "") → Forall (λ s, s ≠ "") (omap f l).
Proof.
  intros Hf. induction l as [|a l IH]; simpl; [constructor|].
  destruct (f a) eqn:E; [|done]. constructor; [by eapply Hf|done].
Qed.

Lemma split_text_into_sentences_nonempty (text : string) :
  text ≠ "" →
  _split_text_into_sentences text ≠ [] ∧
  Forall (λ s, s ≠ "") (_split_text_into_sentences text).
Proof.
  intros Ht. unfold _split_text_into_sentences.
  set (f1 := λ sentence : string, _).
  assert (Forall (λ s, s ≠ "") (omap f1 (re_split_runs sentence_end [] false
                                            (chars text)))) as H1.
  { apply omap_nonempty. intros a s. unfold f1.
    case_bool_decide; simpl; [done|].
    destruct (3 <? _)%Z; [|done]. by intros [= <-]. }
  destruct (omap f1 _) as [|s1 ss1]; [|done].
  set (cleaned := if bool_decide (","%char ∈ chars text) then _ else _).
  assert (Forall (λ s, s ≠ "") cleaned) as H2.
  { unfold cleaned. case_bool_decide.
    - apply omap_nonempty. intros a s. case_bool_decide; [done|]. by intros [= <-].
    - apply omap_nonempty. intros a s. case_bool_decide; [done|]. by intros [= <-]. }
  destruct cleaned as [|s2 ss2]; [|done].
  split; [done|]. by repeat constructor.
Qed.

Lemma py_sum_bounds (a b : Q) (l : list Q) :
  Forall (λ c, a <= c ∧ c <= b)%Q l →
  (inject_Z (len l) * a <= py_sum l)%Q ∧ (py_sum l <= inject_Z (len l) * b)%Q.
Proof.
  unfold py_sum, len. intros Hl.
  assert (∀ acc, acc + inject_Z (Z.of_nat (length l)) * a <= foldl Qplus acc l
                 ∧ foldl Qplus acc l
                   <= acc + inject_Z (Z.of_nat (length l)) * b)%Q as H.
  { induction Hl as [|c l [Hc1 Hc2] _ IH]; intros acc.
    - change (acc + 0 * a <= acc ∧ acc <= acc + 0 * b)%Q. lra.
    - simpl foldl. destruct (IH (acc + c)%Q) as [IH1 IH2].
      rewrite length_cons, Nat2Z.inj_succ. unfold Z.succ.
      rewrite inject_Z_plus. change (inject_Z 1) with 1%Q.
      revert IH1 IH2. generalize (foldl Qplus (acc + c)%Q l).
      generalize (inject_Z (Z.of_nat (length l))). intros n x IH1 IH2. nra. }
  destruct (H 0%Q). lra.
Qed.

(** X11: every converted segment is well formed.  Whatever the response,
    each segment of the result of [_convert_groq_result] ends after it
    starts, has a non-empty text and a confidence between 0.1 and 1.0;
    the overall confidence is 0 when there is no segment and is otherwise
    above 0 and at most 1.0. *)
Theorem convert_groq_result_well_formed (result : GroqResult)
    (expected_language : option string) :
  let r := _convert_groq_result result expected_language in
  Forall well_formed (tr_segments r) ∧
  ∃ c, tr_confidence r = Some c ∧
       (tr_segments r = [] → c = 0%Q) ∧
       (tr_segments r ≠ [] → (0 < c)%Q ∧ (c <= 1)%Q).
Proof.
  unfold _convert_groq_result.
  set (segments := match groq_segments result with Some (_ :: _ as raws) => _
                   | _ => _ end).
  assert (Forall well_formed segments) as Hwf.
  { assert (Forall well_formed
              match groq_text result with
              | Some t => if bool_decide (strip t = "") then []
                          else text_loop [] 0%Q
                                 (_split_text_into_sentences (strip t))
              | None => []
              end) as Htext.
    { destruct (groq_text result) as [t|]; [|constructor].
      case_bool_decide as Hb; [constructor|].
      rewrite text_loop_parts. simpl.
      destruct (split_text_into_sentences_nonempty (strip t) Hb) as [_ Hne].
      pose proof (text_parts_span 0 (_split_text_into_sentences (strip t))) as Hs.
      pose proof (text_parts_text 0 (_split_text_into_sentences (strip t))) as Ht.
      rewrite Forall_forall in Hs. rewrite Forall_forall in Hne.
      apply Forall_forall. intros s Hin.
      destruct (Hs s Hin) as [Hd Hc]. split_and!.
      - lra.
      - apply Hne. rewrite <- Ht. by apply list_elem_of_fmap_2.
      - eexists. split; [done|]. split; by vm_compute. }
    unfold segments. destruct (groq_segments result) as [[|raw raws]|]; try done.
    rewrite convert_loop_omap. simpl app.
    apply Forall_forall. intros s Hin.
    apply list_elem_of_omap in Hin as (raw' & _ & Hraw').
    by eapply convert_segment_well_formed. }
  clearbody segments.
  assert (∃ cs, mapM confidence segments = Some cs ∧
                length cs = length segments ∧
                Forall (λ c, 1 # 10 <= c ∧ c <= 1)%Q cs) as (cs & -> & Hlen & Hcs).
  { induction Hwf as [|s l (_ & _ & c & Hc & Hb) _ (cs & Hm & Hl & Hf)].
    - by exists [].
    - exists (c :: cs). split_and!.
      + apply mapM_Some. constructor; [done|by apply mapM_Some].
      + simpl. by rewrite Hl.
      + by constructor. }
  simpl. split; [done|]. eexists. split; [done|].
  destruct segments as [|s l]; [done|]. split; [done|]. intros _.
  destruct (py_sum_bounds (1 # 10) 1 cs Hcs) as [Hlo Hhi].
  unfold len in *. rewrite Hlen in *.
  assert (0 < inject_Z (Z.of_nat (length (s :: l))))%Q as Hn.
  { change 0%Q with (inject_Z 0). rewrite <- Zlt_Qlt. simpl. lia. }
  split.
  - apply Qlt_shift_div_l; [done|]. lra.
  - apply Qle_shift_div_r; [done|]. lra.
Qed.



(** ** services/translation_service.py *)

(** *** The line format of a batch *)

Definition is_digit (c : ascii) : Prop := is_Some (digit_value c).

Lemma is_digit_plain c :
  is_digit c →
  int_space c = false ∧ isspace c = false ∧ c ≠ "+"%char ∧ c ≠ "-"%char ∧
  c ≠ "_"%char ∧ c ≠ "]"%char ∧ c ≠ "010"%char.
Proof.
  unfold is_digit, digit_value, int_space, isspace, code.
  destruct (_ && _)%N eqn:E; [|by intros []]. intros _.
  apply andb_true_iff in E as [E1 E2].
  apply N.leb_le in E1, E2.
  split_and!.
  - repeat (apply orb_false_iff; split); try (apply andb_false_iff);
      try (apply N.eqb_neq); try lia. right. apply N.leb_gt. lia.
  - repeat (apply orb_false_iff; split); try (apply andb_false_iff);
      try (apply N.eqb_neq); try lia.
    + right. apply N.leb_gt. lia.
    + right. apply N.leb_gt. lia.
  - intros ->. vm_compute in E1. done.
  - intros ->. vm_compute in E1. done.
  - intros ->. vm_compute in E2. done.
  - intros ->. vm_compute in E2. done.
  - intros ->. vm_compute in E1. done.
Qed.

Lemma digit_value_pretty_char y :
  (y < 10)%N → digit_value (pretty_N_char y) = Some (Z.of_N y).
Proof.
  intros Hy.
  assert (y = 0 ∨ y = 1 ∨ y = 2 ∨ y = 3 ∨ y = 4 ∨ y = 5 ∨ y = 6 ∨ y = 7
          ∨ y = 8 ∨ y = 9)%N as H by lia.
  repeat (destruct H as [->|H]; [reflexivity|]). by subst.
Qed.

Lemma parse_digits_step acc c rest d :
  digit_value c = Some d →
  parse_digits acc false (c :: rest) = parse_digits (10 * acc + d) false rest.
Proof.
  intros Hd. simpl.
  destruct (is_digit_plain c) as (_ & _ & _ & _ & Hu & _); [by eexists|].
  by rewrite bool_decide_eq_false_2, Hd.
Qed.

Lemma pretty_N_go_digits x : ∀ s,
  ∃ ds, chars (pretty_N_go x s) = ds ++ chars s ∧
        Forall is_digit ds ∧
        ((0 < x)%N → ds ≠ []) ∧
        ∀ acc rest,
          parse_digits acc false (ds ++ rest)
          = parse_digits (acc * 10 ^ Z.of_nat (length ds) + Z.of_N x) false rest.
Proof.
  induction (N.lt_wf_0 x) as [x _ IH]. intros s.
  destruct (decide (0 < x)%N) as [Hx|Hx]; last first.
  { assert (x = 0%N) as -> by lia. rewrite pretty_N_go_0. exists [].
    split_and!; try done. intros acc rest. simpl. f_equal. lia. }
  rewrite pretty_N_go_step by done.
  set (d := pretty_N_char (x `mod` 10)).
  assert (digit_value d = Some (Z.of_N (x `mod` 10))) as Hd.
  { apply digit_value_pretty_char. by apply N.mod_lt. }
  destruct (IH (x `div` 10)%N (N.div_lt x 10 Hx eq_refl) (String d s))
    as (ds & Hds & Hdig & _ & Hparse).
  exists (ds ++ [d]). split_and!.
  - rewrite Hds. simpl. by rewrite <- app_assoc.
  - apply Forall_app. split; [done|]. constructor; [by eexists|constructor].
  - intros _. by destruct ds.
  - intros acc rest. rewrite <- app_assoc. simpl.
    rewrite Hparse, (parse_digits_step _ d rest _ Hd). f_equal.
    rewrite length_app, Nat2Z.inj_add, Z.pow_add_r by lia. simpl length.
    pose proof (N.div_mod x 10). lia.
Qed.

Lemma pretty_nat_digits (n : nat) :
  ∃ ds, chars (pretty n) = ds ∧ Forall is_digit ds ∧ ds ≠ [] ∧
        parse_digits 0 false ds = Some (Z.of_nat n).
Proof.
  unfold pretty, pretty_nat, pretty, pretty_N.
  destruct (decide (N.of_nat n = 0%N)) as [H0|H0].
  { assert (n = 0%nat) as -> by lia. exists ["0"%char].
    split_and!; try done. repeat constructor. by eexists. }
  destruct (pretty_N_go_digits (N.of_nat n) "") as (ds & Hds & Hdig & Hne & Hp).
  simpl in Hds. rewrite app_nil_r in Hds. exists ds. split_and!; try done.
  - apply Hne. lia.
  - specialize (Hp 0%Z []). rewrite app_nil_r in Hp. rewrite Hp. simpl.
    f_equal. lia.
Qed.

Lemma lstrip_int_digits ds : Forall is_digit ds → lstrip_int ds = ds.
Proof.
  destruct 1 as [|c l Hc _]; [done|]. simpl.
  destruct (is_digit_plain c Hc) as (-> & _). done.
Qed.

Lemma int_of_string_digits ds n :
  Forall is_digit ds → ds ≠ [] → parse_digits 0 false ds = Some n →
  int_of_string (of_chars ds) = Some n.
Proof.
  intros Hdig Hne Hp. unfold int_of_string. rewrite chars_of_chars.
  rewrite (lstrip_int_digits ds Hdig).
  rewrite (lstrip_int_digits (rev ds)) by by apply Forall_rev.
  rewrite rev_involutive.
  destruct ds as [|c ds]; [done|].
  apply Forall_cons in Hdig as [Hc _].
  destruct (is_digit_plain c Hc) as (_ & _ & Hplus & Hminus & Hu & _).
  rewrite !bool_decide_eq_false_2 by done.
  by rewrite Hp.
Qed.

Lemma lstrip_idem l : lstrip_chars (lstrip_chars l) = lstrip_chars l.
Proof.
  induction l as [|c l IH]; [done|]. simpl.
  destruct (isspace c) eqn:E; [done|]. simpl. by rewrite E.
Qed.

Lemma rstrip_idem l : rstrip_chars (rstrip_chars l) = rstrip_chars l.
Proof. unfold rstrip_chars. by rewrite rev_involutive, lstrip_idem. Qed.

Lemma rstrip_cons_word c l :
  isspace c = false → rstrip_chars (c :: l) = c :: rstrip_chars l.
Proof.
  intros Hc. destruct (rstrip_chars l) as [|x xs] eqn:E.
  - change (c :: l) with ([c] ++ l). rewrite rstrip_app_blank by done.
    by apply (rstrip_snoc_word []).
  - change (c :: l) with ([c] ++ l). rewrite rstrip_app by by rewrite E.
    by rewrite E.
Qed.

Lemma rstrip_cons_space c l :
  isspace c = true →
  rstrip_chars (c :: l) = if decide (rstrip_chars l = []) then []
                          else c :: rstrip_chars l.
Proof.
  intros Hc. change (c :: l) with ([c] ++ l). case_decide as E.
  - rewrite rstrip_app_blank by done. by apply (rstrip_snoc_space []).
  - by rewrite rstrip_app.
Qed.

Lemma lstrip_rstrip l :
  lstrip_chars (rstrip_chars l) = rstrip_chars (lstrip_chars l).
Proof.
  induction l as [|c l IH]; [done|].
  destruct (isspace c) eqn:E.
  - rewrite rstrip_cons_space by done. simpl. rewrite E, <- IH.
    case_decide as Hb; [by rewrite Hb|]. simpl. by rewrite E.
  - rewrite rstrip_cons_word by done. simpl. rewrite E.
    by rewrite rstrip_cons_word.
Qed.

Lemma chars_strip s :
  chars (strip s) = rstrip_chars (lstrip_chars (chars s)).
Proof. unfold strip. by rewrite chars_of_chars. Qed.

Lemma strip_idem s : strip (strip s) = strip s.
Proof.
  unfold strip at 1. rewrite chars_strip.
  rewrite <- lstrip_rstrip, lstrip_idem, lstrip_rstrip.
  fold (rstrip_chars (rstrip_chars (lstrip_chars (chars s)))).
  by rewrite rstrip_idem.
Qed.

(** *** What the conversion of the transcription service drops *)

(** C5 (as amended): what the hallucination filter drops.  With [t] the
    stripped text of a raw segment in lower case, and [t] not empty: the
    conversion drops the segment only if [t] has at most two characters
    and is not alphanumeric, or [t] has more than 20 characters and all
    its characters other than the space are one and the same character,
    so that no other non-empty content is ever dropped; and it does drop
    every such segment whose text has at least two characters. *)
Theorem hallucination_filter_drops (raw : RawSegment) :
  let t := lower (strip (default "" (raw_text raw))) in
  let indicated :=
    ((str_len t <= 2)%Z ∧ isalnum t = false) ∨
    ((20 < str_len t)%Z ∧
     ∃ c, c ≠ " "%char ∧ c ∈ chars t ∧
          ∀ d, d ∈ chars t → d ≠ " "%char → d = c) in
  t ≠ "" →
  (convert_segment raw = None → indicated) ∧
  ((2 <= str_len t)%Z → indicated → convert_segment raw = None).
Proof.
  intros t indicated Hne.
  pose proof (is_likely_hallucination_iff (strip (default "" (raw_text raw))))
    as Hiff.
  cbv zeta in Hiff. rewrite strip_idem in Hiff. fold t in Hiff.
  assert (strip (default "" (raw_text raw)) ≠ "") as Hne'.
  { intros E. apply Hne. unfold t. by rewrite E. }
  unfold convert_segment. rewrite (bool_decide_eq_false_2 _ Hne').
  split.
  - intros Hdrop.
    destruct (_is_likely_hallucination _); [|discriminate Hdrop].
    destruct (proj1 Hiff eq_refl) as [[H2 Ha]|H20].
    + left. split; [lia|done].
    + by right.
  - intros Hlen Hind.
    assert (_is_likely_hallucination (strip (default "" (raw_text raw)))
            = true) as ->; [|done].
    apply Hiff. destruct Hind as [[H2 Ha]|H20].
    + left. split; [lia|done].
    + by right.
Qed.

Lemma hallucination_filter_drops_witness :
  convert_segment (mkRaw (Some 0%Q) (Some 1%Q) (Some " ?! ") None None) = None ∧
  (((str_len "?!" <= 2)%Z ∧ isalnum "?!" = false) ∨
   ((20 < str_len "?!")%Z ∧
    ∃ c, c ≠ " "%char ∧ c ∈ chars "?!" ∧
         ∀ d, d ∈ chars "?!" → d ≠ " "%char → d = c)).
Proof.
  destruct (hallucination_filter_drops
              (mkRaw (Some 0%Q) (Some 1%Q) (Some " ?! ") None None))
    as [Honly Hdrops].
  { vm_compute. discriminate. }
  assert (convert_segment
            (mkRaw (Some 0%Q) (Some 1%Q) (Some " ?! ") None None) = None)
    as Hnone.
  { apply Hdrops.
    - vm_compute. discriminate.
    - left. split; [vm_compute; discriminate|reflexivity]. }
  split; [exact Hnone|]. exact (Honly Hnone).
Defined.

Lemma rstrip_app_word l1 c l2 :
  isspace c = false →
  rstrip_chars (l1 ++ c :: l2) = l1 ++ c :: rstrip_chars l2.
Proof.
  intros Hc. rewrite rstrip_app; rewrite rstrip_cons_word by done; done.
Qed.

(** The characters of the line [_create_batch_text] writes for index [i]. *)
Lemma marker_line_of_chars ds (i : Z) (t : list ascii) :
  Forall is_digit ds → ds ≠ [] → parse_digits 0 false ds = Some i →
  marker_line (of_chars ("["%char :: ds ++ "]"%char :: " "%char :: t))
  = Some (i, strip (of_chars t)).
Proof.
  intros Hdig Hne Hp. unfold marker_line.
  set (R := rstrip_chars (" "%char :: t)).
  assert (strip (of_chars ("["%char :: ds ++ "]"%char :: " "%char :: t))
          = of_chars ("["%char :: ds ++ "]"%char :: R)) as ->.
  { unfold strip. rewrite chars_of_chars. f_equal.
    change (lstrip_chars ("["%char :: ?l)) with ("["%char :: l).
    fold (rstrip_chars ("["%char :: ds ++ "]"%char :: " "%char :: t)).
    rewrite rstrip_cons_word by done. f_equal.
    by rewrite rstrip_app_word. }
  assert (find_char "]" ("["%char :: ds ++ "]"%char :: R)
          = Some (S (length ds))) as Hfind.
  { assert (find_char "]" (ds ++ "]"%char :: R) = Some (length ds)) as H.
    { clear Hne Hp. induction Hdig as [|c ds Hc _ IH]; [done|]. simpl.
      destruct (is_digit_plain c Hc) as (_ & _ & _ & _ & _ & Hb & _).
      rewrite bool_decide_eq_false_2 by done. by rewrite IH. }
    simpl. by rewrite H. }
  unfold startswith, str_from. rewrite !chars_of_chars, Hfind.
  rewrite bool_decide_eq_false_2 by done.
  rewrite bool_decide_eq_true_2; last first.
  { apply elem_of_cons. right. apply elem_of_app. right.
    apply elem_of_cons. by left. }
  change (prefix_chars (chars "[") ("["%char :: ds ++ "]"%char :: R))
    with true.
  change (0 <? S (length ds))%nat with true. cbv beta iota delta [negb andb].
  replace (take (S (length ds) - 1) (drop 1 ("["%char :: ds ++ "]"%char :: R)))
    with ds; last first.
  { simpl. rewrite Nat.sub_0_r, drop_0. by rewrite take_app_length. }
  rewrite (int_of_string_digits ds i) by done.
  do 2 f_equal.
  replace (drop (S (S (length ds))) ("["%char :: ds ++ "]"%char :: R))
    with R; last first.
  { change (drop (S (S (length ds))) ("["%char :: ds ++ "]"%char :: R))
      with (drop (S (length ds)) (ds ++ "]"%char :: R)).
    replace (S (length ds)) with (length ds + 1)%nat by lia.
    by rewrite drop_app_add. }
  unfold strip. rewrite !chars_of_chars. f_equal.
  fold (rstrip_chars (lstrip_chars R)). fold (rstrip_chars (lstrip_chars t)).
  unfold R. rewrite <- lstrip_rstrip, rstrip_idem, lstrip_rstrip. done.
Qed.

Lemma marker_line_batch_line (i : nat) (t : string) :
  marker_line ("[" +:+ pretty i +:+ "] " +:+ t) = Some (Z.of_nat i, strip t).
Proof.
  destruct (pretty_nat_digits i) as (ds & Hds & Hdig & Hne & Hp).
  rewrite <- (of_chars_chars ("[" +:+ pretty i +:+ "] " +:+ t)).
  rewrite !chars_app, Hds.
  change (chars "[" ++ ds ++ chars "] " ++ chars t)
    with ("["%char :: ds ++ "]"%char :: " "%char :: chars t).
  rewrite (marker_line_of_chars ds (Z.of_nat i)) by done.
  by rewrite of_chars_chars.
Qed.

Lemma marker_line_strip line : marker_line (strip line) = marker_line line.
Proof. unfold marker_line. by rewrite strip_idem. Qed.

Lemma split_on_last c l : ∀ cur,
  c ∉ l → split_on c cur l = [of_chars (rev cur ++ l)].
Proof.
  induction l as [|d l IH]; intros cur Hc; simpl.
  - by rewrite app_nil_r.
  - apply not_elem_of_cons in Hc as [Hd Hc].
    rewrite bool_decide_eq_false_2 by done. rewrite IH by done.
    simpl. by rewrite <- app_assoc.
Qed.

Lemma split_on_app c l : ∀ cur rest,
  c ∉ l →
  split_on c cur (l ++ c :: rest)
  = of_chars (rev cur ++ l) :: split_on c [] rest.
Proof.
  induction l as [|d l IH]; intros cur rest Hc; simpl.
  - by rewrite bool_decide_eq_true_2, app_nil_r.
  - apply not_elem_of_cons in Hc as [Hd Hc].
    rewrite bool_decide_eq_false_2 by done. rewrite IH by done.
    simpl. by rewrite <- app_assoc.
Qed.

Lemma split_lines_join (ls : list string) :
  ls ≠ [] → Forall (λ l, "010"%char ∉ chars l) ls →
  split_lines (join nl ls) = ls.
Proof.
  intros Hne Hls. unfold split_lines.
  induction Hls as [|l ls Hl Hls IH]; [done|].
  destruct ls as [|l' ls].
  - simpl. rewrite split_on_last by done. simpl. by rewrite of_chars_chars.
  - rewrite chars_join_cons by done.
    change (chars nl ++ ?x) with ("010"%char :: x).
    rewrite split_on_app by done. simpl rev. rewrite app_nil_l, of_chars_chars.
    f_equal. by apply IH.
Qed.

Lemma elem_of_lstrip c l : c ∈ lstrip_chars l → c ∈ l.
Proof.
  induction l as [|d l IH]; [done|]. simpl.
  destruct (isspace d); [|done]. intros H. apply elem_of_cons. right. auto.
Qed.

Lemma elem_of_rev_iff (c : ascii) l : c ∈ rev l ↔ c ∈ l.
Proof. rewrite !list_elem_of_In. symmetry. apply in_rev. Qed.

Lemma elem_of_strip c s : c ∈ chars (strip s) → c ∈ chars s.
Proof.
  rewrite chars_strip. unfold rstrip_chars. rewrite elem_of_rev_iff.
  intros H. apply elem_of_lstrip in H. rewrite elem_of_rev_iff in H.
  by apply elem_of_lstrip.
Qed.

(** A line that starts with a character other than white space. *)
Definition starts_word (l : string) : Prop :=
  ∃ c cs, chars l = c :: cs ∧ isspace c = false.

Lemma starts_word_strip l :
  starts_word l → chars (strip l) = rstrip_chars (chars l) ∧
                  rstrip_chars (chars l) ≠ [].
Proof.
  intros (c & cs & Hl & Hc). rewrite chars_strip, Hl. simpl. rewrite Hc.
  split; [done|]. by rewrite rstrip_cons_word.
Qed.

Lemma rstrip_join (ls : list string) (l : string) :
  starts_word l →
  rstrip_chars (chars (join nl (ls ++ [l]))) = chars (join nl (ls ++ [strip l]))
  ∧ rstrip_chars (chars (join nl (ls ++ [l]))) ≠ [].
Proof.
  intros Hl. destruct (starts_word_strip l Hl) as [Hs Hne].
  induction ls as [|x ls [IH1 IH2]].
  - simpl. by rewrite Hs.
  - assert (∀ y, ls ++ [y] ≠ []) as Hnil by (intros y; by destruct ls).
    rewrite <- !app_comm_cons, !chars_join_cons by done.
    rewrite app_assoc, rstrip_app by done.
    rewrite IH1, <- app_assoc. split; [done|].
    intros E. apply app_eq_nil in E as [_ E]. by apply app_eq_nil in E as [E _].
Qed.

Lemma strip_join (ls : list string) (l0 l : string) :
  starts_word l0 → starts_word l →
  strip (join nl (l0 :: ls ++ [l])) = join nl (l0 :: ls ++ [strip l]).
Proof.
  intros (c & cs & H0 & Hc) Hl.
  rewrite <- (of_chars_chars (strip (join nl (l0 :: ls ++ [l])))).
  rewrite <- (of_chars_chars (join nl (l0 :: ls ++ [strip l]))).
  f_equal. rewrite chars_strip.
  assert (lstrip_chars (chars (join nl (l0 :: ls ++ [l])))
          = chars (join nl (l0 :: ls ++ [l]))) as ->.
  { rewrite chars_join_cons by by destruct ls. rewrite H0. simpl.
    by rewrite Hc. }
  rewrite (app_comm_cons ls [l] l0), (app_comm_cons ls [strip l] l0).
  by apply rstrip_join.
Qed.

Definition supplies (k : Z) (m : option (Z * string)) : option string :=
  match m with
  | Some (k', t) => if bool_decide (k' = k) then Some t else None
  | None => None
  end.

Lemma supplied_texts_fmap k lines :
  supplied_texts k lines = omap (supplies k) (marker_line <$> lines).
Proof.
  unfold supplied_texts. induction lines as [|l lines IH]; [done|].
  rewrite fmap_cons. simpl. unfold omap in IH. rewrite <- IH. done.
Qed.

Lemma omap_cons_Some {A B} (g : A → option B) a r y :
  g a = Some y → omap g (a :: r) = y :: omap g r.
Proof. intros H. simpl. by rewrite H. Qed.

Lemma omap_cons_None {A B} (g : A → option B) a r :
  g a = None → omap g (a :: r) = omap g r.
Proof. intros H. simpl. by rewrite H. Qed.

Lemma supplies_none {A} (f : A → string) (l : list A) : ∀ (o : nat) (k : Z),
  (k < Z.of_nat o)%Z →
  omap (supplies k) (imap (λ i s, Some (Z.of_nat (o + i), f s)) l) = [].
Proof.
  induction l as [|x l IH]; intros o k Hk; [done|].
  rewrite imap_cons.
  rewrite (imap_ext _ (λ i s, Some (Z.of_nat (S o + i), f s))); last first.
  { intros i y _. unfold compose. do 3 f_equal. lia. }
  rewrite omap_cons_None.
  - apply IH. lia.
  - unfold supplies. rewrite bool_decide_eq_false_2; [done|lia].
Qed.

Lemma supplies_one {A} (f : A → string) (l : list A) : ∀ (o j : nat) (s : A),
  l !! j = Some s →
  omap (supplies (Z.of_nat (o + j)))
    (imap (λ i s, Some (Z.of_nat (o + i), f s)) l) = [f s].
Proof.
  induction l as [|x l IH]; intros o j s Hj; [done|].
  rewrite imap_cons.
  rewrite (imap_ext _ (λ i s, Some (Z.of_nat (S o + i), f s))); last first.
  { intros i y _. unfold compose. do 3 f_equal. lia. }
  destruct j as [|j].
  - injection Hj as ->. rewrite (omap_cons_Some _ _ _ (f s)).
    + f_equal. apply supplies_none. lia.
    + unfold supplies. by rewrite bool_decide_eq_true_2.
  - rewrite omap_cons_None.
    + replace (o + S j)%nat with (S o + j)%nat by lia. by apply IH.
    + unfold supplies. rewrite bool_decide_eq_false_2; [done|lia].
Qed.

Lemma marker_lines_strip_join (LS : list string) :
  LS ≠ [] → Forall starts_word LS →
  Forall (λ l, "010"%char ∉ chars l) LS →
  marker_line <$> split_lines (strip (join nl LS)) = marker_line <$> LS.
Proof.
  intros Hne Hsw Hnl. destruct LS as [|l0 rest]; [done|].
  apply Forall_cons in Hsw as [Hsw0 Hsw]. apply Forall_cons in Hnl as [Hnl0 Hnl].
  destruct rest as [|l ls _] using rev_ind.
  - change (join nl [l0]) with l0.
    replace (split_lines (strip l0)) with [strip l0]; last first.
    { unfold split_lines. rewrite split_on_last.
      - simpl. by rewrite of_chars_chars.
      - intros H. by apply elem_of_strip in H. }
    simpl. by rewrite marker_line_strip.
  - apply Forall_app in Hsw as [Hsw Hswl]. apply Forall_app in Hnl as [Hnl Hnll].
    rewrite Forall_singleton in Hswl. rewrite Forall_singleton in Hnll.
    rewrite strip_join by done.
    rewrite split_lines_join; [|done|].
    + rewrite !fmap_cons, !fmap_app. simpl. by rewrite marker_line_strip.
    + constructor; [done|]. apply Forall_app. split; [done|].
      constructor; [|constructor]. intros H. by apply elem_of_strip in H.
Qed.

Lemma batch_line_shape (i : nat) (t : string) :
  "010"%char ∉ chars t →
  starts_word ("[" +:+ pretty i +:+ "] " +:+ t) ∧
  "010"%char ∉ chars ("[" +:+ pretty i +:+ "] " +:+ t).
Proof.
  intros Ht. destruct (pretty_nat_digits i) as (ds & Hds & Hdig & _ & _).
  rewrite !chars_app, Hds. split.
  - unfold starts_word. rewrite !chars_app, Hds. by eexists _, _.
  - change (chars "[" ++ ds ++ chars "] " ++ chars t)
      with ("["%char :: ds ++ "]"%char :: " "%char :: chars t).
    rewrite not_elem_of_cons, not_elem_of_app, !not_elem_of_cons.
    split_and!; try done.
    intros H. rewrite Forall_forall in Hdig.
    by destruct (is_digit_plain _ (Hdig _ H)) as (_ & _ & _ & _ & _ & _ & ?).
Qed.

(** X13: the batch text parses back.  When no segment text contains a
    newline, reading the text written by [_create_batch_text] with
    [_parse_batch_translation] gives every segment back with its times
    and confidence and with its own text, stripped of white space at
    both ends. *)
Theorem parse_batch_round_trip (segments : list TranscriptionSegment) :
  Forall (λ s, "010"%char ∉ chars (text s)) segments →
  _parse_batch_translation (_create_batch_text segments) segments
  = (λ s, mkSegment (start s) (end_ s) (strip (text s)) (confidence s))
    <$> segments.
Proof.
  intros Hnl. destruct (decide (segments = [])) as [->|Hne]; [done|].
  set (line := λ (i : nat) (s : TranscriptionSegment),
                 "[" +:+ pretty i +:+ "] " +:+ text s).
  set (LS := imap line segments).
  assert (marker_line <$> split_lines (strip (_create_batch_text segments))
          = marker_line <$> LS) as Hlines.
  { unfold _create_batch_text. fold line. fold LS.
    assert (∀ l, l ∈ LS → starts_word l ∧ "010"%char ∉ chars l) as Hshape.
    { intros l Hl. apply list_elem_of_lookup in Hl as [i Hi].
      unfold LS in Hi. rewrite list_lookup_imap in Hi.
      destruct (segments !! i) as [s|] eqn:Hs; [|done].
      injection Hi as <-. apply batch_line_shape.
      rewrite Forall_forall in Hnl. apply Hnl.
      by eapply list_elem_of_lookup_2. }
    apply marker_lines_strip_join.
    - unfold LS. by destruct segments.
    - apply Forall_forall. intros l Hl. by apply Hshape.
    - apply Forall_forall. intros l Hl. by apply Hshape. }
  apply list_eq. intros j. rewrite list_lookup_fmap.
  destruct (segments !! j) as [s|] eqn:Hj.
  - rewrite (parse_batch_lookup _ _ j s Hj). simpl. do 2 f_equal.
    rewrite supplied_texts_fmap, Hlines. unfold LS.
    rewrite fmap_imap.
    rewrite (imap_ext _ (λ i s, Some (Z.of_nat (0 + i), strip (text s))));
      last first.
    { intros i y _. simpl. unfold line. apply marker_line_batch_line. }
    change (Z.of_nat j) with (Z.of_nat (0 + j)).
    by rewrite (supplies_one (λ s, strip (text s)) segments 0 j s Hj).
  - simpl. apply lookup_ge_None. rewrite parse_batch_length.
    by apply lookup_ge_None.
Qed.

Lemma parse_batch_round_trip_witness :
  _parse_batch_translation
    (_create_batch_text [mkSegment 0 1 " Hello " None; mkSegment 1 2 "World" None])
    [mkSegment 0 1 " Hello " None; mkSegment 1 2 "World" None]
  = (λ s, mkSegment (start s) (end_ s) (strip (text s)) (confidence s))
    <$> [mkSegment 0 1 " Hello " None; mkSegment 1 2 "World" None].
Proof.
  apply (parse_batch_round_trip
           [mkSegment 0 1 " Hello " None; mkSegment 1 2 "World" None]).
  repeat constructor; vm_compute; intros H;
    repeat (apply elem_of_cons in H as [H|H]; [discriminate H|]);
    by apply elem_of_nil in H.
Defined.

(** *** [translate_segments]: when it returns and when it raises *)

Lemma translate_text_engine engine text src tgt ctx :
  lower src ≠ lower tgt →
  translate_text engine text src tgt ctx
  = match engine (_create_translation_prompt text (get_language_name src)
                    (get_language_name tgt) ctx) with
    | inr content => inr (_post_process_translation (strip content))
    | inl e => inl (Exception ("Translation failed: " +:+ str_exn e))
    end.
Proof.
  intros Hne. unfold translate_text, _translate_with_groq.
  rewrite bool_decide_eq_false_2 by done. by destruct (engine _).
Qed.

Lemma translate_loop_step engine segs src tgt acc n starts :
  lower src ≠ lower tgt →
  translate_loop engine segs src tgt acc n ((n * 10)%nat :: starts)
  = match engine n (batch_prompt segs src tgt n) with
    | inr content =>
        translate_loop engine segs src tgt
          (acc ++ _parse_batch_translation
                    (_post_process_translation (strip content))
                    (batch_of segs n)) (S n) starts
    | inl e => inl (Exception ("Translation failed: " +:+ str_exn e))
    end.
Proof.
  intros Hne. cbn [translate_loop]. fold (batch_of segs n).
  rewrite translate_text_engine by exact Hne. fold (batch_prompt segs src tgt n).
  destruct (engine n (batch_prompt segs src tgt n)); reflexivity.
Qed.

Lemma translate_loop_returns engine segs src tgt :
  lower src ≠ lower tgt →
  ∀ m n acc,
    (∀ b, (n ≤ b < n + m)%nat →
       ∃ content, engine b (batch_prompt segs src tgt b) = inr content) →
    ∃ out, translate_loop engine segs src tgt acc n
             ((λ k, k * 10)%nat <$> seq n m) = inr out.
Proof.
  intros Hne. induction m as [|m IH]; intros n acc Hok.
  { by exists acc. }
  change (seq n (S m)) with (n :: seq (S n) m). rewrite fmap_cons.
  rewrite translate_loop_step by exact Hne.
  destruct (Hok n) as [content Hc]; [lia|]. rewrite Hc.
  apply IH. intros b Hb. apply Hok. lia.
Qed.

Lemma translate_loop_raises engine segs src tgt e :
  lower src ≠ lower tgt →
  ∀ m n acc f,
    (n ≤ f < n + m)%nat →
    (∀ b, (n ≤ b < f)%nat →
       ∃ content, engine b (batch_prompt segs src tgt b) = inr content) →
    engine f (batch_prompt segs src tgt f) = inl e →
    translate_loop engine segs src tgt acc n ((λ k, k * 10)%nat <$> seq n m)
    = inl (Exception ("Translation failed: " +:+ str_exn e)).
Proof.
  intros Hne. induction m as [|m IH]; intros n acc f Hf Hok He; [lia|].
  change (seq n (S m)) with (n :: seq (S n) m). rewrite fmap_cons.
  rewrite translate_loop_step by exact Hne.
  destruct (decide (f = n)) as [->|Hfn].
  - rewrite He. reflexivity.
  - destruct (Hok n) as [content Hc]; [lia|]. rewrite Hc.
    apply (IH (S n) _ f); [lia| |exact He].
    intros b Hb. apply Hok. lia.
Qed.

Lemma batch_count n b : (b < (n + 10 - 1) / 10 ↔ b * 10 < n)%nat.
Proof.
  pose proof (Nat.div_mod_eq (n + 10 - 1) 10) as H.
  pose proof (Nat.mod_upper_bound (n + 10 - 1) 10) as H'.
  split; intros Hb; nia.
Qed.

(** X14: [translate_segments] returns when no engine call raises.  With
    different languages, if the engine answers the prompt of every batch
    of ten segments, the call returns a list; parsing a response never
    raises, whatever the response is. *)
Theorem translate_segments_returns (engine : engine_t)
    (segments : list TranscriptionSegment)
    (source_language target_language : string) :
  lower source_language ≠ lower target_language →
  (∀ b, (b * 10 < length segments)%nat →
     ∃ content,
       engine b (batch_prompt segments source_language target_language b)
       = inr content) →
  ∃ out,
    translate_segments engine segments source_language target_language
    = inr out.
Proof.
  intros Hne Hok. unfold translate_segments.
  rewrite bool_decide_eq_false_2 by exact Hne. unfold range_step.
  destruct (translate_loop_returns engine segments source_language
              target_language Hne ((length segments + 10 - 1) / 10) 0 [])
    as [out Hout].
  { intros b Hb. apply Hok. apply batch_count. lia. }
  rewrite Hout. by exists out.
Qed.

Lemma translate_segments_returns_witness :
  ∃ out,
    translate_segments (λ _ _, inr "[0] Hola") [mkSegment 0 1 "Hello" None]
      "en" "es" = inr out.
Proof.
  apply (translate_segments_returns (λ _ _, inr "[0] Hola")
           [mkSegment 0 1 "Hello" None] "en" "es").
  - vm_compute. discriminate.
  - intros b _. by eexists.
Defined.

(** X15: one failed batch fails the whole translation.  With different
    languages, if the engine raises [e] on the prompt of a batch and has
    answered all earlier batches, [translate_segments] raises an exception
    whose message is [Segment translation failed: Translation failed: ]
    followed by the message of [e]; no translated segment is returned. *)
Theorem translate_segments_raises (engine : engine_t)
    (segments : list TranscriptionSegment)
    (source_language target_language : string) (f : nat) (e : exn) :
  lower source_language ≠ lower target_language →
  (f * 10 < length segments)%nat →
  (∀ b, (b < f)%nat →
     ∃ content,
       engine b (batch_prompt segments source_language target_language b)
       = inr content) →
  engine f (batch_prompt segments source_language target_language f) = inl e →
  translate_segments engine segments source_language target_language
  = inl (Exception ("Segment translation failed: Translation failed: "
                    +:+ str_exn e)).
Proof.
  intros Hne Hf Hok He. unfold translate_segments.
  rewrite bool_decide_eq_false_2 by exact Hne. unfold range_step.
  rewrite (translate_loop_raises engine segments source_language
             target_language e Hne _ 0 [] f); [reflexivity| |..|exact He].
  - split; [lia|]. apply batch_count. lia.
  - intros b Hb. apply Hok. lia.
Qed.

Lemma translate_segments_raises_witness :
  translate_segments (λ _ _, inl (ValueError "rate limit"))
    [mkSegment 0 1 "Hello" None] "en" "es"
  = inl (Exception ("Segment translation failed: Translation failed: "
                    +:+ str_exn (ValueError "rate limit"))).
Proof.
  apply (translate_segments_raises (λ _ _, inl (ValueError "rate limit"))
           [mkSegment 0 1 "Hello" None] "en" "es" 0 (ValueError "rate limit")).
  - vm_compute. discriminate.
  - vm_compute. lia.
  - intros b Hb. lia.
  - reflexivity.
Defined.

(** ** main.py *)

(** A computation that leaves the registry as it found it, whether it
    returns or raises. *)
Definition read_only {A} (m : J A) : Prop := ∀ reg, (m reg).2 = reg.

Lemma read_only_jret {A} (a : A) : read_only (jret a).
Proof. done. Qed.

Lemma read_only_jraise {A} e : read_only (@jraise A e).
Proof. done. Qed.

Lemma read_only_require {A} key (v : option A) : read_only (require key v).
Proof. by destruct v. Qed.

Lemma read_only_get_job job_id : read_only (get_job job_id).
Proof. intros reg. unfold get_job. by destruct (reg !! job_id). Qed.

Lemma read_only_job_exists job_id : read_only (job_exists job_id).
Proof. done. Qed.

Lemma read_only_jbind {A B} (m : J A) (f : A → J B) :
  read_only m → (∀ a, read_only (f a)) → read_only (jbind m f).
Proof.
  intros Hm Hf reg. unfold jbind. specialize (Hm reg).
  destruct (m reg) as [[e|a] reg']; simpl in *; subst; [done|apply Hf].
Qed.

Lemma read_only_if {A} (b : bool) (m1 m2 : J A) :
  read_only m1 → read_only m2 → read_only (if b then m1 else m2).
Proof. by destruct b. Qed.

Lemma read_only_http_guard {A} (body : J A) :
  read_only body → read_only (http_guard body).
Proof.
  intros Hb reg. unfold http_guard, try_except. specialize (Hb reg).
  by destruct (body reg) as [[e|a] reg'].
Qed.

Ltac read_only_tac :=
  repeat first
    [ apply read_only_jret | apply read_only_jraise | apply read_only_require
    | apply read_only_get_job | apply read_only_job_exists
    | apply read_only_if | apply read_only_http_guard
    | apply read_only_jbind; [|intros ?]
    | match goal with
      | |- read_only (match ?x with _ => _ end) => destruct x
      end ].

(** X16: the query endpoints never change the registry.  Whatever the
    registry and the job id, and whether they return or raise,
    [get_job_status], [get_transcription], [preview_video],
    [continue_with_transcription] and [download_video] itself, before its
    response is sent, leave every job as it was. *)
Theorem query_endpoints_read_only (job_id : string)
    (transcription : TranscriptionDict) (reg : registry) :
  (get_job_status job_id reg).2 = reg ∧
  (get_transcription job_id reg).2 = reg ∧
  (preview_video job_id reg).2 = reg ∧
  (continue_with_transcription job_id transcription reg).2 = reg ∧
  (download_video job_id reg).2 = reg.
Proof.
  split_and!.
  - revert reg. change (read_only (get_job_status job_id)).
    unfold get_job_status. read_only_tac.
  - revert reg. change (read_only (get_transcription job_id)).
    unfold get_transcription. read_only_tac.
  - revert reg. change (read_only (preview_video job_id)).
    unfold preview_video. read_only_tac.
  - revert reg.
    change (read_only (continue_with_transcription job_id transcription)).
    unfold continue_with_transcription. read_only_tac.
  - revert reg. change (read_only (download_video job_id)).
    unfold download_video. read_only_tac.
Qed.

Lemma rsplit_dot_rev_app l : ∀ after r,
  "."%char ∉ l →
  rsplit_dot_rev after (l ++ "."%char :: r)
  = Some (of_chars (rev r), of_chars (rev l ++ after)).
Proof.
  induction l as [|c l IH]; intros after r Hl; simpl.
  - done.
  - apply not_elem_of_cons in Hl as [Hc Hl].
    rewrite bool_decide_eq_false_2 by done. rewrite IH by done.
    by rewrite <- app_assoc.
Qed.

Lemma rsplit_dot_join (name ext : string) :
  "."%char ∉ chars ext →
  rsplit_dot (name +:+ "." +:+ ext) = Some (name, ext).
Proof.
  intros He. unfold rsplit_dot. rewrite !chars_app.
  change (chars "." ++ chars ext) with ("."%char :: chars ext).
  rewrite rev_app_distr. simpl rev. rewrite <- app_assoc. simpl app.
  rewrite rsplit_dot_rev_app by by rewrite elem_of_rev_iff.
  by rewrite !rev_involutive, app_nil_r, !of_chars_chars.
Qed.

Lemma registry_lookup (reg : registry) job_id job :
  reg !! job_id = Some job →
  job_exists job_id reg = (inr true, reg) ∧ get_job job_id reg = (inr job, reg).
Proof.
  intros Hj. unfold job_exists, get_job. rewrite Hj.
  by rewrite bool_decide_eq_true_2 by by eexists.
Qed.

(** X17: downloading purges exactly the downloaded job.  For a completed
    job with a result video whose file name is [name.ext], [ext] without a
    dot, [download_video] returns a response with the video bytes, their
    length and the file name [name_subtitled.ext]; sending the response
    removes that job from the registry and leaves every other job as it
    was, whereas sending the response of [preview_video] removes
    nothing. *)
Theorem download_purges_job (reg : registry) (job_id : string) (job : Job)
    (video : list Byte.byte) (name ext : string) :
  reg !! job_id = Some job →
  job_status job = "completed" →
  job_result_video job = Some video →
  job_filename job = name +:+ "." +:+ ext →
  "."%char ∉ chars ext →
  ∃ response preview,
    download_video job_id reg = (inr response, reg) ∧
    sr_content response = video ∧
    sr_content_length response = len video ∧
    sr_filename response = Some (name +:+ "_subtitled." +:+ ext) ∧
    send_response response reg = (inr video, delete job_id reg) ∧
    preview_video job_id reg = (inr preview, reg) ∧
    send_response preview reg = (inr video, reg).
Proof.
  intros Hj Hst Hv Hf He.
  destruct (registry_lookup reg job_id job Hj) as [Hex Hget].
  exists (mkStreaming video (Some (name +:+ "_subtitled." +:+ ext))
            (len video) (Some job_id)),
    (mkStreaming video None (len video) None).
  split_and!; try done.
  - unfold download_video, http_guard, try_except, jbind.
    rewrite Hex. simpl. rewrite Hget, Hst. simpl. rewrite Hv, Hf.
    by rewrite rsplit_dot_join.
  - unfold send_response. cbn [sr_cleanup sr_content]. unfold jbind.
    rewrite Hex. unfold delete_job. by rewrite Hj.
  - unfold preview_video, http_guard, try_except, jbind.
    rewrite Hex. simpl. rewrite Hget, Hst. simpl. by rewrite Hv.
Qed.

Lemma download_purges_job_witness :
  let job := mkJob "completed" "my.clip.mp4" None "2026-01-01T00:00:00" 100
               (Some "es") (Some "en") None None (Some [Byte.x78])
               (Some "2026-01-01T00:05:00") in
  let other := mkJob "uploaded" "b.mp4" (Some []) "2026-01-01T00:01:00" 0
                 None None None None None None in
  let reg : registry := <["job-a" := job]> {["job-b" := other]} in
  ∃ response preview,
    download_video "job-a" reg = (inr response, reg) ∧
    sr_content response = [Byte.x78] ∧
    sr_content_length response = len [Byte.x78] ∧
    sr_filename response = Some ("my.clip" +:+ "_subtitled." +:+ "mp4") ∧
    send_response response reg = (inr [Byte.x78], delete "job-a" reg) ∧
    preview_video "job-a" reg = (inr preview, reg) ∧
    send_response preview reg = (inr [Byte.x78], reg).
Proof.
  intros job other reg.
  apply (download_purges_job reg "job-a" job [Byte.x78] "my.clip" "mp4").
  - reflexivity.
  - reflexivity.
  - reflexivity.
  - reflexivity.
  - intros H. repeat (apply elem_of_cons in H as [H|H]; [discriminate H|]).
    by apply elem_of_nil in H.
Defined.

(** X18: an accepted upload can be queried at once.  For a content type
    that starts with [video/] and data within the size limit,
    [upload_video] returns the job id, file name, size and status
    [uploaded]; the registry then holds the new job under that id, every
    other job is as it was, and [get_job_status] on the new id returns
    status [uploaded], progress 0 and an empty message. *)
Theorem upload_then_status (max_file_size : Z) (created_at job_id : string)
    (content_type filename : string) (video_data : list Byte.byte)
    (reg : registry) :
  startswith content_type "video/" = true →
  (len video_data <= max_file_size)%Z →
  ∃ reg',
    upload_video max_file_size created_at job_id content_type filename
      video_data reg
    = (inr (job_id, filename, len video_data, "uploaded"), reg') ∧
    reg' !! job_id
    = Some (mkJob "uploaded" filename (Some video_data) created_at 0
              None None None None None None) ∧
    (∀ other, other ≠ job_id → reg' !! other = reg !! other) ∧
    get_job_status job_id reg'
    = (inr (job_id, "uploaded", 0%Z, "", filename), reg').
Proof.
  intros Hct Hsize.
  set (job := mkJob "uploaded" filename (Some video_data) created_at 0
                None None None None None None).
  assert (<[job_id := job]> reg !! job_id = Some job) as Hl
    by by rewrite lookup_insert_eq.
  destruct (registry_lookup _ _ _ Hl) as [Hex Hget].
  exists (<[job_id := job]> reg). split_and!.
  - unfold upload_video, http_guard, try_except, jbind. rewrite Hct. simpl.
    apply Z.ltb_ge in Hsize. rewrite Hsize. reflexivity.
  - done.
  - intros other Hne. by rewrite lookup_insert_ne.
  - unfold get_job_status, http_guard, try_except, jbind.
    rewrite Hex. simpl. by rewrite Hget.
Qed.

Lemma upload_then_status_witness :
  ∃ reg',
    upload_video 1000 "2026-01-01T00:00:00" "job-1" "video/mp4" "clip.mp4"
      [Byte.x78] ∅
    = (inr ("job-1", "clip.mp4", len [Byte.x78], "uploaded"), reg') ∧
    reg' !! "job-1"
    = Some (mkJob "uploaded" "clip.mp4" (Some [Byte.x78])
              "2026-01-01T00:00:00" 0 None None None None None None) ∧
    (∀ other, other ≠ "job-1" → reg' !! other = (∅ : registry) !! other) ∧
    get_job_status "job-1" reg'
    = (inr ("job-1", "uploaded", 0%Z, "", "clip.mp4"), reg').
Proof.
  apply (upload_then_status 1000 "2026-01-01T00:00:00" "job-1" "video/mp4"
           "clip.mp4" [Byte.x78] ∅).
  - reflexivity.
  - vm_compute. discriminate.
Defined.

(** X19: a rejected upload stores nothing.  When the content type does
    not start with [video/], or the data exceed the size limit,
    [upload_video] leaves the registry as it was and raises; the handler
    of the endpoint turns the status 400 into status 500, with the
    original status only in the detail text. *)
Theorem upload_rejected (max_file_size : Z) (created_at job_id : string)
    (content_type filename : string) (video_data : list Byte.byte)
    (reg : registry) :
  startswith content_type "video/" = false ∨
  (max_file_size < len video_data)%Z →
  upload_video max_file_size created_at job_id content_type filename
    video_data reg
  = (inl (HTTPException 500
            (if startswith content_type "video/"
             then "400: File size exceeds "
                  +:+ pretty (round_half_even
                                (inject_Z max_file_size / (1024 * 1024))%Q)
                  +:+ "MB limit"
             else "400: File must be a video")), reg).
Proof.
  intros H. unfold upload_video, http_guard, try_except.
  destruct (startswith content_type "video/"); simpl; [|done].
  destruct H as [H|H]; [done|]. apply Z.ltb_lt in H. by rewrite H.
Qed.

Lemma upload_rejected_witness :
  upload_video 1 "2026-01-01T00:00:00" "job-1" "video/mp4" "a.mp4"
    [Byte.x78; Byte.x79] ∅
  = (inl (HTTPException 500 "400: File size exceeds 0MB limit"), ∅).
Proof.
  apply (upload_rejected 1 "2026-01-01T00:00:00" "job-1" "video/mp4" "a.mp4"
           [Byte.x78; Byte.x79] ∅).
  right. reflexivity.
Defined.

(** X20: processing can be started twice.  [process_video] records the
    target language and hands out the background task, but leaves the
    status [uploaded]; a second request that arrives before the first task
    has run is accepted as well, overwrites the target language and hands
    out a second task for the same video data. *)
Theorem process_video_twice (reg : registry) (job_id : string) (job : Job)
    (video_data : list Byte.byte)
    (target1 target2 : string) (source1 source2 : option string) :
  reg !! job_id = Some job →
  job_status job = "uploaded" →
  job_video_data job = Some video_data →
  ∃ reg1 reg2,
    process_video job_id target1 source1 reg
    = (inr (job_id, "processing_started", "Video processing started",
            ProcessVideo job_id video_data target1 source1), reg1) ∧
    reg1 !! job_id = Some (set_target_language target1 job) ∧
    process_video job_id target2 source2 reg1
    = (inr (job_id, "processing_started", "Video processing started",
            ProcessVideo job_id video_data target2 source2), reg2) ∧
    reg2 !! job_id = Some (set_target_language target2 job).
Proof.
  intros Hj Hst Hv.
  assert (∀ (r : registry) j tgt src,
            r !! job_id = Some j → job_status j = "uploaded" →
            job_video_data j = Some video_data →
            process_video job_id tgt src r
            = (inr (job_id, "processing_started", "Video processing started",
                    ProcessVideo job_id video_data tgt src),
               alter (set_target_language tgt) job_id r)) as Hrun.
  { intros r j tgt src Hr Hs Hd.
    destruct (registry_lookup r job_id j Hr) as [Hex Hget].
    unfold process_video, http_guard, try_except, jbind.
    rewrite Hex. simpl. rewrite Hget, Hs. simpl. by rewrite Hd. }
  exists (alter (set_target_language target1) job_id reg),
    (alter (set_target_language target2) job_id
       (alter (set_target_language target1) job_id reg)).
  assert (alter (set_target_language target1) job_id reg !! job_id
          = Some (set_target_language target1 job)) as H1
    by by rewrite lookup_alter_eq, Hj.
  split_and!.
  - by apply (Hrun reg job).
  - done.
  - by apply (Hrun _ (set_target_language target1 job)).
  - by rewrite lookup_alter_eq, H1.
Qed.

Lemma process_video_twice_witness :
  let job := mkJob "uploaded" "clip.mp4" (Some [Byte.x78])
               "2026-01-01T00:00:00" 0 None None None None None None in
  let reg : registry := {["job-1" := job]} in
  ∃ reg1 reg2,
    process_video "job-1" "es" None reg
    = (inr ("job-1", "processing_started", "Video processing started",
            ProcessVideo "job-1" [Byte.x78] "es" None), reg1) ∧
    reg1 !! "job-1" = Some (set_target_language "es" job) ∧
    process_video "job-1" "fr" (Some "en") reg1
    = (inr ("job-1", "processing_started", "Video processing started",
            ProcessVideo "job-1" [Byte.x78] "fr" (Some "en")), reg2) ∧
    reg2 !! "job-1" = Some (set_target_language "fr" job).
Proof.
  intros job reg.
  apply (process_video_twice reg "job-1" job [Byte.x78] "es" "fr" None
           (Some "en")); reflexivity.
Defined.

(** X21: after the transcription task, the review endpoint answers.  For
    a job whose target language is set, when the temporary files, the
    audio extraction and the transcription engine succeed,
    [process_video_background] returns and [get_transcription] then
    returns the engine's transcription, the target language, the file
    name, and as source language the one the user gave or, without one,
    the detected language or else [en]. *)
Theorem transcription_task_then_review (c : Collaborators) (reg : registry)
    (job_id : string) (job : Job) (video_data audio : list Byte.byte)
    (target_language : string) (source_language : option string)
    (transcription_result : TranscriptionResult) :
  reg !! job_id = Some job →
  job_target_language job = Some target_language →
  temporary_video_file c video_data = inr tt →
  temporary_audio_file c = inr tt →
  extract_audio c video_data = inr audio →
  transcribe_audio c audio source_language = inr transcription_result →
  ∃ reg',
    process_video_background c job_id video_data target_language
      source_language reg = (inr tt, reg') ∧
    get_transcription job_id reg'
    = (inr (job_id, transcription_result,
            if truthy source_language then default "" source_language
            else or_default (tr_detected_language transcription_result) "en",
            target_language, job_filename job), reg') ∧
    (∀ other, other ≠ job_id → reg' !! other = reg !! other).
Proof.
  intros Hj Htgt Hvid Haud Hext Htr.
  destruct (registry_lookup reg job_id job Hj) as [_ Hget].
  eexists. split_and!.
  - unfold process_video_background, try_except, process_video_body, jbind,
      lift, update_job.
    rewrite Hget, Hvid, Haud, Hext, Htr. reflexivity.
  - set (reg' := alter _ job_id _).
    assert (∃ j', reg' !! job_id = Some j' ∧
                  job_status j' = "transcription_complete" ∧
                  job_transcription_result j' = Some transcription_result ∧
                  job_source_language j'
                  = Some (if truthy source_language
                          then default "" source_language
                          else or_default
                                 (tr_detected_language transcription_result)
                                 "en") ∧
                  job_target_language j' = Some target_language ∧
                  job_filename j' = job_filename job) as (j' & Hj' & H1 & H2 & H3 & H4 & H5).
    { unfold reg'. rewrite !lookup_alter_eq, Hj. simpl.
      eexists. split; [done|]. simpl. by split_and!. }
    destruct (registry_lookup reg' job_id j' Hj') as [Hex' Hget'].
    unfold get_transcription, http_guard, try_except, jbind.
    rewrite Hex'. simpl. rewrite Hget', H1. simpl.
    by rewrite H2, H3, H4, H5.
  - intros other Hne. by rewrite !lookup_alter_ne.
Qed.

Lemma transcription_task_then_review_witness :
  let c := mkCollaborators (λ _, inr tt) (inr tt) (λ video, inr video)
             (λ _ _, inr (mkResult "Hello" [mkSegment 0 1 "Hello" None]
                             (Some "en") (Some 1%Q)))
             (λ _ _, inr "[0] Hola") (λ _, inr tt) (λ video _, inr video)
             "2026-01-01T00:05:00" in
  let job := mkJob "uploaded" "clip.mp4" (Some [Byte.x78])
               "2026-01-01T00:00:00" 0 (Some "es") None None None None None in
  let reg : registry := {["job-1" := job]} in
  ∃ reg',
    process_video_background c "job-1" [Byte.x78] "es" None reg
    = (inr tt, reg') ∧
    get_transcription "job-1" reg'
    = (inr ("job-1",
            mkResult "Hello" [mkSegment 0 1 "Hello" None] (Some "en")
              (Some 1%Q),
            "en", "es", "clip.mp4"), reg') ∧
    (∀ other, other ≠ "job-1" → reg' !! other = reg !! other).
Proof.
  intros c job reg.
  apply (transcription_task_then_review c reg "job-1" job [Byte.x78]
           [Byte.x78] "es" None
           (mkResult "Hello" [mkSegment 0 1 "Hello" None] (Some "en")
              (Some 1%Q))); reflexivity.
Defined.

(** X22: a malformed edit fails the job for good.  When the edited
    transcription lacks the key [segments],
    [continue_processing_after_transcription] returns, leaves the job with
    status [failed], progress 0 and the error text ['segments'], and
    changes no other job; a later [continue_with_transcription] for the
    job is refused. *)
Theorem malformed_edit_fails_job (c : Collaborators) (reg : registry)
    (job_id : string) (job : Job)
    (edited_transcription later : TranscriptionDict) :
  reg !! job_id = Some job →
  td_segments edited_transcription = None →
  let failed :=
    set_progress 0 (set_error "'segments'" (set_status "failed" job)) in
  let reg' := <[job_id := failed]> reg in
  continue_processing_after_transcription c job_id edited_transcription reg
  = (inr tt, reg') ∧
  continue_with_transcription job_id later reg'
  = (inl (HTTPException 500
            "400: Job not ready for transcription continuation"), reg').
Proof.
  intros Hj Hseg failed reg'.
  destruct (registry_lookup reg job_id job Hj) as [_ Hget].
  split.
  - unfold continue_processing_after_transcription, try_except,
      continue_processing_body, jbind.
    rewrite Hget, Hseg. simpl.
    by rewrite (record_failure_spec job_id (KeyError "segments") reg job Hj).
  - assert (reg' !! job_id = Some failed) as Hf by by apply lookup_insert_eq.
    destruct (registry_lookup reg' job_id failed Hf) as [Hex' Hget'].
    unfold continue_with_transcription, http_guard, try_except, jbind.
    rewrite Hex'. simpl. by rewrite Hget'.
Qed.

Lemma malformed_edit_fails_job_witness :
  let c := mkCollaborators (λ _, inr tt) (inr tt) (λ video, inr video)
             (λ _ _, inr (mkResult "" [] None None))
             (λ _ _, inr "") (λ _, inr tt) (λ video _, inr video)
             "2026-01-01T00:05:00" in
  let job := mkJob "transcription_complete" "clip.mp4" (Some [])
               "2026-01-01T00:00:00" 60 (Some "es") (Some "en")
               (Some (mkResult "" [] None None)) None None None in
  let edited := mkTranscriptionDict (Some "") None (Some None) (Some None) in
  let failed :=
    set_progress 0 (set_error "'segments'" (set_status "failed" job)) in
  let reg' : registry := <["job-1" := failed]> {["job-1" := job]} in
  continue_processing_after_transcription c "job-1" edited {["job-1" := job]}
  = (inr tt, reg') ∧
  continue_with_transcription "job-1" edited reg'
  = (inl (HTTPException 500
            "400: Job not ready for transcription continuation"), reg').
Proof.
  intros c job edited.
  apply (malformed_edit_fails_job c {["job-1" := job]} "job-1" job edited
           edited); reflexivity.
Defined.

(** X23: a task for a job that is gone does nothing.  When the registry
    has no job under the id, as after the download has purged it, both
    background tasks return without raising and leave the registry as it
    was. *)
Theorem background_task_without_job (c : Collaborators) (reg : registry)
    (task : BackgroundTask) :
  reg !! match task with
         | ProcessVideo job_id _ _ _ => job_id
         | ContinueProcessing job_id _ => job_id
         end = None →
  run_task c task reg = (inr tt, reg).
Proof.
  destruct task as [job_id video tgt src|job_id edited]; intros Hnone; simpl.
  - unfold process_video_background, try_except, process_video_body, jbind,
      get_job. rewrite Hnone.
    unfold record_failure, jbind, job_exists. rewrite Hnone.
    by rewrite bool_decide_eq_false_2 by by intros [? ?].
  - unfold continue_processing_after_transcription, try_except,
      continue_processing_body, jbind, get_job. rewrite Hnone.
    unfold record_failure, jbind, job_exists. rewrite Hnone.
    by rewrite bool_decide_eq_false_2 by by intros [? ?].
Qed.

Lemma background_task_without_job_witness :
  run_task
    (mkCollaborators (λ _, inr tt) (inr tt) (λ video, inr video)
       (λ _ _, inr (mkResult "" [] None None))
       (λ _ _, inr "") (λ _, inr tt) (λ video _, inr video)
       "2026-01-01T00:05:00")
    (ProcessVideo "job-9" [] "es" None) ∅
  = (inr tt, ∅).
Proof.
  apply (background_task_without_job _ ∅ (ProcessVideo "job-9" [] "es" None)).
  reflexivity.
Defined.

(** The dictionary of a segment and of a transcription with every key
    present, as [process_video_background] builds it for the review. *)
Definition dict_of_segment (seg : TranscriptionSegment) : SegmentDict :=
  mkSegmentDict (Some (start seg)) (Some (end_ seg)) (Some (text seg))
    (Some (confidence seg)).

Definition dict_of_result (r : TranscriptionResult) : TranscriptionDict :=
  mkTranscriptionDict (Some (tr_text r))
    (Some (dict_of_segment <$> tr_segments r))
    (Some (tr_detected_language r)) (Some (tr_confidence r)).

Lemma jbind_inr {A B} (m : J A) (f : A → J B) reg a reg1 :
  m reg = (inr a, reg1) → jbind m f reg = f a reg1.
Proof. unfold jbind. by intros ->. Qed.

Lemma segments_of_dicts_complete (segments : list TranscriptionSegment) reg :
  segments_of_dicts (dict_of_segment <$> segments) reg = (inr segments, reg).
Proof.
  induction segments as [|s l IH]; [done|].
  rewrite fmap_cons. simpl. unfold jbind at 1 2 3 4 5. simpl. rewrite IH.
  by destruct s.
Qed.

(** X24: equal languages need no translation engine.  When the source and
    target languages of the job are equal up to letter case and the edited
    transcription has every key, the subtitles are generated from the
    edited segments as they are: if the temporary files and the renderer
    succeed on that content, [continue_processing_after_transcription]
    completes the job with the rendered video, whatever the translation
    engine would do, and drops the uploaded video data and the stored
    transcription. *)
Theorem same_language_completes (c : Collaborators) (reg : registry)
    (job_id : string) (job : Job) (edited stored : TranscriptionResult)
    (source_language target_language srt_content : string)
    (video_data rendered : list Byte.byte) :
  reg !! job_id = Some job →
  job_source_language job = Some source_language →
  job_target_language job = Some target_language →
  lower source_language = lower target_language →
  job_video_data job = Some video_data →
  job_transcription_result job = Some stored →
  generate_srt_content edited = inr srt_content →
  temporary_video_file c video_data = inr tt →
  temporary_subtitle_file c srt_content = inr tt →
  render_video_to_bytes c video_data srt_content = inr rendered →
  ∃ reg' job',
    continue_processing_after_transcription c job_id (dict_of_result edited)
      reg = (inr tt, reg') ∧
    reg' !! job_id = Some job' ∧
    job_status job' = "completed" ∧ job_progress job' = 100%Z ∧
    job_result_video job' = Some rendered ∧
    job_video_data job' = None ∧ job_transcription_result job' = None ∧
    job_completed_at job' = Some (now c) ∧
    job_filename job' = job_filename job ∧
    (∀ other, other ≠ job_id → reg' !! other = reg !! other).
Proof.
  intros Hj Hsrc Htgt Hlang Hvid Hstored Hsrt Htmp Hsub Hrender.
  destruct edited as [etext esegs elang econf].
  assert (∀ t l cf, generate_srt_content (mkResult t esegs l cf)
                    = inr srt_content) as Hsrt' by (intros; exact Hsrt).
  assert (∀ (f : Job → Job) (r : registry) k, k ≠ job_id →
            alter f job_id r !! k = r !! k) as Hother
    by (intros; by apply lookup_alter_ne).
  assert (∀ (r : registry) j, r !! job_id = Some j →
            get_job job_id r = (inr j, r)) as Hget
    by (intros r j Hr; by apply registry_lookup).
  set (tr := mkResult etext esegs elang econf).
  set (final := if bool_decide (source_language ≠ target_language)
                then mkResult (join " " (text <$> esegs)) esegs
                       (Some source_language) econf
                else tr).
  assert (generate_srt_content final = inr srt_content) as Hfinal
    by (unfold final; case_bool_decide; apply Hsrt').
  set (j1 := set_progress 70 (set_status "translating" job)).
  set (j2 := set_progress 80 (set_status "generating_subtitles" j1)).
  set (j3 := set_progress 90 (set_status "rendering_video" j2)).
  set (j4 := set_completed_at (now c)
               (set_result_video rendered
                  (set_progress 100 (set_status "completed" j3)))).
  set (j5 := set_video_data None j4).
  set (j6 := set_transcription_result None j5).
  assert (continue_processing_body c job_id (dict_of_result tr) reg
          = (inr tt, <[job_id := j6]> reg)) as Hbody.
  { unfold continue_processing_body.
    erewrite jbind_inr; last by apply Hget.
    erewrite jbind_inr; last reflexivity.
    erewrite jbind_inr; last apply segments_of_dicts_complete.
    erewrite jbind_inr; last reflexivity.
    erewrite jbind_inr; last reflexivity.
    erewrite jbind_inr; last reflexivity.
    erewrite jbind_inr; last reflexivity.
    erewrite jbind_inr; last reflexivity.
    set (r1 := alter (set_progress 70) job_id
                 (alter (set_status "translating") job_id reg)).
    assert (r1 !! job_id = Some j1) as H1
      by (unfold r1; by rewrite !lookup_alter_eq, Hj).
    erewrite jbind_inr; last by apply Hget.
    erewrite jbind_inr; last by (cbn; rewrite Hsrc).
    erewrite jbind_inr; last by (cbn; rewrite Htgt).
    erewrite (jbind_inr _ _ r1 final r1); last first.
    { fold tr. unfold final. case_bool_decide as Hne; [|done].
      erewrite jbind_inr; [reflexivity|].
      unfold lift, translate_segments.
      by rewrite bool_decide_eq_true_2. }
    erewrite jbind_inr; last reflexivity.
    erewrite jbind_inr; last reflexivity.
    set (r2 := alter (set_progress 80) job_id
                 (alter (set_status "generating_subtitles") job_id r1)).
    assert (r2 !! job_id = Some j2) as H2
      by (unfold r2; by rewrite !lookup_alter_eq, H1).
    erewrite jbind_inr; last by (unfold lift; rewrite Hfinal).
    erewrite jbind_inr; last by apply Hget.
    erewrite jbind_inr; last by (cbn; rewrite Hvid).
    erewrite jbind_inr; last by (unfold lift; rewrite Htmp).
    erewrite jbind_inr; last by (unfold lift; rewrite Hsub).
    erewrite jbind_inr; last reflexivity.
    erewrite jbind_inr; last reflexivity.
    set (r3 := alter (set_progress 90) job_id
                 (alter (set_status "rendering_video") job_id r2)).
    assert (r3 !! job_id = Some j3) as H3
      by (unfold r3; by rewrite !lookup_alter_eq, H2).
    erewrite jbind_inr; last by (unfold lift; rewrite Hrender).
    erewrite jbind_inr; last reflexivity.
    erewrite jbind_inr; last reflexivity.
    erewrite jbind_inr; last reflexivity.
    erewrite jbind_inr; last reflexivity.
    set (r4 := alter (set_completed_at (now c)) job_id
                 (alter (set_result_video rendered) job_id
                    (alter (set_progress 100) job_id
                       (alter (set_status "completed") job_id r3)))).
    assert (r4 !! job_id = Some j4) as H4
      by (unfold r4; by rewrite !lookup_alter_eq, H3).
    erewrite jbind_inr; last by apply Hget.
    erewrite jbind_inr; last by (cbn; rewrite Hvid).
    erewrite jbind_inr; last reflexivity.
    set (r5 := alter (set_video_data None) job_id r4).
    assert (r5 !! job_id = Some j5) as H5
      by (unfold r5; by rewrite !lookup_alter_eq, H4).
    erewrite jbind_inr; last by apply Hget.
    erewrite jbind_inr; last by (cbn; rewrite Hstored).
    unfold update_job. f_equal.
    apply map_eq. intros k. destruct (decide (k = job_id)) as [->|Hk].
    - by rewrite lookup_alter_eq, H5, lookup_insert_eq.
    - rewrite lookup_insert_ne by done. unfold r5, r4, r3, r2, r1.
      by rewrite !Hother. }
  exists (<[job_id := j6]> reg), j6. split_and!; try done.
  - unfold continue_processing_after_transcription, try_except.
    by rewrite Hbody.
  - by rewrite lookup_insert_eq.
  - intros other Hne. by rewrite lookup_insert_ne.
Qed.

Lemma same_language_completes_witness :
  let c := mkCollaborators (λ _, inr tt) (inr tt) (λ video, inr video)
             (λ _ _, inl (Exception "no transcription"))
             (λ _ _, inl (Exception "no translation")) (λ _, inr tt)
             (λ video _, inr (video ++ [Byte.x79])) "2026-01-01T00:05:00" in
  let stored := mkResult "Hello" [mkSegment 0 1 "Hello" None] (Some "en")
                  (Some 1%Q) in
  let edited := mkResult "Hi" [mkSegment 0 2 "Hi" None] (Some "en")
                  (Some 1%Q) in
  let job := mkJob "transcription_complete" "clip.mp4" (Some [Byte.x78])
               "2026-01-01T00:00:00" 60 (Some "EN") (Some "en")
               (Some stored) None None None in
  let reg : registry := {["job-1" := job]} in
  ∃ reg' job',
    continue_processing_after_transcription c "job-1" (dict_of_result edited)
      reg = (inr tt, reg') ∧
    reg' !! "job-1" = Some job' ∧
    job_status job' = "completed" ∧ job_progress job' = 100%Z ∧
    job_result_video job' = Some [Byte.x78; Byte.x79] ∧
    job_video_data job' = None ∧ job_transcription_result job' = None ∧
    job_completed_at job' = Some "2026-01-01T00:05:00" ∧
    job_filename job' = "clip.mp4" ∧
    (∀ other, other ≠ "job-1" → reg' !! other = reg !! other).
Proof.
  intros c stored edited job reg.
  apply (same_language_completes c reg "job-1" job edited stored "en" "EN"
           ("1" +:+ nl +:+ "00:00:00,000 --> 00:00:02,000" +:+ nl +:+ "Hi"
            +:+ nl)
           [Byte.x78] [Byte.x78; Byte.x79]); reflexivity.
Defined.

(** ** utils/config.py *)

(** [settings.supported_languages.items()], in the order of the
    dictionary. *)
Definition supported_languages_items : list (string * string) :=
    [("en", "English"); ("es", "Spanish"); ("fr", "French"); ("de", "German");
     ("it", "Italian"); ("pt", "Portuguese"); ("ru", "Russian");
     ("ja", "Japanese"); ("ko", "Korean"); ("zh", "Chinese");
     ("ar", "Arabic"); ("hi", "Hindi"); ("th", "Thai"); ("vi", "Vietnamese");
     ("nl", "Dutch"); ("sv", "Swedish"); ("no", "Norwegian");
     ("da", "Danish"); ("fi", "Finnish"); ("pl", "Polish");
     ("tr", "Turkish"); ("cs", "Czech"); ("hu", "Hungarian");
     ("ro", "Romanian"); ("bg", "Bulgarian"); ("hr", "Croatian");
     ("sk", "Slovak"); ("sl", "Slovenian"); ("et", "Estonian");
     ("lv", "Latvian"); ("lt", "Lithuanian"); ("mt", "Maltese");
     ("ga", "Irish"); ("cy", "Welsh"); ("eu", "Basque"); ("ca", "Catalan");
     ("gl", "Galician"); ("is", "Icelandic"); ("mk", "Macedonian");
     ("sq", "Albanian"); ("be", "Belarusian"); ("uk", "Ukrainian");
     ("he", "Hebrew"); ("fa", "Persian"); ("ur", "Urdu"); ("bn", "Bengali");
     ("ta", "Tamil"); ("te", "Telugu"); ("ml", "Malayalam");
     ("kn", "Kannada"); ("gu", "Gujarati"); ("mr", "Marathi");
     ("ne", "Nepali"); ("si", "Sinhala"); ("my", "Burmese"); ("km", "Khmer");
     ("lo", "Lao"); ("ka", "Georgian"); ("am", "Amharic"); ("sw", "Swahili");
     ("zu", "Zulu"); ("af", "Afrikaans"); ("ms", "Malay"); ("tl", "Filipino");
     ("id", "Indonesian")].

(** [get_language_code]: the code of the first entry whose name is the
    given one up to letter case, else the lower-cased argument. *)
Definition get_language_code (language_name : string) : string :=
  match list_find (λ item, lower item.2 = lower language_name)
          supported_languages_items with
  | Some (_, (code, _)) => code
  | None => lower language_name
  end.

Lemma supported_languages_table :
  supported_languages = list_to_map supported_languages_items.
Proof. reflexivity. Qed.

Lemma supported_languages_codes :
  Forall (λ item, get_language_code item.2 = item.1 ∧ lower item.1 = item.1)
    supported_languages_items.
Proof. repeat constructor. Qed.

Lemma get_language_code_lower name name' :
  lower name' = lower name → get_language_code name' = get_language_code name.
Proof. unfold get_language_code. by intros ->. Qed.

(** X25: language codes and names convert back and forth.  For a code of
    the table, in any letter case, [get_language_name] gives its name and
    [get_language_code] takes that name, in any letter case, back to the
    lower-case code; no two languages of the table share a name.  A code
    that is not in the table is its own name, unchanged, and a name that
    is not in the table is its own code, lower-cased. *)
Theorem language_code_round_trip (code : string) :
  (∀ name name',
     supported_languages !! lower code = Some name →
     lower name' = lower name →
     get_language_name code = name ∧ get_language_code name' = lower code) ∧
  (supported_languages !! lower code = None →
   get_language_name code = code) ∧
  (∀ name,
     (∀ item, item ∈ supported_languages_items → lower item.2 ≠ lower name) →
     get_language_code name = lower name).
Proof.
  split_and!.
  - intros name name' Hcode Hname. split.
    + unfold get_language_name. by rewrite Hcode.
    + rewrite (get_language_code_lower name name' Hname).
      rewrite supported_languages_table in Hcode.
      apply elem_of_list_to_map_2 in Hcode.
      pose proof supported_languages_codes as H.
      rewrite Forall_forall in H. destruct (H _ Hcode) as [H1 _]. exact H1.
  - intros Hnone. unfold get_language_name. by rewrite Hnone.
  - intros name Hname. unfold get_language_code.
    destruct (list_find _ _) as [[i [c n]]|] eqn:E; [|done].
    apply list_find_Some in E as (Hi & Hn & _).
    exfalso. apply (Hname (c, n)); [|done]. by eapply list_elem_of_lookup_2.
Qed.

Lemma language_code_round_trip_witness :
  get_language_name "EN" = "English" ∧ get_language_code "ENGLISH" = "en".
Proof.
  apply (proj1 (language_code_round_trip "EN") "English" "ENGLISH");
    reflexivity.
Defined.
